(** * Infinite gradient carousel: layout, momentum and palette extraction

    A shallow embedding of [script.js].

    The carousel half of the script (wrap-around layout, momentum
    integration, pointer handlers) works on JavaScript numbers and uses
    [Math.pow] with a real exponent; it is embedded over the type [num] of
    real numbers extended with [NaN] and the two infinities.  IEEE rounding
    is idealised away (every finite operation is exact, also the stores
    into the [Float32Array] of positions) and zero carries no sign.

    The palette half only uses rational operations on pixel bytes and is
    embedded over [Q], so that it runs on concrete pixel buffers; the sums
    kept in [Float32Array]s are exact there too.  The DOM calls of
    [extractColors] are an input: what the read-back of the canvas
    returns, or that it throws. *)

From Stdlib Require Import Reals Lra Lia ZArith Arith List Bool.
Import ListNotations.

(** ** JavaScript numbers *)

Module JS.

Local Open Scope R_scope.

Inductive num : Type :=
| NaN
| NegInf
| PosInf
| Fin (r : R).

Definition neg (a : num) : num :=
  match a with
  | NaN => NaN
  | NegInf => PosInf
  | PosInf => NegInf
  | Fin r => Fin (- r)
  end.

Definition add (a b : num) : num :=
  match a, b with
  | NaN, _ | _, NaN => NaN
  | PosInf, NegInf | NegInf, PosInf => NaN
  | PosInf, _ | _, PosInf => PosInf
  | NegInf, _ | _, NegInf => NegInf
  | Fin x, Fin y => Fin (x + y)
  end.

Definition sub (a b : num) : num := add a (neg b).

(** Sign-directed infinity: the product or quotient of an infinity with a
    finite factor [r]. *)
Definition scaled_inf (positive : bool) (r : R) : num :=
  if Req_dec_T r 0 then NaN
  else if Rlt_dec 0 r
       then (if positive then PosInf else NegInf)
       else (if positive then NegInf else PosInf).

Definition mul (a b : num) : num :=
  match a, b with
  | NaN, _ | _, NaN => NaN
  | PosInf, PosInf | NegInf, NegInf => PosInf
  | PosInf, NegInf | NegInf, PosInf => NegInf
  | PosInf, Fin r | Fin r, PosInf => scaled_inf true r
  | NegInf, Fin r | Fin r, NegInf => scaled_inf false r
  | Fin x, Fin y => Fin (x * y)
  end.

(** [x / 0] is an infinity of the sign of [x], [0 / 0] is [NaN]. *)
Definition div (a b : num) : num :=
  match a, b with
  | NaN, _ | _, NaN => NaN
  | (PosInf | NegInf), (PosInf | NegInf) => NaN
  | PosInf, Fin r => if Rlt_dec r 0 then NegInf else PosInf
  | NegInf, Fin r => if Rlt_dec r 0 then PosInf else NegInf
  | Fin _, (PosInf | NegInf) => Fin 0
  | Fin x, Fin y =>
      if Req_dec_T y 0 then scaled_inf true x else Fin (x / y)
  end.

(** [a < b]; every comparison with [NaN] is false. *)
Definition lt (a b : num) : bool :=
  match a, b with
  | NaN, _ | _, NaN => false
  | _, NegInf => false
  | NegInf, _ => true
  | PosInf, _ => false
  | Fin _, PosInf => true
  | Fin x, Fin y => if Rlt_dec x y then true else false
  end.

Definition gt (a b : num) : bool := lt b a.

(** Truthiness of a number: [0] and [NaN] are falsy. *)
Definition truthy (a : num) : bool :=
  match a with
  | NaN => false
  | Fin r => if Req_dec_T r 0 then false else true
  | _ => true
  end.

Definition Math_abs (a : num) : num :=
  match a with
  | NaN => NaN
  | NegInf | PosInf => PosInf
  | Fin r => Fin (Rabs r)
  end.

Definition Math_min (a b : num) : num :=
  match a, b with
  | NaN, _ | _, NaN => NaN
  | _, _ => if lt b a then b else a
  end.

Definition Math_max (a b : num) : num :=
  match a, b with
  | NaN, _ | _, NaN => NaN
  | _, _ => if lt a b then b else a
  end.

(** Truncation towards zero, as a real. *)
Definition trunc (x : R) : R :=
  if Rle_dec 0 x then IZR (Int_part x) else - IZR (Int_part (- x)).

(** The remainder operator [%]: the result has the sign of the dividend. *)
Definition rem (a b : num) : num :=
  match a, b with
  | NaN, _ | _, NaN => NaN
  | (PosInf | NegInf), _ => NaN
  | Fin x, (PosInf | NegInf) => Fin x
  | Fin x, Fin y =>
      if Req_dec_T y 0 then NaN else Fin (x - y * trunc (x / y))
  end.

(** [Math.pow] for a positive finite base, the only use the script makes of
    it on a frame ([FRICTION] is [0.9]); other bases are outside this model
    and are mapped to [NaN]. *)
Definition Math_pow (b e : num) : num :=
  match b, e with
  | _, NaN => NaN
  | Fin x, Fin y => if Rlt_dec 0 x then Fin (Rpower x y) else NaN
  | Fin x, PosInf =>
      if Rlt_dec 0 x then
        if Rlt_dec x 1 then Fin 0 else if Req_dec_T x 1 then NaN else PosInf
      else NaN
  | Fin x, NegInf =>
      if Rlt_dec 0 x then
        if Rlt_dec x 1 then PosInf else if Req_dec_T x 1 then NaN else Fin 0
      else NaN
  | _, _ => NaN
  end.

(** [lo <= a <= hi] for a finite [a]. *)
Definition within (lo hi : R) (a : num) : Prop :=
  match a with
  | Fin r => lo <= r <= hi
  | _ => False
  end.

End JS.

(** ** The carousel: state, layout pass, frame tick and pointer handlers *)

Module Carousel.

Import JS.
Local Open Scope R_scope.

(** Physics constants *)
Definition FRICTION : num := Fin 0.9.
Definition WHEEL_SENS : num := Fin 0.6.
Definition DRAG_SENS : num := Fin 1.0.

(** Visual constants *)
Definition MAX_ROTATION : num := Fin 28.
Definition MAX_DEPTH : num := Fin 140.
Definition MIN_SCALE : num := Fin 0.92.
Definition SCALE_RANGE : num := Fin 0.1.

(** What the layout pass writes on a card: the numeric components of its
    [transform] string and whether it is one of the three core cards.  The
    [zIndex] and [filter] strings are derived from [z] and [norm] and are
    not kept. *)
Record card_style : Type := {
  style_x : num;
  style_z : num;
  style_ry : num;
  style_scale : num;
  style_core : bool
}.

(** The module-level variables of the script that the carousel reads and
    writes.  [items] holds [items[i].x]. *)
Record carousel : Type := {
  items : list num;
  positions : list num;
  styles : list card_style;
  activeIndex : Z;
  isEntering : bool;
  bgCtx : bool;
  TRACK : num;
  SCROLL_X : num;
  VW_HALF : num;
  vX : num;
  lastTime : num;
  dragging : bool;
  lastX : num;
  lastT : num;
  lastDelta : num
}.

Definition set_layout (ps : list num) (ss : list card_style) (st : carousel) :=
  {| items := items st; positions := ps; styles := ss;
     activeIndex := activeIndex st; isEntering := isEntering st;
     bgCtx := bgCtx st; TRACK := TRACK st; SCROLL_X := SCROLL_X st;
     VW_HALF := VW_HALF st; vX := vX st; lastTime := lastTime st;
     dragging := dragging st; lastX := lastX st; lastT := lastT st;
     lastDelta := lastDelta st |}.

Definition set_activeIndex (i : Z) (st : carousel) :=
  {| items := items st; positions := positions st; styles := styles st;
     activeIndex := i; isEntering := isEntering st;
     bgCtx := bgCtx st; TRACK := TRACK st; SCROLL_X := SCROLL_X st;
     VW_HALF := VW_HALF st; vX := vX st; lastTime := lastTime st;
     dragging := dragging st; lastX := lastX st; lastT := lastT st;
     lastDelta := lastDelta st |}.

Definition set_SCROLL_X (x : num) (st : carousel) :=
  {| items := items st; positions := positions st; styles := styles st;
     activeIndex := activeIndex st; isEntering := isEntering st;
     bgCtx := bgCtx st; TRACK := TRACK st; SCROLL_X := x;
     VW_HALF := VW_HALF st; vX := vX st; lastTime := lastTime st;
     dragging := dragging st; lastX := lastX st; lastT := lastT st;
     lastDelta := lastDelta st |}.

Definition set_vX (v : num) (st : carousel) :=
  {| items := items st; positions := positions st; styles := styles st;
     activeIndex := activeIndex st; isEntering := isEntering st;
     bgCtx := bgCtx st; TRACK := TRACK st; SCROLL_X := SCROLL_X st;
     VW_HALF := VW_HALF st; vX := v; lastTime := lastTime st;
     dragging := dragging st; lastX := lastX st; lastT := lastT st;
     lastDelta := lastDelta st |}.

Definition set_lastTime (t : num) (st : carousel) :=
  {| items := items st; positions := positions st; styles := styles st;
     activeIndex := activeIndex st; isEntering := isEntering st;
     bgCtx := bgCtx st; TRACK := TRACK st; SCROLL_X := SCROLL_X st;
     VW_HALF := VW_HALF st; vX := vX st; lastTime := t;
     dragging := dragging st; lastX := lastX st; lastT := lastT st;
     lastDelta := lastDelta st |}.

Definition set_drag (d : bool) (x t dl : num) (st : carousel) :=
  {| items := items st; positions := positions st; styles := styles st;
     activeIndex := activeIndex st; isEntering := isEntering st;
     bgCtx := bgCtx st; TRACK := TRACK st; SCROLL_X := SCROLL_X st;
     VW_HALF := VW_HALF st; vX := vX st; lastTime := lastTime st;
     dragging := d; lastX := x; lastT := t; lastDelta := dl |}.

(** [mod(n, m)]: [((n % m) + m) % m] ([mod] is a reserved word here) *)
Definition mod_ (n m : num) : num := rem (add (rem n m) m) m.

(** The components [computeTransformComponents] returns. *)
Record components : Type := {
  norm : num;
  absNorm : num;
  invNorm : num;
  ry : num;
  tz : num;
  scale : num
}.

Definition computeTransformComponents (VW_HALF screenX : num) : components :=
  let norm := Math_max (Fin (-1)) (Math_min (Fin 1) (div screenX VW_HALF)) in
  let absNorm := Math_abs norm in
  let invNorm := sub (Fin 1) absNorm in
  let ry := mul (neg norm) MAX_ROTATION in
  let tz := mul invNorm MAX_DEPTH in
  let scale := add MIN_SCALE (mul invNorm SCALE_RANGE) in
  {| norm := norm; absNorm := absNorm; invNorm := invNorm;
     ry := ry; tz := tz; scale := scale |}.

(** The body of the wrapping loop for one item: [items[i].x - SCROLL_X],
    moved by one [TRACK] when it lies beyond [half]. *)
Definition wrapped (half TRACK SCROLL_X x : num) : num :=
  let pos := sub x SCROLL_X in
  let pos := if lt pos (neg half) then add pos TRACK else pos in
  let pos := if gt pos half then sub pos TRACK else pos in
  pos.

(** The first loop of [updateCarouselTransforms], from index [i] on, with
    the running [closestIdx] and [closestDist]; it returns the positions it
    stored and the final pair. *)
Fixpoint wrap_loop (half TRACK SCROLL_X : num) (xs : list num) (i : Z)
    (closestIdx : Z) (closestDist : num) : list num * (Z * num) :=
  match xs with
  | [] => ([], (closestIdx, closestDist))
  | x :: rest =>
      let pos := wrapped half TRACK SCROLL_X x in
      let dist := Math_abs pos in
      let '(cI, cD) :=
        if lt dist closestDist then (i, dist) else (closestIdx, closestDist) in
      let '(ps, r) := wrap_loop half TRACK SCROLL_X rest (i + 1) cI cD in
      (pos :: ps, r)
  end.

(** The second loop: the style of every card. *)
Fixpoint style_loop (VW_HALF : num) (ps : list num) (i : Z)
    (closestIdx prevIdx nextIdx : Z) : list card_style :=
  match ps with
  | [] => []
  | pos :: rest =>
      let c := computeTransformComponents VW_HALF pos in
      let isCore := (i =? closestIdx)%Z || (i =? prevIdx)%Z || (i =? nextIdx)%Z in
      {| style_x := pos; style_z := tz c; style_ry := ry c;
         style_scale := scale c; style_core := isCore |}
      :: style_loop VW_HALF rest (i + 1) closestIdx prevIdx nextIdx
  end.

(** [setActiveGradient], as far as the carousel state goes: the guard and
    the assignment of [activeIndex].  The colour tween it starts is
    outside this model. *)
Definition setActiveGradient (idx : Z) (st : carousel) : carousel :=
  if negb (bgCtx st) || (idx <? 0)%Z
     || (idx >=? Z.of_nat (length (items st)))%Z
     || (idx =? activeIndex st)%Z
  then st
  else set_activeIndex idx st.

(** The nearest index the layout pass computes. *)
Definition closestIdx (st : carousel) : Z :=
  let half := div (TRACK st) (Fin 2) in
  fst (snd (wrap_loop half (TRACK st) (SCROLL_X st) (items st) 0 (-1) PosInf)).

Definition updateCarouselTransforms (st : carousel) : carousel :=
  let half := div (TRACK st) (Fin 2) in
  let '(ps, (cI, _)) :=
    wrap_loop half (TRACK st) (SCROLL_X st) (items st) 0 (-1) PosInf in
  let n := Z.of_nat (length (items st)) in
  (* with no item the two remainders are NaN and the second loop is empty *)
  let prevIdx := Z.rem (cI - 1 + n) n in
  let nextIdx := Z.rem (cI + 1) n in
  let ss := style_loop (VW_HALF st) ps 0 cI prevIdx nextIdx in
  let st := set_layout ps ss st in
  if (cI =? activeIndex st)%Z then st else setActiveGradient cI st.

(** [lastTime ? (t - lastTime) / 1000 : 0], the seconds since the last
    frame. *)
Definition frame_dt (t lastTime : num) : num :=
  if truthy lastTime then div (sub t lastTime) (Fin 1000) else Fin 0.

(** One animation frame at timestamp [t] (milliseconds). *)
Definition tick (t : num) (st : carousel) : carousel :=
  let dt := frame_dt t (lastTime st) in
  let st := set_lastTime t st in
  let st := set_SCROLL_X (mod_ (add (SCROLL_X st) (mul (vX st) dt)) (TRACK st)) st in
  let decay := Math_pow FRICTION (mul dt (Fin 60)) in
  let st := set_vX (mul (vX st) decay) st in
  let st := if lt (Math_abs (vX st)) (Fin 0.02) then set_vX (Fin 0) st else st in
  updateCarouselTransforms st.

(** The input events of the stage.  [now] is [performance.now()] at the
    time the handler runs; [onFrame] tells whether the pointer went down on
    an element inside [.frame]. *)
Inductive event : Type :=
| Wheel (deltaX deltaY : num)
| PointerDown (clientX now : num) (onFrame : bool)
| PointerMove (clientX now : num)
| PointerUp.

Definition on_wheel (deltaX deltaY : num) (st : carousel) : carousel :=
  if isEntering st then st
  else
    let delta := if gt (Math_abs deltaX) (Math_abs deltaY) then deltaX else deltaY in
    set_vX (add (vX st) (mul (mul delta WHEEL_SENS) (Fin 20))) st.

Definition on_pointerdown (clientX now : num) (onFrame : bool) (st : carousel) :=
  if isEntering st then st
  else if onFrame then st
  else set_drag true clientX now (Fin 0) st.

Definition on_pointermove (clientX now : num) (st : carousel) : carousel :=
  if negb (dragging st) then st
  else
    let dx := sub clientX (lastX st) in
    let dt := div (Math_max (Fin 1) (sub now (lastT st))) (Fin 1000) in
    let st := set_SCROLL_X (mod_ (sub (SCROLL_X st) (mul dx DRAG_SENS)) (TRACK st)) st in
    set_drag (dragging st) clientX now (div dx dt) st.

Definition on_pointerup (st : carousel) : carousel :=
  if negb (dragging st) then st
  else
    let st := set_drag false (lastX st) (lastT st) (lastDelta st) st in
    set_vX (mul (neg (lastDelta st)) DRAG_SENS) st.

Definition handle (e : event) (st : carousel) : carousel :=
  match e with
  | Wheel dx dy => on_wheel dx dy st
  | PointerDown x now f => on_pointerdown x now f st
  | PointerMove x now => on_pointermove x now st
  | PointerUp => on_pointerup st
  end.


(** [d] stands at index [j] of [ps], no entry of [ps] is nearer to 0, and
    every earlier entry is strictly farther. *)
Definition nearest_at (ps : list R) (j : nat) (d : R) : Prop :=
  nth_error ps j = Some d
  /\ (forall j' p, nth_error ps j' = Some p -> Rabs d <= Rabs p)
  /\ (forall j' p, (j' < j)%nat -> nth_error ps j' = Some p -> Rabs d < Rabs p).

(** The running pair of the first loop after the positions [pre]. *)
Definition scan_inv (pre : list R) (cI : Z) (cD : num) : Prop :=
  (pre = [] /\ cI = (-1)%Z /\ cD = PosInf)
  \/ (exists j d, cI = Z.of_nat j /\ cD = Fin (Rabs d) /\ nearest_at pre j d).

(** A carousel at rest, before any frame: [items[i].x] is [i * step]. *)
Definition at_rest (xs : list num) (track offset vw_half : num) : carousel :=
  {| items := xs; positions := []; styles := []; activeIndex := -1;
     isEntering := false; bgCtx := true; TRACK := track; SCROLL_X := offset;
     VW_HALF := vw_half; vX := Fin 0; lastTime := Fin 0; dragging := false;
     lastX := Fin 0; lastT := Fin 0; lastDelta := Fin 0 |}.





(** A carousel coasting at velocity [v], its last frame at 1000 ms. *)
Definition coasting (v : R) : carousel :=
  {| items := [Fin 0; Fin 328]; positions := []; styles := [];
     activeIndex := 0; isEntering := false; bgCtx := true;
     TRACK := Fin 656; SCROLL_X := Fin 0; VW_HALF := Fin 600;
     vX := Fin v; lastTime := Fin 1000; dragging := false;
     lastX := Fin 0; lastT := Fin 0; lastDelta := Fin 0 |}.

(** A carousel in the middle of a drag, coasting at 5 px/s. *)
Definition mid_drag : carousel :=
  {| items := [Fin 0; Fin 328]; positions := []; styles := [];
     activeIndex := 0; isEntering := false; bgCtx := true;
     TRACK := Fin 3280; SCROLL_X := Fin 3200; VW_HALF := Fin 600;
     vX := Fin 5; lastTime := Fin 16; dragging := true;
     lastX := Fin 400; lastT := Fin 1000; lastDelta := Fin 0 |}.

End Carousel.

(** ** Colour extraction *)

From Stdlib Require Import QArith Qround Qabs.
From Stdlib Require Lqa.

Module Palette.

Local Open Scope Q_scope.

(** Comparisons and the [Math] functions on exact rationals. *)
Definition ltb (a b : Q) : bool := negb (Qle_bool b a).
Definition gtb (a b : Q) : bool := ltb b a.
Definition geb (a b : Q) : bool := Qle_bool b a.
Definition leb (a b : Q) : bool := Qle_bool a b.

Definition Math_max (a b : Q) : Q := if ltb a b then b else a.
Definition Math_min (a b : Q) : Q := if ltb b a then b else a.
Definition Math_abs (a : Q) : Q := Qabs a.
Definition Math_floor (a : Q) : Z := Qfloor a.
(** [Math.round] rounds halves up. *)
Definition Math_round (a : Q) : Z := Qfloor (a + (1 # 2)).

(** [n % m] for a non-zero [m]: the quotient is truncated towards zero. *)
Definition rem (n m : Q) : Q :=
  let q := n / m in
  n - m * inject_Z (if Qle_bool 0 q then Qfloor q else Qceiling q).

Definition rgb : Type := (Z * Z * Z)%type.

Definition rgbToHsl (r g b : Q) : Q * Q * Q :=
  let r := r / 255 in
  let g := g / 255 in
  let b := b / 255 in
  let max := Math_max (Math_max r g) b in
  let min := Math_min (Math_min r g) b in
  let l := (max + min) / 2 in
  if Qeq_bool max min then (0 * 360, 0, l)
  else
    let d := max - min in
    let s := if gtb l 0.5 then d / (2 - max - min) else d / (max + min) in
    let h :=
      if Qeq_bool max r then (g - b) / d + (if ltb g b then 6 else 0)
      else if Qeq_bool max g then (b - r) / d + 2
      else (r - g) / d + 4 in
    let h := h / 6 in
    (h * 360, s, l).

Definition hue2rgb (p q t : Q) : Q :=
  let t := if ltb t 0 then t + 1 else t in
  let t := if gtb t 1 then t - 1 else t in
  if ltb t (1 / 6) then p + (q - p) * 6 * t
  else if ltb t (1 / 2) then q
  else if ltb t (2 / 3) then p + (q - p) * (2 / 3 - t) * 6
  else p.

Definition hslToRgb (h s l : Q) : rgb :=
  let h := rem (rem h 360 + 360) 360 in
  let h := h / 360 in
  let '(r, g, b) :=
    if Qeq_bool s 0 then (l, l, l)
    else
      let q := if ltb l 0.5 then l * (1 + s) else l + s - l * s in
      let p := 2 * l - q in
      (hue2rgb p q (h + 1 / 3), hue2rgb p q h, hue2rgb p q (h - 1 / 3)) in
  (Math_round (r * 255), Math_round (g * 255), Math_round (b * 255)).

(** The pair of colours of one card. *)
Record colors : Type := { c1 : rgb; c2 : rgb }.

Definition fallback_hue (idx : Z) : Z := Z.rem (idx * 37) 360.

Definition fallbackFromIndex (idx : Z) : colors :=
  let h := inject_Z (fallback_hue idx) in
  let s := 0.65 in
  {| c1 := hslToRgb h s 0.52; c2 := hslToRgb h s 0.72 |}.

(** The histogram: four parallel arrays of [SIZE] cells. *)
Definition H_BINS : Z := 36.
Definition S_BINS : Z := 5.
Definition SIZE : Z := H_BINS * S_BINS.

Record hist : Type := {
  wSum : list Q;
  rSum : list Q;
  gSum : list Q;
  bSum : list Q
}.

Definition zeros : list Q := repeat 0 (Z.to_nat SIZE).

Definition empty_hist : hist :=
  {| wSum := zeros; rSum := zeros; gSum := zeros; bSum := zeros |}.

(** [a[i] += d]; a write outside the array is dropped. *)
Fixpoint bump (a : list Q) (i : nat) (d : Q) : list Q :=
  match a, i with
  | [], _ => []
  | x :: rest, O => (x + d) :: rest
  | x :: rest, S j => x :: bump rest j d
  end.

Definition cell (a : list Q) (i : Z) : Q := nth (Z.to_nat i) a 0.

(** What one pixel adds to the histogram: its cell and its weight, or
    nothing when the pixel is skipped. *)
Definition pixel_bin (r g b a8 : Z) : option (Z * Q) :=
  let a := inject_Z a8 / 255 in
  if ltb a 0.05 then None
  else
    let '(h, s, l) := rgbToHsl (inject_Z r) (inject_Z g) (inject_Z b) in
    if ltb l 0.1 || gtb l 0.92 || ltb s 0.08 then None
    else
      let w := a * (s * s) * (1 - Math_abs (l - 0.5) * 0.6) in
      let hi := Z.max 0 (Z.min (H_BINS - 1) (Math_floor (h / 360 * inject_Z H_BINS))) in
      let si := Z.max 0 (Z.min (S_BINS - 1) (Math_floor (s * inject_Z S_BINS))) in
      Some (hi * S_BINS + si, w)%Z.

(** The pixel loop over the RGBA bytes, four at a time. *)
Fixpoint accumulate (data : list Z) (hs : hist) : hist :=
  match data with
  | r :: g :: b :: a8 :: rest =>
      match pixel_bin r g b a8 with
      | None => accumulate rest hs
      | Some (bidx, w) =>
          let i := Z.to_nat bidx in
          accumulate rest
            {| wSum := bump (wSum hs) i w;
               rSum := bump (rSum hs) i (inject_Z r * w);
               gSum := bump (gSum hs) i (inject_Z g * w);
               bSum := bump (bSum hs) i (inject_Z b * w) |}
      end
  | _ => hs
  end.

(** The scan for the heaviest cell, from index [i] on. *)
Fixpoint primary_loop (ws : list Q) (i : Z) (pIdx : Z) (pW : Q) : Z * Q :=
  match ws with
  | [] => (pIdx, pW)
  | w :: rest =>
      if gtb w pW then primary_loop rest (i + 1) i w
      else primary_loop rest (i + 1) pIdx pW
  end.

(** The hue a cell index stands for: the lower edge of its hue bin. *)
Definition bin_hue (i : Z) : Q :=
  inject_Z (Math_floor (inject_Z i / inject_Z S_BINS)) * (360 / inject_Z H_BINS).

(** Shortest distance on the colour wheel between two bin hues. *)
Definition hue_gap (h pHue : Q) : Q :=
  let dh := Math_abs (h - pHue) in
  Math_min dh (360 - dh).

(** The scan for the secondary cell, from index [i] on. *)
Fixpoint secondary_loop (pHue : Q) (ws : list Q) (i : Z) (sIdx : Z) (sW : Q)
    : Z * Q :=
  match ws with
  | [] => (sIdx, sW)
  | w :: rest =>
      if leb w 0 then secondary_loop pHue rest (i + 1) sIdx sW
      else
        let dh := hue_gap (bin_hue i) pHue in
        if geb dh 25 && gtb w sW then secondary_loop pHue rest (i + 1) i w
        else secondary_loop pHue rest (i + 1) sIdx sW
  end.

Definition avgRGB (hs : hist) (idx : Z) : Z * Z * Z :=
  let w := if Qeq_bool (cell (wSum hs) idx) 0 then 1e-6 else cell (wSum hs) idx in
  (Math_round (cell (rSum hs) idx / w),
   Math_round (cell (gSum hs) idx / w),
   Math_round (cell (bSum hs) idx / w)).

Definition boost (factor s : Q) : Q :=
  Math_max 0.45 (Math_min 1 (s * factor)).

(** The part of [extractColors] that follows the read-back of the pixels. *)
Definition colorsOfData (data : list Z) (idx : Z) : colors :=
  let hs := accumulate data empty_hist in
  let '(pIdx, pW) := primary_loop (wSum hs) 0 (-1) 0 in
  if (pIdx <? 0)%Z || leb pW 0 then fallbackFromIndex idx
  else
    let pHue := bin_hue pIdx in
    let '(sIdx, sW) := secondary_loop pHue (wSum hs) 0 (-1) 0 in
    let '(pr, pg, pb) := avgRGB hs pIdx in
    let '(h1, s1, _) := rgbToHsl (inject_Z pr) (inject_Z pg) (inject_Z pb) in
    let s1 := boost 1.15 s1 in
    let c1 := hslToRgb h1 s1 0.5 in
    let c2 :=
      if (sIdx >=? 0)%Z && geb sW (pW * 0.6) then
        let '(sr, sg, sb) := avgRGB hs sIdx in
        let '(h2, s2, _) := rgbToHsl (inject_Z sr) (inject_Z sg) (inject_Z sb) in
        let s2 := boost 1.05 s2 in
        hslToRgb h2 s2 0.72
      else hslToRgb h1 s1 0.72 in
    {| c1 := c1; c2 := c2 |}.

(** A statement either returns or throws. *)
Inductive outcome (A : Type) : Type :=
| Returned (a : A)
| Thrown.
Arguments Returned {A} a.
Arguments Thrown {A}.

(** An image element as the extractor sees it: its natural size and what
    drawing it on a [tw] by [th] canvas and reading the canvas back gives,
    the RGBA bytes or an exception (no 2D context, a broken image, a
    tainted canvas). *)
Record image : Type := {
  naturalWidth : Z;
  naturalHeight : Z;
  readBack : Z -> Z -> outcome (list Z)
}.

Definition MAX : Z := 48.

Definition thumb_size (img : image) : Z * Z :=
  let ratio :=
    if negb (naturalWidth img =? 0)%Z && negb (naturalHeight img =? 0)%Z
    then inject_Z (naturalWidth img) / inject_Z (naturalHeight img) else 1 in
  let tw := if geb ratio 1 then MAX
            else Z.max 16 (Math_round (inject_Z MAX * ratio)) in
  let th := if geb ratio 1 then Z.max 16 (Math_round (inject_Z MAX / ratio))
            else MAX in
  (tw, th).

(** The body of the [try] block.  [img] is what [querySelector] found:
    reading a property of [null] throws. *)
Definition extractColors_try (img : option image) (idx : Z) : outcome colors :=
  match img with
  | None => Thrown
  | Some im =>
      let '(tw, th) := thumb_size im in
      match readBack im tw th with
      | Thrown => Thrown
      | Returned data => Returned (colorsOfData data idx)
      end
  end.

Definition extractColors (img : option image) (idx : Z) : colors :=
  match extractColors_try img idx with
  | Returned c => c
  | Thrown => fallbackFromIndex idx
  end.

(** The sum, over the pixels of [data] that fall in cell [k], of their
    weight times [ch r g b]: what the pixels put in one cell of one of the
    four arrays. *)
Fixpoint bucket_sum (ch : Z -> Z -> Z -> Q) (k : Z) (data : list Z) : Q :=
  match data with
  | r :: g :: b :: a8 :: rest =>
      match pixel_bin r g b a8 with
      | Some (bidx, w) =>
          if (bidx =? k)%Z then ch r g b * w + bucket_sum ch k rest
          else bucket_sum ch k rest
      | None => bucket_sum ch k rest
      end
  | _ => 0
  end.

Definition ch_one (r g b : Z) : Q := 1.
Definition ch_red (r g b : Z) : Q := inject_Z r.
Definition ch_green (r g b : Z) : Q := inject_Z g.
Definition ch_blue (r g b : Z) : Q := inject_Z b.

(** The hue and the saturation of an averaged colour. *)
Definition hue_sat (c : Z * Z * Z) : Q * Q :=
  let '(r, g, b) := c in
  let '(h, s, _) := rgbToHsl (inject_Z r) (inject_Z g) (inject_Z b) in
  (h, s).

(** Cell [j] is at least 25 degrees away from the hue [pHue]. *)
Definition far_from (pHue : Q) (j : nat) : Prop :=
  geb (hue_gap (bin_hue (Z.of_nat j)) pHue) 25 = true.

(** The running pair of a scan for the heaviest cell among the candidate
    cells of [pre]: nothing found yet and no candidate of positive weight,
    or the first heaviest candidate. *)
Definition best_inv (cand : nat -> Prop) (pre : list Q) (idx : Z) (W : Q) : Prop :=
  (idx = (-1)%Z /\ W = 0
   /\ forall j w, nth_error pre j = Some w -> cand j -> w <= 0)
  \/ (exists k, idx = Z.of_nat k /\ nth_error pre k = Some W /\ 0 < W /\ cand k
       /\ (forall j w, nth_error pre j = Some w -> cand j -> w <= W)
       /\ (forall j w, (j < k)%nat -> nth_error pre j = Some w -> cand j -> w < W)).

(** The four arrays have their [SIZE] cells. *)
Definition hist_sized (hs : hist) : Prop :=
  length (wSum hs) = Z.to_nat SIZE /\ length (rSum hs) = Z.to_nat SIZE
  /\ length (gSum hs) = Z.to_nat SIZE /\ length (bSum hs) = Z.to_nat SIZE.

(** The rounded weighted average of the pixels of [data] that fall in
    cell [k]. *)
Definition weighted_average (data : list Z) (k : Z) : Z * Z * Z :=
  (Math_round (bucket_sum ch_red k data / bucket_sum ch_one k data),
   Math_round (bucket_sum ch_green k data / bucket_sum ch_one k data),
   Math_round (bucket_sum ch_blue k data / bucket_sum ch_one k data)).

(** Some cell of the histogram has a positive weight. *)
Definition has_positive_cell (hs : hist) : bool := existsb (ltb 0) (wSum hs).

(** A test image of two blocks: [a] opaque red pixels, then [b] opaque
    blue pixels. *)
Definition two_tone (a b : nat) : list Z :=
  concat (repeat [255; 0; 0; 255]%Z a) ++ concat (repeat [0; 0; 255; 255]%Z b).

(** Every complete pixel of [data] satisfies [P]. *)
Fixpoint all_pixels (P : Z -> Z -> Z -> Z -> Prop) (data : list Z) : Prop :=
  match data with
  | r :: g :: b :: a8 :: rest => P r g b a8 /\ all_pixels P rest
  | _ => True
  end.

(** A pixel that is all but transparent, or grey. *)
Definition faint_or_grey (r g b a8 : Z) : Prop :=
  (0 <= a8 <= 12)%Z \/ (r = g /\ g = b).

(** The primary colour in the words of the specification: the rounded
    weighted average of the cell, its saturation boosted, hue and
    lightness kept. *)
Definition primary_saturation_only (hs : hist) (pIdx : Z) : rgb :=
  let '(pr, pg, pb) := avgRGB hs pIdx in
  let '(h, s, l) := rgbToHsl (inject_Z pr) (inject_Z pg) (inject_Z pb) in
  hslToRgb h (boost 1.15 s) l.

(** An image whose read-back gives [data], or throws. *)
Definition image_of (data : list Z) : image :=
  {| naturalWidth := 48; naturalHeight := 48;
     readBack := fun _ _ => Returned data |}.

Definition tainted_image : image :=
  {| naturalWidth := 48; naturalHeight := 48; readBack := fun _ _ => Thrown |}.

End Palette.

(** ** Measuring, resizing, start-up and runs of inputs *)

Module Stage.

Import JS Carousel.
Local Open Scope R_scope.

Definition GAP : num := Fin 28.

(** The carousel together with the measurements its layout is derived
    from. *)
Record stage : Type := {
  car : carousel;
  CARD_W : num;
  CARD_H : num;
  STEP : num
}.

Definition set_measured (xs ps : list num) (track : num) (st : carousel) :=
  {| items := xs; positions := ps; styles := styles st;
     activeIndex := activeIndex st; isEntering := isEntering st;
     bgCtx := bgCtx st; TRACK := track; SCROLL_X := SCROLL_X st;
     VW_HALF := VW_HALF st; vX := vX st; lastTime := lastTime st;
     dragging := dragging st; lastX := lastX st; lastT := lastT st;
     lastDelta := lastDelta st |}.

Definition set_items (xs : list num) (st : carousel) :=
  set_measured xs (positions st) (TRACK st) st.


(** [i * STEP] for the indices [i], [i + 1], ... of [n] cards. *)
Fixpoint bases (STEP : num) (i n : nat) : list num :=
  match n with
  | O => []
  | S k => mul (Fin (INR i)) STEP :: bases STEP (S i) k
  end.

(** [createCards] for [n] images, as far as [items] goes: the list is
    emptied and one [{x: i * STEP}] is pushed per image. *)
Definition createCards (n : nat) (sg : stage) : stage :=
  {| car := set_items (bases (STEP sg) 0 n) (car sg);
     CARD_W := CARD_W sg; CARD_H := CARD_H sg; STEP := STEP sg |}.

(** [a || b] on numbers. *)
Definition or_else (a b : num) : num := if truthy a then a else b.

(** [measure], given the width and height of the bounding rectangle of the
    first card; with no card it returns at once. *)
Definition measure (width height : num) (sg : stage) : stage :=
  match items (car sg) with
  | [] => sg
  | _ :: _ =>
      let cw := or_else width (CARD_W sg) in
      let ch := or_else height (CARD_H sg) in
      let step := add cw GAP in
      let n := length (items (car sg)) in
      let track := mul (Fin (INR n)) step in
      {| car := set_measured (bases step 0 n) (repeat (Fin 0) n) track (car sg);
         CARD_W := cw; CARD_H := ch; STEP := step |}
  end.


(** The loop of [init] that finds the card to start on: the loop of the
    layout pass without the store, started at index 0. *)
Fixpoint init_loop (half TRACK SCROLL_X : num) (xs : list num) (i : Z)
    (closestIdx : Z) (closestDist : num) : Z :=
  match xs with
  | [] => closestIdx
  | x :: rest =>
      let pos := wrapped half TRACK SCROLL_X x in
      let d := Math_abs pos in
      if lt d closestDist
      then init_loop half TRACK SCROLL_X rest (i + 1) i d
      else init_loop half TRACK SCROLL_X rest (i + 1) closestIdx closestDist
  end.

Definition init_closestIdx (st : carousel) : Z :=
  init_loop (div (TRACK st) (Fin 2)) (TRACK st) (SCROLL_X st) (items st) 0 0 PosInf.

(** The scale [resizeBG] gives the canvas:
    [Math.max(1, Math.min(2, window.devicePixelRatio || 1))]. *)
Definition canvas_dpr (devicePixelRatio : num) : num :=
  Math_max (Fin 1) (Math_min (Fin 2) (or_else devicePixelRatio (Fin 1))).

(** What happens to the carousel between two draws: a frame at some
    timestamp, or an input event. *)
Inductive input : Type :=
| Frame (t : R)
| Input (e : event).

Definition step (i : input) (st : carousel) : carousel :=
  match i with
  | Frame t => tick (Fin t) st
  | Input e => handle e st
  end.

Fixpoint run (ins : list input) (st : carousel) : carousel :=
  match ins with
  | [] => st
  | i :: rest => run rest (step i st)
  end.

Definition finite (a : num) : Prop :=
  match a with
  | Fin _ => True
  | _ => False
  end.

(** An event whose coordinates, deltas and timestamp are real numbers. *)
Definition finite_event (e : event) : Prop :=
  match e with
  | Wheel dx dy => finite dx /\ finite dy
  | PointerDown x now _ => finite x /\ finite now
  | PointerMove x now => finite x /\ finite now
  | PointerUp => True
  end.

Definition finite_input (i : input) : Prop :=
  match i with
  | Frame _ => True
  | Input e => finite_event e
  end.

(** A measured carousel in a sound state: a positive track, the offset
    inside it, and real numbers in the velocity and in the drag and frame
    bookkeeping. *)
Definition sound (st : carousel) : Prop :=
  (exists track offset,
      TRACK st = Fin track /\ SCROLL_X st = Fin offset
      /\ 0 < track /\ 0 <= offset < track)
  /\ finite (vX st) /\ finite (lastTime st)
  /\ finite (lastX st) /\ finite (lastT st) /\ finite (lastDelta st).

(** The number of cards the layout pass leaves sharp. *)
Definition core_count (ss : list card_style) : nat :=
  length (filter style_core ss).

(** A carousel coasting at 500 px/s at offset 100 whose frame loop has
    just been restarted. *)
Definition restarted : carousel :=
  {| items := [Fin 0; Fin 328]; positions := []; styles := [];
     activeIndex := 0; isEntering := false; bgCtx := true;
     TRACK := Fin 656; SCROLL_X := Fin 100; VW_HALF := Fin 600;
     vX := Fin 500; lastTime := Fin 0; dragging := false;
     lastX := Fin 0; lastT := Fin 0; lastDelta := Fin 0 |}.

(** A carousel still in its entry animation. *)
Definition entering : carousel :=
  {| items := [Fin 0; Fin 328]; positions := []; styles := [];
     activeIndex := 0; isEntering := true; bgCtx := true;
     TRACK := Fin 656; SCROLL_X := Fin 0; VW_HALF := Fin 600;
     vX := Fin 0; lastTime := Fin 0; dragging := false;
     lastX := Fin 0; lastT := Fin 0; lastDelta := Fin 0 |}.

(** A stage with [n] cards created at the declared card size, 300 by
    400. *)
Definition fresh_stage (n : nat) : stage :=
  createCards n
    {| car := at_rest [] (Fin 0) (Fin 0) (Fin 600);
       CARD_W := Fin 300; CARD_H := Fin 400; STEP := Fin (300 + 28) |}.

End Stage.

(** ** The palette of the cards *)

Module Swatches.

Import Palette.
Local Open Scope Q_scope.

(** [buildPalette] from index [i] on: the image of each card, or [None]
    where [querySelector] finds none, is extracted with the index of the
    card. *)
Fixpoint buildPalette_from (imgs : list (option image)) (i : Z) : list colors :=
  match imgs with
  | [] => []
  | img :: rest => extractColors img i :: buildPalette_from rest (i + 1)
  end.

Definition buildPalette (imgs : list (option image)) : list colors :=
  buildPalette_from imgs 0.

(** A colour channel value. *)
Definition byte (v : Z) : Prop := (0 <= v <= 255)%Z.

Definition valid_rgb (c : rgb) : Prop :=
  let '(r, g, b) := c in byte r /\ byte g /\ byte b.

Definition valid_colors (c : colors) : Prop :=
  valid_rgb (c1 c) /\ valid_rgb (c2 c).

(** Some complete pixel of [data] satisfies [P]. *)
Fixpoint some_pixel (P : Z -> Z -> Z -> Z -> Prop) (data : list Z) : Prop :=
  match data with
  | r :: g :: b :: a8 :: rest => P r g b a8 \/ some_pixel P rest
  | _ => False
  end.

(** The pixel passes the filters of the pixel loop. *)
Definition kept (r g b a8 : Z) : Prop := pixel_bin r g b a8 <> None.

End Swatches.

(** * Properties of the carousel *)

Section NumFacts.

Import JS.
Local Open Scope R_scope.

Lemma lt_Fin_true (x y : R) : x < y -> lt (Fin x) (Fin y) = true.
Proof. intros H; unfold lt; destruct (Rlt_dec x y); [reflexivity | contradiction]. Qed.


Lemma lt_Fin_iff (x y : R) : lt (Fin x) (Fin y) = true <-> x < y.
Proof.
  unfold lt; destruct (Rlt_dec x y); split; intros; try assumption;
    try reflexivity; try discriminate; contradiction.
Qed.

Lemma div_Fin (x y : R) : y <> 0 -> div (Fin x) (Fin y) = Fin (x / y).
Proof. intros H; unfold div; destruct (Req_dec_T y 0); [contradiction | reflexivity]. Qed.

Lemma rem_Fin (x y : R) :
  y <> 0 -> rem (Fin x) (Fin y) = Fin (x - y * trunc (x / y)).
Proof. intros H; unfold rem; destruct (Req_dec_T y 0); [contradiction | reflexivity]. Qed.

Lemma rem_zero (a : num) : rem a (Fin 0) = NaN.
Proof.
  destruct a; simpl; try reflexivity.
  destruct (Req_dec_T 0 0); [reflexivity | exfalso; auto].
Qed.

(** Truncation stays within one unit of its argument, on its side of 0. *)
Lemma trunc_bounds (x : R) :
  (0 <= x -> x - 1 < trunc x <= x) /\ (x < 0 -> x <= trunc x < x + 1).
Proof.
  unfold trunc; destruct (Rle_dec 0 x) as [Hx | Hx]; split; intros H; try lra.
  - destruct (base_Int_part x); lra.
  - destruct (base_Int_part (- x)); lra.
Qed.

Lemma trunc_integer (x : R) : exists k : Z, trunc x = IZR k.
Proof.
  unfold trunc; destruct (Rle_dec 0 x).
  - eexists; reflexivity.
  - exists (- Int_part (- x))%Z; rewrite opp_IZR; reflexivity.
Qed.

(** [x % m] for a positive [m] lies strictly between [-m] and [m], with the
    sign of [x]. *)
Lemma rem_real_bounds (x m : R) :
  0 < m ->
  let r := x - m * trunc (x / m) in
  (0 <= x -> 0 <= r < m) /\ (x < 0 -> - m < r <= 0).
Proof.
  intros Hm r; subst r.
  assert (Hq : x = m * (x / m)) by (field; lra).
  destruct (trunc_bounds (x / m)) as [Hp Hn].
  split; intros Hx.
  - assert (0 <= x / m) by (apply Rmult_le_pos; [lra | left; apply Rinv_0_lt_compat; lra]).
    specialize (Hp H). nra.
  - assert (x / m < 0).
    { unfold Rdiv. assert (0 < / m) by (apply Rinv_0_lt_compat; lra). nra. }
    specialize (Hn H). nra.
Qed.

End NumFacts.

Section Layout.

Import JS Carousel.
Local Open Scope R_scope.

(** [mod_] by a positive modulus lands in [0, m) and differs from its
    argument by a whole number of turns. *)
Lemma mod_range (n m : R) :
  0 < m ->
  exists r (k : Z), mod_ (Fin n) (Fin m) = Fin r /\ 0 <= r < m /\ r = n + IZR k * m.
Proof.
  intros Hm. unfold mod_.
  rewrite rem_Fin by lra. cbn [add].
  rewrite rem_Fin by lra.
  set (r1 := n - m * trunc (n / m)).
  destruct (rem_real_bounds n m Hm) as [Hp Hn]. fold r1 in Hp, Hn.
  assert (Hr1 : 0 <= r1 + m) by (destruct (Rle_dec 0 n); lra).
  destruct (rem_real_bounds (r1 + m) m Hm) as [Hp2 _].
  specialize (Hp2 Hr1).
  destruct (trunc_integer (n / m)) as [k1 Hk1].
  destruct (trunc_integer ((r1 + m) / m)) as [k2 Hk2].
  exists (r1 + m - m * trunc ((r1 + m) / m)), (1 - k1 - k2)%Z.
  split; [reflexivity | split; [exact Hp2 |]].
  rewrite Hk2. unfold r1. rewrite Hk1, !minus_IZR. ring.
Qed.


(** The first loop stores the wrapped position of every item, in order. *)
Lemma wrap_loop_positions half T S xs :
  forall i cI cD,
    fst (wrap_loop half T S xs i cI cD) = map (wrapped half T S) xs.
Proof.
  induction xs as [| x rest IH]; intros i cI cD; [reflexivity |].
  cbn [wrap_loop map].
  destruct (lt (Math_abs (wrapped half T S x)) cD);
    match goal with
    | |- context [wrap_loop half T S rest ?j ?a ?b] =>
        specialize (IH j a b);
        destruct (wrap_loop half T S rest j a b) as [ps r]
    end; cbn [fst] in *; subst ps; reflexivity.
Qed.

Lemma setActiveGradient_layout idx st :
  positions (setActiveGradient idx st) = positions st
  /\ styles (setActiveGradient idx st) = styles st
  /\ SCROLL_X (setActiveGradient idx st) = SCROLL_X st
  /\ vX (setActiveGradient idx st) = vX st.
Proof.
  unfold setActiveGradient.
  destruct (negb (bgCtx st) || (idx <? 0)%Z
            || (idx >=? Z.of_nat (length (items st)))%Z
            || (idx =? activeIndex st)%Z); repeat split; reflexivity.
Qed.

Lemma update_positions st :
  positions (updateCarouselTransforms st)
  = map (wrapped (div (TRACK st) (Fin 2)) (TRACK st) (SCROLL_X st)) (items st).
Proof.
  unfold updateCarouselTransforms.
  pose proof (wrap_loop_positions (div (TRACK st) (Fin 2)) (TRACK st)
                (SCROLL_X st) (items st) 0 (-1) PosInf) as H.
  destruct (wrap_loop _ _ _ _ _ _ _) as [ps [cI cD]]. cbn [fst] in H. subst ps.
  match goal with |- context [if ?c then _ else _] => destruct c end.
  - reflexivity.
  - destruct (setActiveGradient_layout cI
      (set_layout (map (wrapped (div (TRACK st) (Fin 2)) (TRACK st) (SCROLL_X st)) (items st))
        (style_loop (VW_HALF st)
           (map (wrapped (div (TRACK st) (Fin 2)) (TRACK st) (SCROLL_X st)) (items st))
           0 cI (Z.rem (cI - 1 + Z.of_nat (length (items st))) (Z.of_nat (length (items st))))
           (Z.rem (cI + 1) (Z.of_nat (length (items st))))) st)) as [H _].
    exact H.
Qed.

End Layout.

(** Evaluation of the comparisons of a closed numeric term. *)
Ltac num_case :=
  match goal with
  | |- context [Rcase_abs ?a] => destruct (Rcase_abs a); try lra
  | |- context [Rlt_dec ?a ?b] => destruct (Rlt_dec a b); try lra
  | |- context [Rle_dec ?a ?b] => destruct (Rle_dec a b); try lra
  | |- context [Req_dec_T ?a ?b] => destruct (Req_dec_T a b); try lra
  end.

Ltac num_eval :=
  cbv [Carousel.wrapped Carousel.mod_ JS.lt JS.gt JS.sub JS.add JS.neg JS.div
       JS.mul JS.Math_abs JS.Math_min JS.Math_max JS.scaled_inf JS.truthy
       JS.rem Rabs];
  repeat num_case.

Section WrapAround.

Import JS Carousel.
Local Open Scope R_scope.




End WrapAround.

Section Nearest.

Import JS Carousel.
Local Open Scope R_scope.

(** On finite inputs the wrapping step gives a finite position. *)
Lemma wrapped_finite (half track offset x : R) :
  exists p, wrapped (Fin half) (Fin track) (Fin offset) (Fin x) = Fin p.
Proof.
  unfold wrapped, gt, sub. cbn [neg add].
  destruct (lt (Fin (x + - offset)) (Fin (- half))); cbn [add];
    match goal with
    | |- context [if ?c then _ else _] => destruct c
    end; eexists; reflexivity.
Qed.

Lemma wrapped_all_finite (half track offset : R) (xs : list R) :
  exists ps,
    map (wrapped (Fin half) (Fin track) (Fin offset)) (map Fin xs) = map Fin ps
    /\ length ps = length xs.
Proof.
  induction xs as [| x rest (ps & IH & Hlen)].
  - exists []; split; reflexivity.
  - destruct (wrapped_finite half track offset x) as [p Hp].
    exists (p :: ps). cbn [map length]. rewrite Hp, IH, Hlen. split; reflexivity.
Qed.

Lemma nearest_at_first (p : R) : nearest_at [p] 0 p.
Proof.
  repeat split.
  - intros [| j'] q Hq; cbn in Hq.
    + injection Hq as <-. lra.
    + destruct j'; discriminate.
  - intros j' q Hlt; lia.
Qed.

Lemma nearest_at_keep pre j d p :
  nearest_at pre j d -> Rabs d <= Rabs p -> nearest_at (pre ++ [p]) j d.
Proof.
  intros (Hj & Hmin & Hfirst) Hle.
  assert (Hjlt : (j < length pre)%nat) by (apply nth_error_Some; congruence).
  repeat split.
  - rewrite nth_error_app1 by exact Hjlt. exact Hj.
  - intros j' q Hq.
    destruct (Nat.lt_ge_cases j' (length pre)) as [Hlt | Hge].
    + rewrite nth_error_app1 in Hq by exact Hlt. eauto.
    + rewrite nth_error_app2 in Hq by exact Hge.
      destruct (j' - length pre)%nat as [| m]; cbn in Hq.
      * injection Hq as <-. exact Hle.
      * destruct m; discriminate.
  - intros j' q Hlt Hq.
    rewrite nth_error_app1 in Hq by lia. eauto.
Qed.

Lemma nearest_at_replace pre j d p :
  nearest_at pre j d -> Rabs p < Rabs d -> nearest_at (pre ++ [p]) (length pre) p.
Proof.
  intros (Hj & Hmin & Hfirst) Hlt.
  repeat split.
  - rewrite nth_error_app2 by lia. rewrite Nat.sub_diag. reflexivity.
  - intros j' q Hq.
    destruct (Nat.lt_ge_cases j' (length pre)) as [Hl | Hge].
    + rewrite nth_error_app1 in Hq by exact Hl. specialize (Hmin _ _ Hq). lra.
    + rewrite nth_error_app2 in Hq by exact Hge.
      destruct (j' - length pre)%nat as [| m]; cbn in Hq.
      * injection Hq as <-. lra.
      * destruct m; discriminate.
  - intros j' q Hl Hq.
    rewrite nth_error_app1 in Hq by exact Hl. specialize (Hmin _ _ Hq). lra.
Qed.

(** The first loop maintains [scan_inv]. *)
Lemma wrap_loop_scan half T S (xs : list num) (ps : list R) :
  map (wrapped half T S) xs = map Fin ps ->
  forall pre cI cD,
    scan_inv pre cI cD ->
    let r := snd (wrap_loop half T S xs (Z.of_nat (length pre)) cI cD) in
    scan_inv (pre ++ ps) (fst r) (snd r).
Proof.
  revert ps. induction xs as [| x rest IH]; intros ps Hmap pre cI cD Hinv.
  - destruct ps; [| discriminate]. rewrite app_nil_r. exact Hinv.
  - destruct ps as [| p ps']; [discriminate |].
    cbn [map] in Hmap. injection Hmap as Hp Hrest.
    cbn [wrap_loop]. rewrite Hp. cbn [Math_abs].
    assert (Hnext : (Z.of_nat (length pre) + 1)%Z = Z.of_nat (length (pre ++ [p])))
      by (rewrite length_app; cbn [length]; lia).
    assert (Happ : pre ++ p :: ps' = (pre ++ [p]) ++ ps')
      by (rewrite <- app_assoc; reflexivity).
    rewrite Hnext, Happ.
    destruct (lt (Fin (Rabs p)) cD) eqn:Hlt.
    + specialize (IH ps' Hrest (pre ++ [p]) (Z.of_nat (length pre)) (Fin (Rabs p))).
      cbv zeta in IH.
      destruct (wrap_loop half T S rest _ _ _) as [qs r]. cbn [snd] in *.
      apply IH. right. exists (length pre), p.
      split; [reflexivity | split; [reflexivity |]].
      destruct Hinv as [(-> & _ & _) | (j & d & _ & -> & Hn)].
      * apply nearest_at_first.
      * apply lt_Fin_iff in Hlt. eapply nearest_at_replace; eassumption.
    + specialize (IH ps' Hrest (pre ++ [p]) cI cD). cbv zeta in IH.
      destruct (wrap_loop half T S rest _ _ _) as [qs r]. cbn [snd] in *.
      apply IH. right.
      destruct Hinv as [(_ & _ & ->) | (j & d & -> & -> & Hn)].
      * discriminate.
      * exists j, d. split; [reflexivity | split; [reflexivity |]].
        apply nearest_at_keep; [exact Hn |].
        destruct (Rle_dec (Rabs d) (Rabs p)) as [Hle | Hnle]; [exact Hle |].
        rewrite lt_Fin_true in Hlt by lra. discriminate.
Qed.

End Nearest.

Section NearestIndex.

Import JS Carousel.
Local Open Scope R_scope.

(** C2: on a carousel with at least one item (finite track, offset and
    bases) the layout pass reports an index [k] whose position is nearest to
    the centre, and every item at the same absolute distance has an index
    of at least [k]: on a tie the lowest index wins.  With a background
    context the pass also makes [k] the active index. *)
Theorem nearest_index_lowest_on_tie st track offset xs :
  TRACK st = Fin track -> SCROLL_X st = Fin offset ->
  items st = map Fin xs -> xs <> [] ->
  exists (ps : list R) (k : nat) (d : R),
    positions (updateCarouselTransforms st) = map Fin ps
    /\ closestIdx st = Z.of_nat k
    /\ nth_error ps k = Some d
    /\ (forall j p, nth_error ps j = Some p -> Rabs d <= Rabs p)
    /\ (forall j p, nth_error ps j = Some p -> Rabs p = Rabs d -> (k <= j)%nat)
    /\ (bgCtx st = true ->
        activeIndex (updateCarouselTransforms st) = Z.of_nat k).
Proof.
  intros HT HS Hitems Hne.
  assert (Hhalf : div (TRACK st) (Fin 2) = Fin (track / 2))
    by (rewrite HT; apply div_Fin; lra).
  destruct (wrapped_all_finite (track / 2) track offset xs) as (ps & Hps & Hlen).
  pose proof (wrap_loop_scan (Fin (track / 2)) (Fin track) (Fin offset)
                (map Fin xs) ps Hps [] (-1)%Z PosInf
                (or_introl (conj eq_refl (conj eq_refl eq_refl)))) as Hscan.
  cbv zeta in Hscan. cbn [length Z.of_nat app] in Hscan.
  pose proof (update_positions st) as Hpos.
  rewrite Hhalf, HT, HS, Hitems, Hps in Hpos.
  unfold closestIdx, updateCarouselTransforms in *.
  rewrite Hhalf, HT, HS, Hitems in *.
  destruct (wrap_loop (Fin (track / 2)) (Fin track) (Fin offset) (map Fin xs)
              0 (-1) PosInf) as [qs [cI cD]].
  cbn [fst snd] in *.
  destruct Hscan as [(-> & _) | (k & d & -> & _ & Hk & Hmin & Hfirst)].
  { destruct xs; [congruence | discriminate]. }
  exists ps, k, d. split; [exact Hpos |]. split; [reflexivity |].
  split; [exact Hk |]. split; [exact Hmin |]. split.
  - intros j p Hj Heq. destruct (Nat.le_gt_cases k j) as [Hle | Hgt]; [exact Hle |].
    specialize (Hfirst j p Hgt Hj). lra.
  - intros Hbg.
    assert (Hklt : (k < length xs)%nat)
      by (rewrite <- Hlen; apply nth_error_Some; congruence).
    destruct (Z.eqb_spec (Z.of_nat k) (activeIndex (set_layout qs
      (style_loop (VW_HALF st) qs 0 (Z.of_nat k)
         (Z.rem (Z.of_nat k - 1 + Z.of_nat (length (map Fin xs)))
            (Z.of_nat (length (map Fin xs))))
         (Z.rem (Z.of_nat k + 1) (Z.of_nat (length (map Fin xs))))) st)))
      as [Heq | Hneq].
    + cbn [activeIndex set_layout] in *. symmetry; exact Heq.
    + unfold setActiveGradient.
      cbn [bgCtx items activeIndex set_layout] in *.
      rewrite Hbg, Hitems, length_map. cbn [negb orb].
      replace (Z.of_nat k <? 0)%Z with false by (symmetry; apply Z.ltb_ge; lia).
      replace (Z.of_nat k >=? Z.of_nat (length xs))%Z with false
        by (symmetry; rewrite Z.geb_leb; apply Z.leb_gt; lia).
      cbn [orb].
      replace (Z.of_nat k =? activeIndex st)%Z with false
        by (symmetry; apply Z.eqb_neq; exact Hneq).
      reflexivity.
Qed.

(** The end-to-end example of the specification, on three items of pitch
    328: at offset 164 the items 0 and 1 are both 164 away, and the pass
    reports 0. *)
Lemma nearest_index_lowest_on_tie_witness :
  exists (ps : list R) (k : nat) (d : R),
    positions (updateCarouselTransforms
      (at_rest [Fin 0; Fin 328; Fin 656] (Fin 984) (Fin 164) (Fin 600)))
    = map Fin ps
    /\ closestIdx (at_rest [Fin 0; Fin 328; Fin 656] (Fin 984) (Fin 164) (Fin 600))
       = Z.of_nat k
    /\ nth_error ps k = Some d
    /\ (forall j p, nth_error ps j = Some p -> Rabs d <= Rabs p)
    /\ (forall j p, nth_error ps j = Some p -> Rabs p = Rabs d -> (k <= j)%nat)
    /\ (bgCtx (at_rest [Fin 0; Fin 328; Fin 656] (Fin 984) (Fin 164) (Fin 600)) = true ->
        activeIndex (updateCarouselTransforms
          (at_rest [Fin 0; Fin 328; Fin 656] (Fin 984) (Fin 164) (Fin 600)))
        = Z.of_nat k).
Proof.
  apply (nearest_index_lowest_on_tie
           (at_rest [Fin 0; Fin 328; Fin 656] (Fin 984) (Fin 164) (Fin 600))
           984 164 [0; 328; 656]).
  - reflexivity.
  - reflexivity.
  - reflexivity.
  - discriminate.
Defined.

(** At offset 0 the first item is at the centre; at half a pitch the tie
    between items 0 and 1 goes to 0. *)
Example nearest_at_offset_0 :
  closestIdx (at_rest [Fin 0; Fin 328; Fin 656] (Fin 984) (Fin 0) (Fin 600)) = 0%Z.
Proof.
  cbv [closestIdx at_rest TRACK SCROLL_X items wrap_loop]. num_eval. reflexivity.
Qed.

Example nearest_at_half_pitch :
  closestIdx (at_rest [Fin 0; Fin 328; Fin 656] (Fin 984) (Fin 164) (Fin 600)) = 0%Z.
Proof.
  cbv [closestIdx at_rest TRACK SCROLL_X items wrap_loop]. num_eval. reflexivity.
Qed.

End NearestIndex.

Section Transform.

Import JS Carousel.
Local Open Scope R_scope.

(** The clamp of a quotient that is not [NaN] is a real in [-1, 1]. *)
Lemma clamp_unit (q : num) :
  q <> NaN ->
  exists n, Math_max (Fin (-1)) (Math_min (Fin 1) q) = Fin n /\ -1 <= n <= 1.
Proof.
  intros Hq. destruct q as [| | | r]; [congruence | | |].
  - exists (-1). cbn. split; [reflexivity | lra].
  - exists 1. cbn. destruct (Rlt_dec (-1) 1); [| lra]. split; [reflexivity | lra].
  - cbv [Math_min lt]. destruct (Rlt_dec r 1).
    + cbv [Math_max lt]. destruct (Rlt_dec (-1) r);
        eexists; (split; [reflexivity | lra]).
    + cbv [Math_max lt]. destruct (Rlt_dec (-1) 1); [| lra].
      eexists; (split; [reflexivity | lra]).
Qed.

(** C10: whenever [screenX / VW_HALF] is not [NaN], the normalised position
    is in [-1, 1], the rotation in [-28, 28], the depth in [0, 140] and the
    scale in [0.92, 0.92 + 0.1]. *)
Theorem transform_components_bounded (screenX vw_half : num) :
  div screenX vw_half <> NaN ->
  let c := computeTransformComponents vw_half screenX in
  within (-1) 1 (norm c)
  /\ within (-28) 28 (ry c)
  /\ within 0 140 (tz c)
  /\ within 0.92 (0.92 + 0.1) (scale c).
Proof.
  intros Hq c. subst c. unfold computeTransformComponents.
  cbn [norm ry tz scale].
  destruct (clamp_unit _ Hq) as (n & -> & Hn).
  cbv [Math_abs neg sub add mul MAX_ROTATION MAX_DEPTH MIN_SCALE SCALE_RANGE within].
  assert (Habs : 0 <= Rabs n <= 1).
  { split; [apply Rabs_pos |]. apply Rabs_le. lra. }
  repeat split; nra.
Qed.

(** An item half a viewport to the right of the centre, and one on a
    viewport of width 0 (the quotient is then an infinity). *)
Lemma transform_components_bounded_witness :
  (let c := computeTransformComponents (Fin 600) (Fin 300) in
   within (-1) 1 (norm c) /\ within (-28) 28 (ry c)
   /\ within 0 140 (tz c) /\ within 0.92 (0.92 + 0.1) (scale c))
  /\ (let c := computeTransformComponents (Fin 0) (Fin 300) in
      within (-1) 1 (norm c) /\ within (-28) 28 (ry c)
      /\ within 0 140 (tz c) /\ within 0.92 (0.92 + 0.1) (scale c)).
Proof.
  split.
  - apply (transform_components_bounded (Fin 300) (Fin 600)).
    rewrite div_Fin by lra. discriminate.
  - apply (transform_components_bounded (Fin 300) (Fin 0)).
    cbv [div scaled_inf].
    destruct (Req_dec_T 0 0); [| lra].
    destruct (Req_dec_T 300 0); [lra |].
    destruct (Rlt_dec 0 300); [discriminate | lra].
Defined.

End Transform.

Section Drag.

Import JS Carousel.
Local Open Scope R_scope.




End Drag.

Section Unmeasured.

Import JS Carousel.
Local Open Scope R_scope.

(** The layout pass leaves the scroll state alone. *)
Lemma update_scroll_state st :
  SCROLL_X (updateCarouselTransforms st) = SCROLL_X st
  /\ vX (updateCarouselTransforms st) = vX st
  /\ TRACK (updateCarouselTransforms st) = TRACK st
  /\ lastTime (updateCarouselTransforms st) = lastTime st.
Proof.
  unfold updateCarouselTransforms.
  destruct (wrap_loop _ _ _ _ _ _ _) as [ps [cI cD]].
  match goal with |- context [if ?c then _ else _] => destruct c end.
  - repeat split; reflexivity.
  - unfold setActiveGradient.
    match goal with |- context [if ?c then _ else _] => destruct c end;
      repeat split; reflexivity.
Qed.

Lemma update_SCROLL_X st : SCROLL_X (updateCarouselTransforms st) = SCROLL_X st.
Proof. apply update_scroll_state. Qed.

Lemma update_vX st : vX (updateCarouselTransforms st) = vX st.
Proof. apply update_scroll_state. Qed.

Lemma update_TRACK st : TRACK (updateCarouselTransforms st) = TRACK st.
Proof. apply update_scroll_state. Qed.

Lemma update_lastTime st : lastTime (updateCarouselTransforms st) = lastTime st.
Proof. apply update_scroll_state. Qed.

(** What one frame does to the scroll state. *)
Lemma tick_scroll_state t st :
  let dt := frame_dt t (lastTime st) in
  let v := mul (vX st) (Math_pow FRICTION (mul dt (Fin 60))) in
  SCROLL_X (tick t st) = mod_ (add (SCROLL_X st) (mul (vX st) dt)) (TRACK st)
  /\ vX (tick t st) = (if lt (Math_abs v) (Fin 0.02) then Fin 0 else v)
  /\ lastTime (tick t st) = t
  /\ TRACK (tick t st) = TRACK st.
Proof.
  unfold tick. cbv zeta.
  rewrite update_SCROLL_X, update_vX, update_lastTime, update_TRACK.
  cbn [vX set_vX set_SCROLL_X set_lastTime SCROLL_X TRACK lastTime].
  destruct (lt _ _); repeat split; reflexivity.
Qed.

(** On a track of 0 the frame tick takes a remainder by 0. *)
Lemma tick_unmeasured t st :
  TRACK st = Fin 0 -> SCROLL_X (tick t st) = NaN.
Proof.
  intros HT. destruct (tick_scroll_state t st) as [H _]. cbv zeta in H.
  rewrite H, HT. unfold mod_. apply rem_zero.
Qed.

(** C5 (amended): on a track of 0 the layout pass skips nothing and takes
    no quotient or remainder by the track: half the track is 0, both wrap
    adjustments add or subtract 0, and the position stored for every item
    is its base minus the offset, a real number whenever both are. *)
Theorem unmeasured_track_positions st offset xs :
  TRACK st = Fin 0 -> SCROLL_X st = Fin offset -> items st = map Fin xs ->
  Forall2 (fun x pos => exists p, pos = Fin p /\ p = x - offset)
          xs (positions (updateCarouselTransforms st)).
Proof.
  intros HT HS Hitems. rewrite update_positions, HT, HS, Hitems. clear.
  induction xs as [| x rest IH]; cbn [map]; constructor; [| exact IH].
  num_eval; eexists; (split; [reflexivity | lra]).
Qed.

Lemma unmeasured_track_positions_witness :
  Forall2 (fun x pos => exists p, pos = Fin p /\ p = x - 100)
          [0; 328]
          (positions (updateCarouselTransforms
             (at_rest [Fin 0; Fin 328] (Fin 0) (Fin 100) (Fin 600)))).
Proof.
  apply (unmeasured_track_positions
           (at_rest [Fin 0; Fin 328] (Fin 0) (Fin 100) (Fin 600)) 100 [0; 328]).
  - reflexivity.
  - reflexivity.
  - reflexivity.
Defined.

(** C5 as stated fails on the frame tick: with a track of 0 (no item at
    all, so that [measure] never sets it) the first frame turns a
    well-defined offset into [NaN]. *)
Lemma unmeasured_track_tick_nan :
  TRACK (at_rest [] (Fin 0) (Fin 0) (Fin 600)) = Fin 0
  /\ SCROLL_X (at_rest [] (Fin 0) (Fin 0) (Fin 600)) = Fin 0
  /\ SCROLL_X (tick (Fin 16) (at_rest [] (Fin 0) (Fin 0) (Fin 600))) = NaN.
Proof.
  split; [reflexivity |]. split; [reflexivity |].
  apply tick_unmeasured. reflexivity.
Qed.

End Unmeasured.

Section Momentum.

Import JS Carousel.
Local Open Scope R_scope.

(** Powers of the friction: positive, at most 1 on non-negative exponents,
    decreasing, multiplicative. *)
Lemma ln_friction : ln 0.9 < 0.
Proof. rewrite <- ln_1. apply ln_increasing; lra. Qed.

Lemma friction_pow_pos (y : R) : 0 < Rpower 0.9 y.
Proof. unfold Rpower. apply exp_pos. Qed.

Lemma friction_pow_le (x y : R) : x <= y -> Rpower 0.9 y <= Rpower 0.9 x.
Proof.
  intros Hxy. unfold Rpower. pose proof ln_friction as Hln.
  destruct (Req_dec (y * ln 0.9) (x * ln 0.9)) as [-> | Hne]; [lra |].
  left. apply exp_increasing. nra.
Qed.

Lemma friction_pow_0 : Rpower 0.9 0 = 1.
Proof. apply Rpower_O. lra. Qed.


Lemma friction_pow_le_1 (y : R) : 0 <= y -> Rpower 0.9 y <= 1.
Proof. intros Hy. rewrite <- friction_pow_0. apply friction_pow_le. exact Hy. Qed.

Lemma friction_pow_nat (y : R) (n : nat) : Rpower 0.9 (INR n * y) = Rpower 0.9 y ^ n.
Proof.
  rewrite Rmult_comm, <- Rpower_mult. apply Rpower_pow. apply friction_pow_pos.
Qed.











End Momentum.

Section MomentumDecay.

Import JS Carousel.
Local Open Scope R_scope.




End MomentumDecay.

(** * Properties of the colour extraction *)

Section RationalFacts.

Import Palette.
Local Open Scope Q_scope.

Lemma ltb_lt (a b : Q) : ltb a b = true <-> a < b.
Proof.
  unfold ltb. rewrite negb_true_iff. split; intros H.
  - apply Qnot_le_lt. intros Hle. apply Qle_bool_iff in Hle. congruence.
  - destruct (Qle_bool b a) eqn:E; [| reflexivity].
    apply Qle_bool_iff in E. exfalso. exact (Qlt_not_le _ _ H E).
Qed.

Lemma ltb_ge (a b : Q) : ltb a b = false <-> b <= a.
Proof.
  unfold ltb. rewrite negb_false_iff. apply Qle_bool_iff.
Qed.

Lemma gtb_gt (a b : Q) : gtb a b = true <-> b < a.
Proof. apply ltb_lt. Qed.

Lemma gtb_le (a b : Q) : gtb a b = false <-> a <= b.
Proof. apply ltb_ge. Qed.

Lemma geb_ge (a b : Q) : geb a b = true <-> b <= a.
Proof. apply Qle_bool_iff. Qed.

Lemma geb_lt (a b : Q) : geb a b = false <-> a < b.
Proof.
  unfold geb. split; intros H.
  - apply Qnot_le_lt. intros Hle. apply Qle_bool_iff in Hle. congruence.
  - destruct (Qle_bool b a) eqn:E; [| reflexivity].
    apply Qle_bool_iff in E. exfalso. exact (Qlt_not_le _ _ H E).
Qed.

Lemma leb_le (a b : Q) : leb a b = true <-> a <= b.
Proof. apply Qle_bool_iff. Qed.

Lemma leb_gt (a b : Q) : leb a b = false <-> b < a.
Proof. apply geb_lt. Qed.

End RationalFacts.

Section Fallback.

Import Palette.
Local Open Scope Q_scope.

(** The scan for the heaviest cell keeps its start when no cell is
    heavier. *)
Lemma primary_loop_none (ws : list Q) :
  forall i pIdx pW,
    Forall (fun w => w <= pW) ws -> primary_loop ws i pIdx pW = (pIdx, pW).
Proof.
  induction ws as [| w rest IH]; intros i pIdx pW Hall; [reflexivity |].
  inversion Hall as [| ? ? Hw Hrest]; subst. cbn [primary_loop].
  rewrite (proj2 (gtb_le w pW) Hw). apply IH. exact Hrest.
Qed.

Lemma grey_pixel_skipped (v a8 : Z) : pixel_bin v v v a8 = None.
Proof.
  unfold pixel_bin. destruct (ltb (inject_Z a8 / 255) 0.05); [reflexivity |].
  unfold rgbToHsl.
  assert (Hmax : Math_max (Math_max (inject_Z v / 255) (inject_Z v / 255))
                   (inject_Z v / 255) = inject_Z v / 255).
  { unfold Math_max. repeat destruct (ltb _ _); reflexivity. }
  assert (Hmin : Math_min (Math_min (inject_Z v / 255) (inject_Z v / 255))
                   (inject_Z v / 255) = inject_Z v / 255).
  { unfold Math_min. repeat destruct (ltb _ _); reflexivity. }
  rewrite Hmax, Hmin.
  rewrite (proj2 (Qeq_bool_iff _ _) (Qeq_refl _)).
  replace (ltb 0 0.08) with true by reflexivity.
  rewrite !orb_true_r. reflexivity.
Qed.

Lemma faint_pixel_skipped (r g b a8 : Z) :
  (0 <= a8 <= 12)%Z -> pixel_bin r g b a8 = None.
Proof.
  intros Ha. unfold pixel_bin.
  assert (H : ltb (inject_Z a8 / 255) 0.05 = true).
  { apply ltb_lt. apply Qlt_shift_div_r; [reflexivity |].
    unfold Qlt, inject_Z. cbn. lia. }
  rewrite H. reflexivity.
Qed.

(** Induction over a byte buffer, one pixel at a time. *)
Lemma pixel_ind (P : list Z -> Prop) :
  P [] -> (forall r, P [r]) -> (forall r g, P [r; g]) ->
  (forall r g b, P [r; g; b]) ->
  (forall r g b a8 rest, P rest -> P (r :: g :: b :: a8 :: rest)) ->
  forall data, P data.
Proof.
  intros H0 H1 H2 H3 H4 data.
  remember (length data) as n eqn:Hn. revert data Hn.
  induction n as [n IH] using lt_wf_ind. intros data Hn.
  destruct data as [| r [| g [| b [| a8 rest]]]]; auto.
  apply H4. apply (IH (length rest)); [subst n; cbn; lia | reflexivity].
Qed.

Lemma accumulate_skipped (data : list Z) :
  forall hs,
    all_pixels (fun r g b a8 => pixel_bin r g b a8 = None) data ->
    accumulate data hs = hs.
Proof.
  induction data as [| | | | r g b a8 rest IH] using pixel_ind;
    intros hs Hall; try reflexivity.
  cbn [all_pixels] in Hall. destruct Hall as [Hskip Hrest].
  cbn [accumulate]. rewrite Hskip. apply IH. exact Hrest.
Qed.

Lemma all_pixels_impl (P Q : Z -> Z -> Z -> Z -> Prop) (data : list Z) :
  (forall r g b a8, P r g b a8 -> Q r g b a8) ->
  all_pixels P data -> all_pixels Q data.
Proof.
  intros HPQ.
  induction data as [| | | | r g b a8 rest IH] using pixel_ind;
    try (intros; exact I).
  cbn [all_pixels]. intros [Hp Hrest]. split; [apply HPQ; exact Hp |].
  apply IH. exact Hrest.
Qed.

Lemma zeros_nonpositive : Forall (fun w => w <= 0) zeros.
Proof.
  unfold zeros. apply Forall_forall. intros w Hin.
  apply repeat_spec in Hin. subst w. apply Qle_refl.
Qed.

(** With no cell of positive weight the extraction answers with the
    fallback pair. *)
Lemma no_positive_cell_fallback (data : list Z) (idx : Z) :
  Forall (fun w => w <= 0) (wSum (accumulate data empty_hist)) ->
  colorsOfData data idx = fallbackFromIndex idx.
Proof.
  intros Hall. unfold colorsOfData.
  rewrite (primary_loop_none _ 0 (-1) 0 Hall). reflexivity.
Qed.

End Fallback.

Section FallbackPair.

Import Palette.
Local Open Scope Q_scope.

(** C8: the extraction returns a pair for every image and index.  When the
    body of the [try] throws, when no cell of the histogram has a positive
    weight, and in particular when every pixel is all but transparent or
    grey, the pair is the one derived from the index: hue
    [(idx * 37) mod 360], saturation 0.65, lightness 0.52 and 0.72.  The ten
    indices 0..9 have ten different hues. *)
Theorem fallback_pair_from_index (img : option image) (idx : Z) :
  (extractColors_try img idx = Thrown ->
   extractColors img idx = fallbackFromIndex idx)
  /\ (forall im data,
        img = Some im ->
        readBack im (fst (thumb_size im)) (snd (thumb_size im)) = Returned data ->
        (Forall (fun w => w <= 0) (wSum (accumulate data empty_hist))
         \/ all_pixels faint_or_grey data) ->
        extractColors img idx = fallbackFromIndex idx)
  /\ ((0 <= idx)%Z ->
      fallbackFromIndex idx
      = {| c1 := hslToRgb (inject_Z ((idx * 37) mod 360)) 0.65 0.52;
           c2 := hslToRgb (inject_Z ((idx * 37) mod 360)) 0.65 0.72 |})
  /\ (forall i j, (0 <= i < 10)%Z -> (0 <= j < 10)%Z -> i <> j ->
        fallback_hue i <> fallback_hue j).
Proof.
  split; [| split; [| split]].
  - intros Hthrow. unfold extractColors. rewrite Hthrow. reflexivity.
  - intros im data -> Hread Hnone.
    unfold extractColors, extractColors_try.
    destruct (thumb_size im) as [tw th]. cbn [fst snd] in Hread.
    rewrite Hread. destruct Hnone as [Hall | Hfaint].
    + apply no_positive_cell_fallback. exact Hall.
    + apply no_positive_cell_fallback.
      rewrite accumulate_skipped; [apply zeros_nonpositive |].
      revert Hfaint. apply all_pixels_impl.
      intros r g b a8 [Ha | [-> ->]];
        [apply faint_pixel_skipped; exact Ha | apply grey_pixel_skipped].
  - intros Hidx. unfold fallbackFromIndex, fallback_hue.
    rewrite Z.rem_mod_nonneg by lia. reflexivity.
  - intros i j Hi Hj Hneq. unfold fallback_hue.
    assert (Hi' : (i = 0 \/ i = 1 \/ i = 2 \/ i = 3 \/ i = 4 \/ i = 5 \/ i = 6
                   \/ i = 7 \/ i = 8 \/ i = 9)%Z) by lia.
    assert (Hj' : (j = 0 \/ j = 1 \/ j = 2 \/ j = 3 \/ j = 4 \/ j = 5 \/ j = 6
                   \/ j = 7 \/ j = 8 \/ j = 9)%Z) by lia.
    clear Hi Hj.
    repeat (destruct Hi' as [Hi' | Hi']); subst i;
      repeat (destruct Hj' as [Hj' | Hj']); subst j;
      solve [congruence | vm_compute; discriminate].
Qed.

(** A tainted canvas, a fully transparent pixel next to a grey one, and the
    hues of cards 3 and 7. *)
Lemma fallback_pair_from_index_witness :
  extractColors (Some tainted_image) 3 = fallbackFromIndex 3
  /\ extractColors (Some (image_of [10; 200; 30; 0; 128; 128; 128; 255]%Z)) 3
     = fallbackFromIndex 3
  /\ fallbackFromIndex 3
     = {| c1 := hslToRgb (inject_Z ((3 * 37) mod 360)) 0.65 0.52;
          c2 := hslToRgb (inject_Z ((3 * 37) mod 360)) 0.65 0.72 |}
  /\ fallback_hue 3 <> fallback_hue 7.
Proof.
  split; [| split; [| split]].
  - exact (proj1 (fallback_pair_from_index (Some tainted_image) 3) eq_refl).
  - refine (proj1 (proj2 (fallback_pair_from_index
               (Some (image_of [10; 200; 30; 0; 128; 128; 128; 255]%Z)) 3))
               _ _ eq_refl eq_refl _).
    right. cbn [all_pixels]. unfold faint_or_grey.
    split; [left; lia | split; [right; split; reflexivity | exact I]].
  - apply (proj1 (proj2 (proj2 (fallback_pair_from_index None 3)))). lia.
  - apply (proj2 (proj2 (proj2 (fallback_pair_from_index None 3))) 3%Z 7%Z);
      [lia | lia | discriminate].
Defined.



End FallbackPair.

Section Scans.

Import Palette.
Local Open Scope Q_scope.

Lemma nth_error_snoc {A} (pre : list A) (x : A) (j : nat) (y : A) :
  nth_error (pre ++ [x]) j = Some y ->
  ((j < length pre)%nat /\ nth_error pre j = Some y)
  \/ (j = length pre /\ y = x).
Proof.
  intros H. destruct (Nat.lt_ge_cases j (length pre)) as [Hlt | Hge].
  - left. rewrite nth_error_app1 in H by exact Hlt. split; assumption.
  - right. rewrite nth_error_app2 in H by exact Hge.
    destruct (j - length pre)%nat as [| m] eqn:E; cbn in H.
    + injection H as <-. split; [lia | reflexivity].
    + destruct m; discriminate.
Qed.

Lemma nth_error_snoc_last {A} (pre : list A) (x : A) :
  nth_error (pre ++ [x]) (length pre) = Some x.
Proof. rewrite nth_error_app2 by lia. rewrite Nat.sub_diag. reflexivity. Qed.

Lemma nth_error_snoc_old {A} (pre : list A) (x : A) (j : nat) (y : A) :
  nth_error pre j = Some y -> nth_error (pre ++ [x]) j = Some y.
Proof.
  intros H. rewrite nth_error_app1; [exact H |].
  apply nth_error_Some. congruence.
Qed.

(** A cell that is no candidate, or no heavier than the best, changes
    nothing. *)
Lemma best_inv_keep cand pre idx W w :
  best_inv cand pre idx W ->
  (cand (length pre) -> w <= W) ->
  best_inv cand (pre ++ [w]) idx W.
Proof.
  intros [(-> & -> & Hnone) | (k & -> & Hk & Hpos & Hc & Hmax & Hfirst)] Hw.
  - left. split; [reflexivity | split; [reflexivity |]].
    intros j y Hj Hcj. apply nth_error_snoc in Hj.
    destruct Hj as [[_ Hj] | [-> ->]]; [eauto | auto].
  - right. exists k. split; [reflexivity |].
    split; [apply nth_error_snoc_old; exact Hk |].
    split; [exact Hpos |]. split; [exact Hc |]. split.
    + intros j y Hj Hcj. apply nth_error_snoc in Hj.
      destruct Hj as [[_ Hj] | [-> ->]]; [eauto | auto].
    + intros j y Hlt Hj Hcj. apply nth_error_snoc in Hj.
      destruct Hj as [[_ Hj] | [-> ->]]; [eauto |].
      assert (k < length pre)%nat by (apply nth_error_Some; congruence). lia.
Qed.

(** A candidate of positive weight heavier than the best becomes the
    best. *)
Lemma best_inv_replace cand pre idx W w :
  best_inv cand pre idx W ->
  cand (length pre) -> 0 < w -> W < w ->
  best_inv cand (pre ++ [w]) (Z.of_nat (length pre)) w.
Proof.
  intros Hinv Hc Hpos Hlt. right. exists (length pre).
  split; [reflexivity |]. split; [apply nth_error_snoc_last |].
  split; [exact Hpos |]. split; [exact Hc |].
  assert (Hold : forall j y, nth_error pre j = Some y -> cand j -> y < w).
  { intros j y Hj Hcj.
    destruct Hinv as [(_ & _ & Hnone) | (k & _ & _ & _ & _ & Hmax & _)].
    - specialize (Hnone j y Hj Hcj). Lqa.lra.
    - specialize (Hmax j y Hj Hcj). Lqa.lra. }
  split.
  - intros j y Hj Hcj. apply nth_error_snoc in Hj.
    destruct Hj as [[_ Hj] | [-> ->]]; [| apply Qle_refl].
    apply Qlt_le_weak. eauto.
  - intros j y Hj1 Hj Hcj. apply nth_error_snoc in Hj.
    destruct Hj as [[_ Hj] | [-> _]]; [eauto | lia].
Qed.

Lemma best_inv_start cand : best_inv cand [] (-1)%Z 0.
Proof.
  left. split; [reflexivity | split; [reflexivity |]].
  intros [| j] w H; discriminate.
Qed.

Lemma primary_loop_scan (ws : list Q) :
  forall pre pIdx pW,
    best_inv (fun _ => True) pre pIdx pW ->
    let r := primary_loop ws (Z.of_nat (length pre)) pIdx pW in
    best_inv (fun _ => True) (pre ++ ws) (fst r) (snd r).
Proof.
  induction ws as [| w rest IH]; intros pre pIdx pW Hinv.
  - cbn. rewrite app_nil_r. exact Hinv.
  - cbn [primary_loop].
    assert (Hnext : (Z.of_nat (length pre) + 1)%Z = Z.of_nat (length (pre ++ [w])))
      by (rewrite length_app; cbn [length]; lia).
    assert (Happ : pre ++ w :: rest = (pre ++ [w]) ++ rest)
      by (rewrite <- app_assoc; reflexivity).
    rewrite Hnext, Happ.
    assert (HW : 0 <= pW).
    { destruct Hinv as [(_ & -> & _) | (k & _ & _ & Hpos & _)];
        [apply Qle_refl | apply Qlt_le_weak; exact Hpos]. }
    destruct (gtb w pW) eqn:Hgt.
    + apply gtb_gt in Hgt. apply IH.
      apply (best_inv_replace _ pre pIdx pW w Hinv I); Lqa.lra.
    + apply gtb_le in Hgt. apply IH.
      apply best_inv_keep; [exact Hinv | intros _; exact Hgt].
Qed.


End Scans.

Section Histogram.

Import Palette.
Local Open Scope Q_scope.

Lemma length_bump (a : list Q) : forall i d, length (bump a i d) = length a.
Proof.
  induction a as [| x rest IH]; intros [| j] d; cbn; try reflexivity.
  rewrite IH. reflexivity.
Qed.

Lemma nth_bump_same (a : list Q) :
  forall i d, (i < length a)%nat -> nth i (bump a i d) 0 = nth i a 0 + d.
Proof.
  induction a as [| x rest IH]; intros [| j] d Hlt; cbn in *; try lia.
  - reflexivity.
  - apply IH. lia.
Qed.

Lemma nth_bump_other (a : list Q) :
  forall i j d, i <> j -> nth j (bump a i d) 0 = nth j a 0.
Proof.
  induction a as [| x rest IH]; intros [| i] [| j] d Hne; cbn; try reflexivity.
  - congruence.
  - apply IH. congruence.
Qed.

(** A pixel that is kept falls in one of the 180 cells, with a weight the
    loop adds. *)
Lemma pixel_bin_range (r g b a8 bidx : Z) (w : Q) :
  pixel_bin r g b a8 = Some (bidx, w) -> (0 <= bidx < SIZE)%Z.
Proof.
  unfold pixel_bin. destruct (ltb _ _); [discriminate |].
  destruct (rgbToHsl _ _ _) as [[h s] l].
  destruct (_ || _ || _); [discriminate |].
  intros H. injection H as <- _. unfold SIZE, H_BINS, S_BINS. lia.
Qed.

Lemma cell_bump (a : list Q) (bidx k : Z) (d : Q) :
  length a = Z.to_nat SIZE -> (0 <= bidx < SIZE)%Z -> (0 <= k)%Z ->
  cell (bump a (Z.to_nat bidx) d) k
  = if (bidx =? k)%Z then cell a k + d else cell a k.
Proof.
  intros Hlen Hb Hk. unfold cell. destruct (Z.eqb_spec bidx k) as [-> | Hne].
  - apply nth_bump_same. rewrite Hlen. lia.
  - apply nth_bump_other. lia.
Qed.

(** After the pixel loop every cell holds what it held before plus the
    contributions of the pixels that fall in it. *)
Lemma accumulate_cells (data : list Z) :
  forall hs k,
    hist_sized hs -> (0 <= k)%Z ->
    hist_sized (accumulate data hs)
    /\ cell (wSum (accumulate data hs)) k == cell (wSum hs) k + bucket_sum ch_one k data
    /\ cell (rSum (accumulate data hs)) k == cell (rSum hs) k + bucket_sum ch_red k data
    /\ cell (gSum (accumulate data hs)) k == cell (gSum hs) k + bucket_sum ch_green k data
    /\ cell (bSum (accumulate data hs)) k == cell (bSum hs) k + bucket_sum ch_blue k data.
Proof.
  induction data as [| | | | r g b a8 rest IH] using pixel_ind;
    intros hs k Hsz Hk;
    try (cbn [accumulate bucket_sum]; repeat split; try apply Hsz; Lqa.lra).
  cbn [accumulate bucket_sum].
  destruct (pixel_bin r g b a8) as [[bidx w] |] eqn:Hbin; [| apply IH; assumption].
  pose proof (pixel_bin_range _ _ _ _ _ _ Hbin) as Hb.
  destruct Hsz as (Hw & Hr & Hg & Hbl).
  match goal with
  | |- context [accumulate rest ?h] =>
      assert (Hsz' : hist_sized h)
        by (repeat split; cbn [wSum rSum gSum bSum]; rewrite length_bump; assumption);
      destruct (IH h k Hsz' Hk) as (Hs & Ew & Er & Eg & Eb)
  end.
  cbn [wSum rSum gSum bSum] in Ew, Er, Eg, Eb.
  rewrite cell_bump in Ew, Er, Eg, Eb by assumption.
  split; [exact Hs |].
  unfold ch_one, ch_red, ch_green, ch_blue in *.
  destruct (bidx =? k)%Z; repeat split; Lqa.lra.
Qed.

Lemma empty_hist_sized : hist_sized empty_hist.
Proof. repeat split. Qed.

Lemma empty_cell (k : Z) : cell zeros k = 0.
Proof.
  unfold cell, zeros.
  generalize (Z.to_nat k) as n. generalize (Z.to_nat SIZE) as m.
  induction m as [| m IH]; intros [| n]; cbn; try reflexivity. apply IH.
Qed.

(** The cells of the histogram of [data]: the weight, and the weighted
    red, green and blue, of the pixels that fall in each. *)
Lemma histogram_cells (data : list Z) (k : Z) :
  (0 <= k)%Z ->
  let hs := accumulate data empty_hist in
  cell (wSum hs) k == bucket_sum ch_one k data
  /\ cell (rSum hs) k == bucket_sum ch_red k data
  /\ cell (gSum hs) k == bucket_sum ch_green k data
  /\ cell (bSum hs) k == bucket_sum ch_blue k data.
Proof.
  intros Hk hs. subst hs.
  destruct (accumulate_cells data empty_hist k empty_hist_sized Hk)
    as (_ & Ew & Er & Eg & Eb).
  cbn [wSum rSum gSum bSum empty_hist] in *. rewrite empty_cell in *.
  repeat split; Lqa.lra.
Qed.

End Histogram.

Section Primary.

Import Palette.
Local Open Scope Q_scope.

Lemma Math_round_comp (a b : Q) : a == b -> Math_round a = Math_round b.
Proof. intros H. unfold Math_round. rewrite H. reflexivity. Qed.

(** [avgRGB] on a cell of positive weight is the rounded weighted average
    of the pixels of the cell. *)
Lemma avgRGB_weighted (data : list Z) (k : Z) :
  (0 <= k)%Z -> 0 < cell (wSum (accumulate data empty_hist)) k ->
  avgRGB (accumulate data empty_hist) k = weighted_average data k.
Proof.
  intros Hk Hpos.
  destruct (histogram_cells data k Hk) as (Ew & Er & Eg & Eb). cbv zeta in *.
  unfold avgRGB, weighted_average.
  assert (Hnz : Qeq_bool (cell (wSum (accumulate data empty_hist)) k) 0 = false).
  { destruct (Qeq_bool _ _) eqn:E; [| reflexivity].
    apply Qeq_bool_iff in E. rewrite E in Hpos. discriminate. }
  rewrite Hnz.
  f_equal; [f_equal |]; apply Math_round_comp; rewrite Ew;
    [rewrite Er | rewrite Eg | rewrite Eb]; reflexivity.
Qed.

(** What the scan for the heaviest cell returns when some cell has a
    positive weight. *)
Lemma primary_found (ws : list Q) :
  Exists (fun w => 0 < w) ws ->
  exists k pW,
    primary_loop ws 0 (-1) 0 = (Z.of_nat k, pW)
    /\ nth_error ws k = Some pW /\ 0 < pW
    /\ (forall j w, nth_error ws j = Some w -> w <= pW)
    /\ (forall j w, (j < k)%nat -> nth_error ws j = Some w -> w < pW).
Proof.
  intros Hex.
  pose proof (primary_loop_scan ws [] (-1)%Z 0 (best_inv_start _)) as Hscan.
  cbv zeta in Hscan. cbn [length Z.of_nat app] in Hscan.
  destruct (primary_loop ws 0 (-1) 0) as [pIdx pW]. cbn [fst snd] in Hscan.
  destruct Hscan as [(_ & _ & Hnone) | (k & -> & Hk & Hpos & _ & Hmax & Hfirst)].
  - exfalso. apply Exists_exists in Hex. destruct Hex as (w & Hin & Hw).
    apply In_nth_error in Hin. destruct Hin as [j Hj].
    specialize (Hnone j w Hj I). Lqa.lra.
  - exists k, pW. split; [reflexivity |]. split; [exact Hk |].
    split; [exact Hpos |]. split; [intros; eauto | intros; eauto].
Qed.

End Primary.

Section PrimaryColour.

Import Palette.
Local Open Scope Q_scope.

Lemma has_positive_cell_Exists (hs : hist) :
  has_positive_cell hs = true -> Exists (fun w => 0 < w) (wSum hs).
Proof.
  unfold has_positive_cell. intros H. apply existsb_exists in H.
  destruct H as (w & Hin & Hw). apply Exists_exists. exists w.
  split; [exact Hin | apply ltb_lt; exact Hw].
Qed.

Lemma cell_nth_error (ws : list Q) (k : nat) (w : Q) :
  nth_error ws k = Some w -> cell ws (Z.of_nat k) = w.
Proof.
  intros H. unfold cell. rewrite Nat2Z.id. apply nth_error_nth. exact H.
Qed.

(** The first colour of the pair when the primary cell is [k]. *)
Lemma primary_c1 (data : list Z) (idx : Z) (k : nat) (pW : Q) :
  primary_loop (wSum (accumulate data empty_hist)) 0 (-1) 0 = (Z.of_nat k, pW) ->
  0 < pW ->
  c1 (colorsOfData data idx)
  = hslToRgb (fst (hue_sat (avgRGB (accumulate data empty_hist) (Z.of_nat k))))
             (boost 1.15 (snd (hue_sat (avgRGB (accumulate data empty_hist) (Z.of_nat k)))))
             0.5.
Proof.
  intros Hprim Hpos. unfold colorsOfData. rewrite Hprim.
  replace (Z.of_nat k <? 0)%Z with false by (symmetry; apply Z.ltb_ge; lia).
  rewrite (proj2 (leb_gt pW 0) Hpos). cbn [orb].
  destruct (secondary_loop _ _ _ _ _) as [sIdx sW].
  unfold hue_sat.
  destruct (avgRGB (accumulate data empty_hist) (Z.of_nat k)) as [[pr pg] pb].
  destruct (rgbToHsl (inject_Z pr) (inject_Z pg) (inject_Z pb)) as [[h1 s1] l1].
  reflexivity.
Qed.

(** C7 (amended): when some cell has a positive weight, the primary cell
    is the first cell of maximum weight; the weight of the cell is the sum
    of the weights of its pixels; and the primary colour is
    [hslToRgb(h, max(0.45, min(1, s * 1.15)), 0.5)], where [h] and [s] are
    the hue and the saturation of the rounded weighted average of the
    pixels of the cell: the saturation is boosted and the lightness is set
    to 0.5. *)
Theorem primary_colour_of_heaviest_cell (data : list Z) (idx : Z) :
  has_positive_cell (accumulate data empty_hist) = true ->
  exists (k : nat) (pW : Q),
    primary_loop (wSum (accumulate data empty_hist)) 0 (-1) 0 = (Z.of_nat k, pW)
    /\ nth_error (wSum (accumulate data empty_hist)) k = Some pW
    /\ 0 < pW
    /\ (forall j w, nth_error (wSum (accumulate data empty_hist)) j = Some w -> w <= pW)
    /\ (forall j w, (j < k)%nat ->
          nth_error (wSum (accumulate data empty_hist)) j = Some w -> w < pW)
    /\ pW == bucket_sum ch_one (Z.of_nat k) data
    /\ avgRGB (accumulate data empty_hist) (Z.of_nat k)
       = weighted_average data (Z.of_nat k)
    /\ c1 (colorsOfData data idx)
       = hslToRgb (fst (hue_sat (weighted_average data (Z.of_nat k))))
                  (boost 1.15 (snd (hue_sat (weighted_average data (Z.of_nat k)))))
                  0.5.
Proof.
  intros Hsome. apply has_positive_cell_Exists in Hsome.
  destruct (primary_found _ Hsome) as (k & pW & Hprim & Hk & Hpos & Hmax & Hfirst).
  exists k, pW.
  pose proof (cell_nth_error _ _ _ Hk) as Hcell.
  assert (Havg : avgRGB (accumulate data empty_hist) (Z.of_nat k)
                 = weighted_average data (Z.of_nat k))
    by (apply avgRGB_weighted; [lia | rewrite Hcell; exact Hpos]).
  repeat (split; [assumption |]).
  split.
  - rewrite <- Hcell. apply (histogram_cells data (Z.of_nat k)). lia.
  - split; [exact Havg |]. rewrite <- Havg. apply (primary_c1 data idx k pW); assumption.
Qed.

(** One opaque pixel (200, 100, 100). *)
Lemma primary_colour_of_heaviest_cell_witness :
  exists (k : nat) (pW : Q),
    primary_loop (wSum (accumulate [200; 100; 100; 255]%Z empty_hist)) 0 (-1) 0
    = (Z.of_nat k, pW)
    /\ 0 < pW
    /\ c1 (colorsOfData [200; 100; 100; 255]%Z 0)
       = hslToRgb
           (fst (hue_sat (weighted_average [200; 100; 100; 255]%Z (Z.of_nat k))))
           (boost 1.15
              (snd (hue_sat (weighted_average [200; 100; 100; 255]%Z (Z.of_nat k)))))
           0.5.
Proof.
  destruct (primary_colour_of_heaviest_cell [200; 100; 100; 255]%Z 0 eq_refl)
    as (k & pW & Hprim & _ & Hpos & _ & _ & _ & _ & Hc1).
  exists k, pW. split; [exact Hprim |]. split; [exact Hpos | exact Hc1].
Defined.

(** C7 as stated fails: on one opaque pixel (200, 100, 100), of lightness
    10/17, the primary colour is (197, 58, 58), of lightness 1/2; keeping
    the lightness of the average would give (208, 93, 93). *)
Lemma primary_lightness_not_kept :
  has_positive_cell (accumulate [200; 100; 100; 255]%Z empty_hist) = true
  /\ c1 (colorsOfData [200; 100; 100; 255]%Z 0) = (197, 58, 58)%Z
  /\ primary_saturation_only (accumulate [200; 100; 100; 255]%Z empty_hist)
       (fst (primary_loop (wSum (accumulate [200; 100; 100; 255]%Z empty_hist))
               0 (-1) 0))
     = (208, 93, 93)%Z
  /\ c1 (colorsOfData [200; 100; 100; 255]%Z 0)
     <> primary_saturation_only (accumulate [200; 100; 100; 255]%Z empty_hist)
          (fst (primary_loop (wSum (accumulate [200; 100; 100; 255]%Z empty_hist))
                  0 (-1) 0)).
Proof.
  split; [vm_compute; reflexivity |].
  split; [vm_compute; reflexivity |].
  split; [vm_compute; reflexivity |].
  vm_compute. discriminate.
Qed.

End PrimaryColour.

Section SecondaryColour.

Import Palette.
Local Open Scope Q_scope.




(** The threshold on two blocks: a blue block of 70% of the weight of the
    red one gives a light blue secondary colour, one of 50% a light red. *)
Example secondary_at_70_percent :
  colorsOfData (two_tone 10 7) 0
  = {| c1 := hslToRgb 0 1 0.5; c2 := hslToRgb 240 1 0.72 |}.
Proof. vm_compute. reflexivity. Qed.

Example secondary_at_50_percent :
  colorsOfData (two_tone 10 5) 0
  = {| c1 := hslToRgb 0 1 0.5; c2 := hslToRgb 0 1 0.72 |}.
Proof. vm_compute. reflexivity. Qed.

Example secondary_at_60_percent :
  colorsOfData (two_tone 10 6) 0
  = {| c1 := hslToRgb 0 1 0.5; c2 := hslToRgb 240 1 0.72 |}.
Proof. vm_compute. reflexivity. Qed.

End SecondaryColour.

(** * Further properties of the carousel *)

Section Modulo.

Import JS Carousel Stage.
Local Open Scope R_scope.

(** Two points of [0, m) a whole number of turns apart are equal. *)
Lemma canonical_unique (m r1 r2 : R) (k : Z) :
  0 < m -> 0 <= r1 < m -> 0 <= r2 < m -> r1 = r2 + IZR k * m -> r1 = r2.
Proof.
  intros Hm H1 H2 Heq.
  assert (Hk : -1 < IZR k < 1) by (split; nra).
  destruct Hk as [Hlo Hhi].
  apply lt_IZR in Hlo. apply lt_IZR in Hhi.
  assert (k = 0%Z) by lia. subst k. lra.
Qed.

Lemma mod_fixed (n m : R) : 0 <= n < m -> mod_ (Fin n) (Fin m) = Fin n.
Proof.
  intros Hn. assert (Hm : 0 < m) by lra.
  destruct (mod_range n m Hm) as (r & k & -> & Hr & Hk).
  f_equal. exact (canonical_unique m r n k Hm Hr Hn Hk).
Qed.

Lemma mod_turns (n m : R) (k : Z) :
  0 < m -> mod_ (Fin (n + IZR k * m)) (Fin m) = mod_ (Fin n) (Fin m).
Proof.
  intros Hm.
  destruct (mod_range (n + IZR k * m) m Hm) as (r1 & k1 & -> & Hr1 & Hk1).
  destruct (mod_range n m Hm) as (r2 & k2 & -> & Hr2 & Hk2).
  f_equal. apply (canonical_unique m r1 r2 (k1 + k - k2) Hm Hr1 Hr2).
  rewrite minus_IZR, plus_IZR. lra.
Qed.

(** Two arguments a whole number of turns apart have the same [mod_]. *)
Lemma mod_congruent (a b m : R) (k : Z) :
  0 < m -> a = b + IZR k * m -> mod_ (Fin a) (Fin m) = mod_ (Fin b) (Fin m).
Proof. intros Hm ->. apply mod_turns. exact Hm. Qed.

(** X1: for a positive modulus [m], [mod(n, m)] is the point of [0, m)
    that differs from [n] by a whole number of turns: it is unchanged when
    [n] moves by whole turns, it is [n] itself when [n] is already in
    [0, m), and so [mod] applied twice is [mod]. *)
Theorem mod_canonical_representative (n m : R) :
  0 < m ->
  (exists r (k : Z), mod_ (Fin n) (Fin m) = Fin r /\ 0 <= r < m /\ r = n + IZR k * m)
  /\ (forall k : Z, mod_ (Fin (n + IZR k * m)) (Fin m) = mod_ (Fin n) (Fin m))
  /\ (0 <= n < m -> mod_ (Fin n) (Fin m) = Fin n)
  /\ mod_ (mod_ (Fin n) (Fin m)) (Fin m) = mod_ (Fin n) (Fin m).
Proof.
  intros Hm. split; [apply mod_range; exact Hm |].
  split; [intros k; apply mod_turns; exact Hm |].
  split; [apply mod_fixed |].
  destruct (mod_range n m Hm) as (r & k & -> & Hr & _). apply mod_fixed. exact Hr.
Qed.

Lemma mod_canonical_representative_witness :
  mod_ (Fin (-100)) (Fin 3280) = Fin 3180
  /\ mod_ (Fin (3180 + IZR 2 * 3280)) (Fin 3280) = Fin 3180.
Proof.
  destruct (mod_canonical_representative 3180 3280 ltac:(lra))
    as (_ & Hturn & Hfix & _).
  specialize (Hfix ltac:(lra)).
  split.
  - rewrite <- Hfix, <- (Hturn (-1)%Z). f_equal. f_equal. lra.
  - rewrite (Hturn 2%Z). exact Hfix.
Defined.

(** X2: [mod] has no defined value on a modulus of 0, on [NaN] or on an
    infinite argument: the result is [NaN]; on an infinite modulus it is
    [NaN] as well, the inner remainder plus the modulus being infinite. *)
Theorem mod_undefined (n m : num) :
  mod_ n (Fin 0) = NaN
  /\ mod_ NaN m = NaN /\ mod_ n NaN = NaN
  /\ mod_ PosInf m = NaN /\ mod_ NegInf m = NaN
  /\ mod_ n PosInf = NaN /\ mod_ n NegInf = NaN.
Proof.
  unfold mod_.
  split; [apply rem_zero |].
  split; [reflexivity |].
  split; [destruct n; reflexivity |].
  split; [destruct m; reflexivity |].
  split; [destruct m; reflexivity |].
  split; destruct n; reflexivity.
Qed.

End Modulo.

Section LayoutPass.

Import JS Carousel Stage.
Local Open Scope R_scope.




End LayoutPass.

Section LayoutIdempotent.

Import JS Carousel Stage.
Local Open Scope R_scope.

(** The layout pass writes the positions, the styles and the active
    index, and nothing else. *)
Lemma update_frame st :
  let st' := updateCarouselTransforms st in
  items st' = items st /\ isEntering st' = isEntering st
  /\ bgCtx st' = bgCtx st /\ VW_HALF st' = VW_HALF st
  /\ dragging st' = dragging st /\ lastX st' = lastX st
  /\ lastT st' = lastT st /\ lastDelta st' = lastDelta st.
Proof.
  cbv zeta. unfold updateCarouselTransforms.
  destruct (wrap_loop _ _ _ _ _ _ _) as [ps [cI cD]].
  match goal with |- context [if ?c then _ else _] => destruct c end.
  - repeat split; reflexivity.
  - unfold setActiveGradient.
    match goal with |- context [if ?c then _ else _] => destruct c end;
      repeat split; reflexivity.
Qed.


End LayoutIdempotent.

Section CoreCards.

Import JS Carousel Stage.
Local Open Scope R_scope.

Lemma style_loop_length V ps :
  forall i c p n, length (style_loop V ps i c p n) = length ps.
Proof.
  induction ps as [| pos rest IH]; intros i c p n; cbn [style_loop length];
    [reflexivity | rewrite IH; reflexivity].
Qed.

Lemma style_loop_nth V ps :
  forall i c p n j pos,
    nth_error ps j = Some pos ->
    exists s,
      nth_error (style_loop V ps i c p n) j = Some s
      /\ style_x s = pos
      /\ style_core s
         = ((i + Z.of_nat j =? c)%Z || (i + Z.of_nat j =? p)%Z
            || (i + Z.of_nat j =? n)%Z).
Proof.
  induction ps as [| q rest IH]; intros i c p n j pos Hj.
  - destruct j; discriminate.
  - destruct j as [| j]; cbn [nth_error style_loop] in *.
    + injection Hj as ->. eexists. split; [reflexivity |].
      cbn [style_x style_core]. rewrite Z.add_0_r. split; reflexivity.
    + destruct (IH (i + 1)%Z c p n j pos Hj) as (s & Hs & Hx & Hc).
      exists s. split; [exact Hs |]. split; [exact Hx |].
      rewrite Hc. replace (i + 1 + Z.of_nat j)%Z with (i + Z.of_nat (S j))%Z by lia.
      reflexivity.
Qed.

(** From index [i] on, a card is sharp only at one of the three indices
    [c], [p], [n]. *)
Lemma style_loop_core_count V ps :
  forall i c p n,
    (core_count (style_loop V ps i c p n)
     <= (if (i <=? c)%Z then 1 else 0) + (if (i <=? p)%Z then 1 else 0)
        + (if (i <=? n)%Z then 1 else 0))%nat.
Proof.
  unfold core_count.
  induction ps as [| pos rest IH]; intros i c p n; cbn [style_loop filter length];
    [lia |].
  specialize (IH (i + 1)%Z c p n). cbn [style_core].
  destruct (Z.eqb_spec i c), (Z.eqb_spec i p), (Z.eqb_spec i n);
    cbn [orb length];
    destruct (Z.leb_spec i c), (Z.leb_spec i p), (Z.leb_spec i n);
    destruct (Z.leb_spec (i + 1) c), (Z.leb_spec (i + 1) p),
             (Z.leb_spec (i + 1) n); lia.
Qed.

Lemma update_styles st :
  exists ps cI cD,
    wrap_loop (div (TRACK st) (Fin 2)) (TRACK st) (SCROLL_X st) (items st)
      0 (-1) PosInf = (ps, (cI, cD))
    /\ styles (updateCarouselTransforms st)
       = style_loop (VW_HALF st) ps 0 cI
           (Z.rem (cI - 1 + Z.of_nat (length (items st)))
              (Z.of_nat (length (items st))))
           (Z.rem (cI + 1) (Z.of_nat (length (items st)))).
Proof.
  unfold updateCarouselTransforms.
  destruct (wrap_loop _ _ _ _ _ _ _) as [ps [cI cD]].
  exists ps, cI, cD. split; [reflexivity |].
  match goal with |- context [if ?c then _ else _] => destruct c end;
    [reflexivity |].
  rewrite (proj1 (proj2 (setActiveGradient_layout _ _))). reflexivity.
Qed.

(** X5: the layout pass styles every card, leaves at most three cards
    sharp, and on a carousel with at least one card (finite track, offset
    and bases) the nearest card is one of them; the style of a card
    carries the position stored for it. *)
Theorem nearest_card_is_core st :
  let st' := updateCarouselTransforms st in
  length (styles st') = length (items st)
  /\ (core_count (styles st') <= 3)%nat
  /\ (forall track offset xs,
        TRACK st = Fin track -> SCROLL_X st = Fin offset ->
        items st = map Fin xs -> xs <> [] ->
        exists (k : nat) (s : card_style),
          closestIdx st = Z.of_nat k
          /\ nth_error (styles st') k = Some s
          /\ style_core s = true
          /\ nth_error (positions st') k = Some (style_x s)).
Proof.
  cbv zeta.
  destruct (update_styles st) as (ps & cI & cD & Hloop & Hstyles).
  pose proof (wrap_loop_positions (div (TRACK st) (Fin 2)) (TRACK st)
                (SCROLL_X st) (items st) 0 (-1) PosInf) as Hps.
  rewrite Hloop in Hps. cbn [fst] in Hps.
  rewrite Hstyles. split; [| split].
  - rewrite style_loop_length, Hps. apply length_map.
  - pose proof (style_loop_core_count (VW_HALF st) ps 0 cI
        (Z.rem (cI - 1 + Z.of_nat (length (items st))) (Z.of_nat (length (items st))))
        (Z.rem (cI + 1) (Z.of_nat (length (items st))))) as H.
    repeat match type of H with
           | context [if ?c then _ else _] => destruct c
           end; lia.
  - intros track offset xs HT HS Hitems Hne.
    assert (Hhalf : div (TRACK st) (Fin 2) = Fin (track / 2))
      by (rewrite HT; apply div_Fin; lra).
    destruct (wrapped_all_finite (track / 2) track offset xs) as (rs & Hrs & Hlen).
    pose proof (wrap_loop_scan (Fin (track / 2)) (Fin track) (Fin offset)
                  (map Fin xs) rs Hrs [] (-1)%Z PosInf
                  (or_introl (conj eq_refl (conj eq_refl eq_refl)))) as Hscan.
    cbv zeta in Hscan. cbn [length Z.of_nat app] in Hscan.
    rewrite update_positions. unfold closestIdx.
    rewrite Hhalf, HT, HS, Hitems in *. rewrite Hloop in *.
    cbn [fst snd] in *.
    destruct Hscan as [(-> & _) | (k & d & -> & _ & Hk & _)].
    { destruct xs; [congruence | discriminate]. }
    rewrite Hrs in Hps. subst ps.
    assert (Hpos : nth_error (map Fin rs) k = Some (Fin d))
      by (rewrite nth_error_map, Hk; reflexivity).
    destruct (style_loop_nth (VW_HALF st) (map Fin rs) 0 (Z.of_nat k)
                (Z.rem (Z.of_nat k - 1 + Z.of_nat (length (map Fin xs)))
                   (Z.of_nat (length (map Fin xs))))
                (Z.rem (Z.of_nat k + 1) (Z.of_nat (length (map Fin xs))))
                k (Fin d) Hpos) as (s & Hs & Hx & Hc).
    exists k, s. split; [reflexivity |]. split; [exact Hs |].
    split; [rewrite Hc, Z.add_0_l, Z.eqb_refl; reflexivity |].
    rewrite Hx, Hrs. exact Hpos.
Qed.

Lemma nearest_card_is_core_witness :
  exists (k : nat) (s : card_style),
    closestIdx (at_rest [Fin 0; Fin 328; Fin 656] (Fin 984) (Fin 164) (Fin 600))
    = Z.of_nat k
    /\ nth_error (styles (updateCarouselTransforms
         (at_rest [Fin 0; Fin 328; Fin 656] (Fin 984) (Fin 164) (Fin 600)))) k
       = Some s
    /\ style_core s = true.
Proof.
  destruct (proj2 (proj2 (nearest_card_is_core
              (at_rest [Fin 0; Fin 328; Fin 656] (Fin 984) (Fin 164) (Fin 600))))
              984 164 [0; 328; 656] eq_refl eq_refl eq_refl ltac:(discriminate))
    as (k & s & Hk & Hs & Hc & _).
  exists k, s. split; [exact Hk |]. split; [exact Hs | exact Hc].
Defined.

End CoreCards.

Section SoundStates.

Import JS Carousel Stage.
Local Open Scope R_scope.

Lemma finite_Fin (a : num) : finite a -> exists r, a = Fin r.
Proof. destruct a; cbn; intros H; try contradiction. eexists; reflexivity. Qed.

(** The seconds a frame integrates over: 0 on the first frame after a
    start, the time since the last frame otherwise. *)
Lemma frame_dt_real (t l : R) :
  exists dt, frame_dt (Fin t) (Fin l) = Fin dt
             /\ (l = 0 -> dt = 0) /\ (l <> 0 -> dt = (t - l) / 1000).
Proof.
  unfold frame_dt, truthy. destruct (Req_dec_T l 0) as [Hl | Hl].
  - exists 0. split; [reflexivity | split; [reflexivity | contradiction]].
  - exists ((t - l) / 1000). cbn [sub neg add]. rewrite div_Fin by lra.
    split; [f_equal; lra | split; [contradiction | reflexivity]].
Qed.

(** A frame leaves the drag bookkeeping, the cards and the flags alone. *)
Lemma tick_frame t st :
  items (tick t st) = items st /\ isEntering (tick t st) = isEntering st
  /\ dragging (tick t st) = dragging st /\ lastX (tick t st) = lastX st
  /\ lastT (tick t st) = lastT st /\ lastDelta (tick t st) = lastDelta st.
Proof.
  unfold tick. cbv zeta.
  match goal with
  | |- context [updateCarouselTransforms ?s] =>
      destruct (update_frame s) as (Hi & He & _ & _ & Hd & Hx & Ht & Hl)
  end.
  cbv zeta in *. rewrite Hi, He, Hd, Hx, Ht, Hl.
  destruct (lt _ _); repeat split; reflexivity.
Qed.

(** What a frame does to the offset and the velocity on real inputs. *)
Lemma tick_real st t v l offset track :
  vX st = Fin v -> lastTime st = Fin l ->
  SCROLL_X st = Fin offset -> TRACK st = Fin track ->
  exists dt,
    frame_dt (Fin t) (Fin l) = Fin dt
    /\ (l = 0 -> dt = 0) /\ (l <> 0 -> dt = (t - l) / 1000)
    /\ SCROLL_X (tick (Fin t) st) = mod_ (Fin (offset + v * dt)) (Fin track)
    /\ vX (tick (Fin t) st)
       = (if Rlt_dec (Rabs (v * Rpower 0.9 (dt * 60))) 0.02 then Fin 0
          else Fin (v * Rpower 0.9 (dt * 60))).
Proof.
  intros Hv Hl HS HT.
  destruct (frame_dt_real t l) as (dt & Hdt & H0 & H1).
  exists dt. split; [exact Hdt |]. split; [exact H0 |]. split; [exact H1 |].
  destruct (tick_scroll_state (Fin t) st) as (Hs & Hvel & _). cbv zeta in *.
  rewrite Hs, Hvel, Hv, Hl, HS, HT, Hdt. clear Hs Hvel.
  cbn [mul add FRICTION Math_pow].
  destruct (Rlt_dec 0 0.9); [| lra].
  cbn [mul Math_abs lt]. split; [reflexivity |].
  destruct (Rlt_dec _ _); reflexivity.
Qed.

Lemma tick_sound t st : sound st -> sound (tick (Fin t) st).
Proof.
  intros ((track & offset & HT & HS & Ht & Ho) & Hv & Hl & Hx & Hlt & Hd).
  destruct (finite_Fin _ Hv) as [v Ev], (finite_Fin _ Hl) as [l El].
  destruct (tick_real st t v l offset track Ev El HS HT)
    as (dt & _ & _ & _ & Hs' & Hv').
  destruct (tick_frame (Fin t) st) as (_ & _ & _ & Ex & Et & Ed).
  destruct (tick_scroll_state (Fin t) st) as (_ & _ & Elt & ET). cbv zeta in *.
  destruct (mod_range (offset + v * dt) track Ht) as (r & k & Hr & Hrange & _).
  unfold sound. rewrite Ex, Et, Ed, Elt, ET, Hs', Hv', Hr.
  split; [exists track, r; repeat split; try assumption; apply Hrange |].
  repeat split; try assumption; try exact I.
  destruct (Rlt_dec _ _); exact I.
Qed.

Lemma handle_sound e st : finite_event e -> sound st -> sound (handle e st).
Proof.
  intros He ((track & offset & HT & HS & Ht & Ho) & Hv & Hl & Hx & Hlt & Hd).
  destruct (finite_Fin _ Hv) as [v Ev], (finite_Fin _ Hx) as [lx Ex],
           (finite_Fin _ Hlt) as [lt0 Et], (finite_Fin _ Hd) as [ld Ed].
  assert (Hst : sound st).
  { split; [exists track, offset; repeat split; try assumption; apply Ho |].
    repeat split; assumption. }
  destruct e as [dx dy | x now f | x now |]; cbn [handle finite_event] in *.
  - destruct He as [Hdx Hdy].
    destruct (finite_Fin _ Hdx) as [a ->], (finite_Fin _ Hdy) as [b ->].
    unfold on_wheel. destruct (isEntering st); [exact Hst |].
    unfold sound. cbn [TRACK SCROLL_X vX lastTime lastX lastT lastDelta set_vX].
    rewrite Ev. split; [exists track, offset; repeat split; try assumption; apply Ho |].
    repeat split; try assumption.
    destruct (gt (Math_abs (Fin a)) (Math_abs (Fin b))); exact I.
  - destruct He as [Hfx Hnow].
    destruct (finite_Fin _ Hfx) as [a ->], (finite_Fin _ Hnow) as [b ->].
    unfold on_pointerdown. destruct (isEntering st); [exact Hst |].
    destruct f; [exact Hst |].
    unfold sound. cbn [TRACK SCROLL_X vX lastTime lastX lastT lastDelta set_drag].
    split; [exists track, offset; repeat split; try assumption; apply Ho |].
    repeat split; try assumption; exact I.
  - destruct He as [Hfx Hnow].
    destruct (finite_Fin _ Hfx) as [a ->], (finite_Fin _ Hnow) as [b ->].
    unfold on_pointermove. destruct (dragging st); cbn [negb]; [| exact Hst].
    unfold sound.
    cbn [TRACK SCROLL_X vX lastTime lastX lastT lastDelta set_drag set_SCROLL_X].
    rewrite HS, HT, Ex, Et. cbn [sub neg add mul DRAG_SENS].
    destruct (mod_range (offset + - ((a + - lx) * 1.0)) track Ht)
      as (r & k & -> & Hr & _).
    split; [exists track, r; repeat split; try assumption; apply Hr |].
    repeat split; try assumption; try exact I.
    cbv [Math_max lt].
    destruct (Rlt_dec 1 (b + - lt0)); rewrite div_Fin by lra;
      rewrite div_Fin by lra; exact I.
  - unfold on_pointerup. destruct (dragging st); cbn [negb]; [| exact Hst].
    unfold sound.
    cbn [TRACK SCROLL_X vX lastTime lastX lastT lastDelta set_drag set_vX].
    rewrite Ed. split; [exists track, offset; repeat split; try assumption; apply Ho |].
    repeat split; try assumption; exact I.
Qed.

(** X6: on a measured carousel every frame and every input event with
    real coordinates keeps the state sound: the offset stays a real number
    in [0, track), and the velocity and the drag bookkeeping stay real
    numbers, so neither [NaN] nor an infinity ever appears, whatever the
    order of frames and events. *)
Theorem run_keeps_sound (ins : list input) (st : carousel) :
  sound st -> Forall finite_input ins -> sound (run ins st).
Proof.
  intros Hst Hins. revert st Hst.
  induction Hins as [| i rest Hi _ IH]; intros st Hst; [exact Hst |].
  cbn [run]. apply IH. destruct i as [t | e]; cbn [step].
  - apply tick_sound. exact Hst.
  - apply handle_sound; assumption.
Qed.

Lemma mid_drag_sound : sound mid_drag.
Proof.
  split; [exists 3280, 3200; repeat split; try reflexivity; lra |].
  repeat split; exact I.
Qed.

Lemma run_keeps_sound_witness :
  sound (run [Input (PointerMove (Fin 300) (Fin 1016)); Frame 1032;
              Input PointerUp; Input (Wheel (Fin 0) (Fin (-120))); Frame 1048]
           mid_drag).
Proof.
  apply (run_keeps_sound _ mid_drag mid_drag_sound).
  repeat constructor.
Defined.

End SoundStates.

Section Inputs.

Import JS Carousel Stage.
Local Open Scope R_scope.

Lemma handle_entering e st :
  isEntering st = true -> dragging st = false -> handle e st = st.
Proof.
  intros He Hd. destruct e as [dx dy | x now f | x now |]; cbn [handle].
  - unfold on_wheel. rewrite He. reflexivity.
  - unfold on_pointerdown. rewrite He. reflexivity.
  - unfold on_pointermove. rewrite Hd. reflexivity.
  - unfold on_pointerup. rewrite Hd. reflexivity.
Qed.

(** X7: while the entry animation runs (and no drag is under way, as none
    can start) every wheel and pointer event, in any number and order,
    leaves the whole state as it is. *)
Theorem entering_ignores_input (es : list event) (st : carousel) :
  isEntering st = true -> dragging st = false ->
  run (map Input es) st = st.
Proof.
  intros He Hd. induction es as [| e rest IH]; [reflexivity |].
  cbn [map run step]. rewrite handle_entering by assumption. exact IH.
Qed.

Lemma entering_ignores_input_witness :
  run (map Input [Wheel (Fin 0) (Fin 120); PointerDown (Fin 10) (Fin 5) false;
                  PointerMove (Fin 90) (Fin 21); PointerUp])
      entering
  = entering.
Proof.
  apply (entering_ignores_input _ entering); reflexivity.
Defined.



(** X9: during a drag on a measured track the offset depends on where the
    pointer is, not on the path it took: a move to [x1] followed by a move
    to [x2] leaves the offset a single move to [x2] would. *)
Theorem drag_offset_path_independent st track offset x0 x1 x2 now1 now2 now :
  dragging st = true ->
  TRACK st = Fin track -> 0 < track ->
  SCROLL_X st = Fin offset -> lastX st = Fin x0 ->
  SCROLL_X (handle (PointerMove (Fin x2) now2)
              (handle (PointerMove (Fin x1) now1) st))
  = SCROLL_X (handle (PointerMove (Fin x2) now) st).
Proof.
  intros Hdrag HT Ht HS HX. cbn [handle]. unfold on_pointermove.
  rewrite Hdrag.
  cbn [negb dragging set_drag set_SCROLL_X SCROLL_X TRACK lastX].
  rewrite Hdrag. cbn [negb]. rewrite HS, HT, HX.
  cbn [sub neg add mul DRAG_SENS].
  destruct (mod_range (offset + - ((x1 + - x0) * 1.0)) track Ht)
    as (r & k & -> & _ & Hk).
  cbn [add neg mul].
  apply (mod_congruent _ _ track k Ht). lra.
Qed.

Lemma drag_offset_path_independent_witness :
  SCROLL_X (handle (PointerMove (Fin 100) (Fin 1032))
              (handle (PointerMove (Fin 300) (Fin 1016)) mid_drag))
  = SCROLL_X (handle (PointerMove (Fin 100) (Fin 1032)) mid_drag).
Proof.
  apply (drag_offset_path_independent mid_drag 3280 3200 400 300 100);
    try reflexivity; lra.
Defined.

(** X10: the velocity a pointer move records is [dx] over the seconds
    since the last sample, the milliseconds being taken as at least 1: two
    moves at the same timestamp divide by a thousandth of a second, not by
    0, and the estimate never exceeds [1000 * |dx|] in magnitude. *)
Theorem drag_velocity_estimate_bounded st x0 t0 x now :
  dragging st = true -> lastX st = Fin x0 -> lastT st = Fin t0 ->
  exists d,
    lastDelta (handle (PointerMove (Fin x) (Fin now)) st) = Fin d
    /\ Rabs d <= 1000 * Rabs (x - x0)
    /\ (now - t0 <= 1 -> d = (x - x0) * 1000)
    /\ (1 <= now - t0 -> d = (x - x0) * 1000 / (now - t0)).
Proof.
  intros Hdrag HX HT. cbn [handle]. unfold on_pointermove. rewrite Hdrag.
  cbn [negb lastDelta set_drag]. rewrite HX, HT.
  cbn [sub neg add]. cbv [Math_max lt].
  destruct (Rlt_dec 1 (now + - t0)) as [Hbig | Hsmall].
  - rewrite div_Fin by lra. rewrite div_Fin by lra.
    eexists. split; [reflexivity |].
    assert (Hgap : 1 < now - t0) by lra.
    assert (Heq : (x + - x0) / ((now + - t0) / 1000)
                  = (x - x0) * 1000 / (now - t0)) by (field; lra).
    rewrite Heq. split; [| split; [lra | reflexivity]].
    unfold Rdiv. rewrite Rabs_mult, Rabs_mult, (Rabs_pos_eq 1000) by lra.
    rewrite (Rabs_pos_eq (/ (now - t0)))
      by (left; apply Rinv_0_lt_compat; lra).
    assert (Hinv : / (now - t0) <= 1).
    { rewrite <- Rinv_1. apply Rinv_le_contravar; lra. }
    assert (Hinv0 : 0 < / (now - t0)) by (apply Rinv_0_lt_compat; lra).
    pose proof (Rabs_pos (x - x0)). nra.
  - rewrite div_Fin by lra. rewrite div_Fin by lra.
    eexists. split; [reflexivity |].
    assert (Heq : (x + - x0) / (1 / 1000) = (x - x0) * 1000) by (field; lra).
    rewrite Heq. split; [| split; [reflexivity |]].
    + rewrite Rabs_mult, (Rabs_pos_eq 1000) by lra. lra.
    + intros Hone. assert (Hgap : now - t0 = 1) by lra.
      rewrite Hgap. lra.
Qed.

Lemma drag_velocity_estimate_bounded_witness :
  exists d,
    lastDelta (handle (PointerMove (Fin 300) (Fin 1000)) mid_drag) = Fin d
    /\ Rabs d <= 1000 * Rabs (300 - 400).
Proof.
  destruct (drag_velocity_estimate_bounded mid_drag 400 1000 300 1000
              eq_refl eq_refl eq_refl) as (d & Hd & Hb & _).
  exists d. split; assumption.
Defined.

(** X11: a wheel event outside the entry animation adds 12 times the
    delta of the dominant axis (the horizontal one only when strictly
    larger in magnitude) to the velocity, so the velocity moves by
    [12 * max(|deltaX|, |deltaY|)]; the offset and the drag are
    untouched. *)
Theorem wheel_impulse st v dx dy :
  isEntering st = false -> vX st = Fin v ->
  let st' := handle (Wheel (Fin dx) (Fin dy)) st in
  exists v',
    vX st' = Fin v'
    /\ (Rabs dy < Rabs dx -> v' = v + 12 * dx)
    /\ (Rabs dx <= Rabs dy -> v' = v + 12 * dy)
    /\ Rabs (v' - v) = 12 * Rmax (Rabs dx) (Rabs dy)
    /\ SCROLL_X st' = SCROLL_X st /\ dragging st' = dragging st.
Proof.
  intros He Hv st'. subst st'. cbn [handle]. unfold on_wheel. rewrite He.
  cbn [vX set_vX SCROLL_X dragging]. rewrite Hv.
  cbv [gt Math_abs lt].
  destruct (Rlt_dec (Rabs dy) (Rabs dx)) as [Hx | Hy];
    cbn [mul add WHEEL_SENS]; eexists; (split; [reflexivity |]).
  - split; [intros _; lra |]. split; [intros H; lra |].
    split; [| split; reflexivity].
    replace (v + dx * 0.6 * 20 - v) with (12 * dx) by lra.
    rewrite Rabs_mult, (Rabs_pos_eq 12) by lra.
    rewrite Rmax_left by lra. reflexivity.
  - split; [intros H; lra |]. split; [intros _; lra |].
    split; [| split; reflexivity].
    replace (v + dy * 0.6 * 20 - v) with (12 * dy) by lra.
    rewrite Rabs_mult, (Rabs_pos_eq 12) by lra.
    rewrite Rmax_right by lra. reflexivity.
Qed.

Lemma wheel_impulse_witness :
  exists v',
    vX (handle (Wheel (Fin 3) (Fin (-120))) (coasting 500)) = Fin v'
    /\ Rabs (v' - 500) = 12 * Rmax (Rabs 3) (Rabs (-120)).
Proof.
  destruct (wheel_impulse (coasting 500) 500 3 (-120) eq_refl eq_refl)
    as (v' & Hv & _ & _ & Hm & _).
  exists v'. split; assumption.
Defined.

End Inputs.

Section Frames.

Import JS Carousel Stage.
Local Open Scope R_scope.

(** The velocity a frame leaves, first frame or not. *)
Lemma tick_velocity_any st t v l :
  vX st = Fin v -> lastTime st = Fin l ->
  exists dt,
    (l = 0 -> dt = 0) /\ (l <> 0 -> dt = (t - l) / 1000)
    /\ vX (tick (Fin t) st)
       = (if Rlt_dec (Rabs (v * Rpower 0.9 (dt * 60))) 0.02 then Fin 0
          else Fin (v * Rpower 0.9 (dt * 60))).
Proof.
  intros Hv Hl.
  destruct (frame_dt_real t l) as (dt & Hdt & H0 & H1).
  exists dt. split; [exact H0 |]. split; [exact H1 |].
  destruct (tick_scroll_state (Fin t) st) as (_ & Hvel & _). cbv zeta in *.
  rewrite Hvel, Hv, Hl, Hdt.
  cbn [mul FRICTION Math_pow].
  destruct (Rlt_dec 0 0.9); [| lra].
  cbn [mul Math_abs lt]. destruct (Rlt_dec _ _); reflexivity.
Qed.

(** X12: a frame whose timestamp is not before the last one never speeds
    the carousel up and never reverses it: the new velocity is a real
    number of the same sign, no larger in magnitude, and either 0 or at
    least 0.02 in magnitude. *)
Theorem frame_never_accelerates st t v l :
  vX st = Fin v -> lastTime st = Fin l -> l <= t ->
  exists v',
    vX (tick (Fin t) st) = Fin v'
    /\ Rabs v' <= Rabs v /\ 0 <= v * v'
    /\ (v' = 0 \/ 0.02 <= Rabs v').
Proof.
  intros Hv Hl Hle.
  destruct (tick_velocity_any st t v l Hv Hl) as (dt & H0 & H1 & Hvel).
  assert (Hdt : 0 <= dt).
  { destruct (Req_dec l 0) as [E | E]; [rewrite (H0 E) | rewrite (H1 E)]; lra. }
  pose proof (friction_pow_pos (dt * 60)) as Hpos.
  pose proof (friction_pow_le_1 (dt * 60) ltac:(lra)) as Hle1.
  rewrite Hvel. destruct (Rlt_dec _ _) as [Hsmall | Hbig].
  - exists 0. split; [reflexivity |]. rewrite Rabs_R0.
    pose proof (Rabs_pos v).
    split; [lra |]. split; [lra |]. left; reflexivity.
  - exists (v * Rpower 0.9 (dt * 60)). split; [reflexivity |].
    split; [| split; [| right; lra]].
    + rewrite Rabs_mult, (Rabs_pos_eq (Rpower _ _)) by lra.
      pose proof (Rabs_pos v). nra.
    + assert (0 <= v * v) by nra. nra.
Qed.

Lemma frame_never_accelerates_witness :
  exists v',
    vX (tick (Fin 1016) (coasting 500)) = Fin v' /\ Rabs v' <= Rabs 500.
Proof.
  destruct (frame_never_accelerates (coasting 500) 1016 500 1000
              eq_refl eq_refl ltac:(lra)) as (v' & Hv & Hb & _).
  exists v'. split; assumption.
Defined.

(** X13: the first frame after a start ([lastTime] is 0) integrates over
    no time: on a sound carousel it leaves the offset where it is and the
    velocity as it is, unless the velocity is below 0.02 in magnitude and
    is set to 0; it records its timestamp. *)
Theorem first_frame_integrates_nothing st t track offset v :
  lastTime st = Fin 0 ->
  TRACK st = Fin track -> SCROLL_X st = Fin offset -> vX st = Fin v ->
  0 <= offset < track ->
  SCROLL_X (tick (Fin t) st) = Fin offset
  /\ (0.02 <= Rabs v -> vX (tick (Fin t) st) = Fin v)
  /\ (Rabs v < 0.02 -> vX (tick (Fin t) st) = Fin 0)
  /\ lastTime (tick (Fin t) st) = Fin t.
Proof.
  intros Hl HT HS Hv Ho.
  destruct (tick_real st t v 0 offset track Hv Hl HS HT)
    as (dt & _ & H0 & _ & Hs' & Hv').
  specialize (H0 eq_refl). subst dt.
  rewrite Hs', Hv'.
  replace (offset + v * 0) with offset by lra.
  replace (0 * 60) with 0 by lra.
  rewrite friction_pow_0, Rmult_1_r.
  split; [apply mod_fixed; exact Ho |].
  split; [| split].
  - intros Hbig. destruct (Rlt_dec (Rabs v) 0.02); [lra | reflexivity].
  - intros Hsmall. destruct (Rlt_dec (Rabs v) 0.02); [reflexivity | lra].
  - apply tick_scroll_state.
Qed.

Lemma first_frame_integrates_nothing_witness :
  SCROLL_X (tick (Fin 5000) restarted) = Fin 100
  /\ vX (tick (Fin 5000) restarted) = Fin 500.
Proof.
  destruct (first_frame_integrates_nothing restarted 5000 656 100 500
              eq_refl eq_refl eq_refl eq_refl ltac:(lra)) as (Hs & Hv & _).
  split; [exact Hs |]. apply Hv. rewrite Rabs_pos_eq; lra.
Defined.

(** A frame on a sound carousel at rest changes neither the offset nor
    the velocity. *)
Lemma tick_at_rest st t track offset l :
  TRACK st = Fin track -> SCROLL_X st = Fin offset -> 0 <= offset < track ->
  vX st = Fin 0 -> lastTime st = Fin l ->
  SCROLL_X (tick (Fin t) st) = Fin offset /\ vX (tick (Fin t) st) = Fin 0.
Proof.
  intros HT HS Ho Hv Hl.
  destruct (tick_real st t 0 l offset track Hv Hl HS HT)
    as (dt & _ & _ & _ & Hs' & Hv').
  rewrite Hs', Hv'. replace (offset + 0 * dt) with offset by lra.
  split; [apply mod_fixed; exact Ho |].
  destruct (Rlt_dec _ _); [reflexivity | f_equal; lra].
Qed.

(** X14: a sound carousel at rest stays at rest: any number of frames, at
    any timestamps, leaves the offset and the velocity 0 as they are. *)
Theorem rest_is_stable (ts : list R) st track offset l :
  TRACK st = Fin track -> SCROLL_X st = Fin offset -> 0 <= offset < track ->
  vX st = Fin 0 -> lastTime st = Fin l ->
  SCROLL_X (run (map Frame ts) st) = Fin offset
  /\ vX (run (map Frame ts) st) = Fin 0.
Proof.
  intros HT HS Ho. revert st l HT HS.
  induction ts as [| t rest IH]; intros st l HT HS Hv Hl; cbn [map run step].
  - split; assumption.
  - destruct (tick_at_rest st t track offset l HT HS Ho Hv Hl) as [Hs' Hv'].
    destruct (tick_scroll_state (Fin t) st) as (_ & _ & Hl' & HT').
    cbv zeta in *.
    apply (IH (tick (Fin t) st) t); [rewrite HT'; exact HT | | |]; assumption.
Qed.

Lemma rest_is_stable_witness :
  SCROLL_X (run (map Frame [1016; 1032; 900; 5000]) (coasting 0)) = Fin 0
  /\ vX (run (map Frame [1016; 1032; 900; 5000]) (coasting 0)) = Fin 0.
Proof.
  apply (rest_is_stable [1016; 1032; 900; 5000] (coasting 0) 656 0 1000);
    try reflexivity; lra.
Defined.

End Frames.

Section Measuring.

Import JS Carousel Stage.
Local Open Scope R_scope.

Lemma bases_length s : forall n i, length (bases s i n) = n.
Proof.
  induction n as [| n IH]; intros i; cbn [bases length];
    [reflexivity | rewrite IH; reflexivity].
Qed.

Lemma bases_nth (s : R) :
  forall n i j, (j < n)%nat ->
    nth_error (bases (Fin s) i n) j = Some (Fin (INR (i + j) * s)).
Proof.
  induction n as [| n IH]; intros i j Hj; [lia |].
  destruct j as [| j]; cbn [bases nth_error mul].
  - rewrite Nat.add_0_r. reflexivity.
  - rewrite IH by lia. replace (S i + j)%nat with (i + S j)%nat by lia.
    reflexivity.
Qed.

Lemma bases_in_track (s : R) (m : nat) :
  0 < s ->
  forall n i, (i + n <= m)%nat ->
    Forall (fun x => exists b, x = Fin b /\ 0 <= b < INR m * s) (bases (Fin s) i n).
Proof.
  intros Hs. induction n as [| n IH]; intros i Hi; cbn [bases mul]; constructor.
  - exists (INR i * s). split; [reflexivity |].
    assert (0 <= INR i) by apply pos_INR.
    assert (INR i < INR m) by (apply lt_INR; lia).
    split; nra.
  - apply IH. lia.
Qed.

Lemma or_else_width (w cw0 : R) :
  0 <= w -> 0 < cw0 ->
  exists cw, or_else (Fin w) (Fin cw0) = Fin cw /\ 0 < cw
             /\ (w <> 0 -> cw = w) /\ (w = 0 -> cw = cw0).
Proof.
  intros Hw Hc. unfold or_else, truthy. destruct (Req_dec_T w 0) as [E | E].
  - exists cw0. split; [reflexivity |]. split; [exact Hc |].
    split; [intros H; contradiction | intros _; reflexivity].
  - exists w. split; [reflexivity |]. split; [lra |].
    split; [intros _; reflexivity | intros H; contradiction].
Qed.

(** What [measure] does with no card and with [n] cards. *)
Lemma measure_cards sg w h cw0 :
  (items (car sg) = [] -> measure (Fin w) h sg = sg)
  /\ (items (car sg) <> [] -> CARD_W sg = Fin cw0 -> 0 < cw0 -> 0 <= w ->
      let n := length (items (car sg)) in
      let sg' := measure (Fin w) h sg in
      exists cw,
        CARD_W sg' = Fin cw /\ (w <> 0 -> cw = w) /\ (w = 0 -> cw = cw0)
        /\ STEP sg' = Fin (cw + 28)
        /\ TRACK (car sg') = Fin (INR n * (cw + 28))
        /\ 0 < INR n * (cw + 28)
        /\ length (items (car sg')) = n
        /\ (forall j, (j < n)%nat ->
              nth_error (items (car sg')) j = Some (Fin (INR j * (cw + 28))))
        /\ Forall (fun x => exists b, x = Fin b /\ 0 <= b < INR n * (cw + 28))
                  (items (car sg'))
        /\ positions (car sg') = repeat (Fin 0) n
        /\ SCROLL_X (car sg') = SCROLL_X (car sg)).
Proof.
  split.
  - intros Hnil. unfold measure. rewrite Hnil. reflexivity.
  - intros Hne HW Hcw Hw. cbv zeta. unfold measure.
    destruct (items (car sg)) as [| x rest] eqn:Hitems; [congruence |].
    rewrite HW.
    destruct (or_else_width w cw0 Hw Hcw) as (cw & -> & Hpos & H1 & H0).
    cbn [CARD_W STEP car set_measured TRACK items positions SCROLL_X add GAP mul].
    exists cw. split; [reflexivity |]. split; [exact H1 |]. split; [exact H0 |].
    split; [reflexivity |]. split; [reflexivity |].
    assert (Hn : 0 < INR (length (x :: rest))) by (apply lt_0_INR; cbn; lia).
    split; [nra |]. split; [apply bases_length |].
    split; [intros j Hj; rewrite bases_nth by exact Hj; reflexivity |].
    split; [apply bases_in_track; [lra | lia] |].
    split; reflexivity.
Qed.

(** X15: with no card [measure] returns at once and leaves everything,
    the track included, as it was.  With [n] cards, a rectangle of width
    [w >= 0] and a positive stored card width, the card width becomes [w]
    (the stored one is kept when [w] is 0), the step is the card width
    plus the gap of 28, the track is [n] steps and is positive, card [j]
    gets the base [j * step], every base lies in [0, track), the
    positions are reset to [n] zeros, and the offset is not touched. *)
Theorem measure_lays_out_track sg w h cw0 :
  (items (car sg) = [] -> measure (Fin w) h sg = sg)
  /\ (items (car sg) <> [] -> CARD_W sg = Fin cw0 -> 0 < cw0 -> 0 <= w ->
      let n := length (items (car sg)) in
      let sg' := measure (Fin w) h sg in
      exists cw,
        CARD_W sg' = Fin cw /\ (w <> 0 -> cw = w) /\ (w = 0 -> cw = cw0)
        /\ STEP sg' = Fin (cw + 28)
        /\ TRACK (car sg') = Fin (INR n * (cw + 28))
        /\ 0 < INR n * (cw + 28)
        /\ length (items (car sg')) = n
        /\ (forall j, (j < n)%nat ->
              nth_error (items (car sg')) j = Some (Fin (INR j * (cw + 28))))
        /\ Forall (fun x => exists b, x = Fin b /\ 0 <= b < INR n * (cw + 28))
                  (items (car sg'))
        /\ positions (car sg') = repeat (Fin 0) n
        /\ SCROLL_X (car sg') = SCROLL_X (car sg)).
Proof. exact (measure_cards sg w h cw0). Qed.

Lemma measure_lays_out_track_witness :
  exists cw,
    CARD_W (measure (Fin 412) (Fin 550) (fresh_stage 10)) = Fin cw
    /\ STEP (measure (Fin 412) (Fin 550) (fresh_stage 10)) = Fin (cw + 28)
    /\ TRACK (car (measure (Fin 412) (Fin 550) (fresh_stage 10)))
       = Fin (INR 10 * (cw + 28)).
Proof.
  destruct (proj2 (measure_lays_out_track (fresh_stage 10) 412 (Fin 550) 300)
              ltac:(discriminate) eq_refl ltac:(lra) ltac:(lra))
    as (cw & Hcw & _ & _ & Hstep & Htrack & _).
  exists cw. split; [exact Hcw |]. split; [exact Hstep | exact Htrack].
Defined.



End Measuring.

Section StartUp.

Import JS Carousel Stage.
Local Open Scope R_scope.

(** The loop of [init] and the first loop of the layout pass, run from
    the same running distance: either neither ever found a nearer card, or
    they end on the same index. *)
Lemma init_loop_wrap_loop half T S (xs : list num) :
  forall i c1 c2 cD,
    (init_loop half T S xs i c1 cD = c1
     /\ fst (snd (wrap_loop half T S xs i c2 cD)) = c2)
    \/ init_loop half T S xs i c1 cD
       = fst (snd (wrap_loop half T S xs i c2 cD)).
Proof.
  induction xs as [| x rest IH]; intros i c1 c2 cD.
  - left. split; reflexivity.
  - cbn [init_loop wrap_loop].
    destruct (lt (Math_abs (wrapped half T S x)) cD).
    + right. specialize (IH (i + 1)%Z i i (Math_abs (wrapped half T S x))).
      destruct (wrap_loop half T S rest _ _ _) as [ps r]. cbn [fst snd] in *.
      destruct IH as [[H1 H2] | H]; congruence.
    + specialize (IH (i + 1)%Z c1 c2 cD).
      destruct (wrap_loop half T S rest _ _ _) as [ps r]. cbn [fst snd] in *.
      exact IH.
Qed.

(** X17: the card [init] starts on is the one the layout pass reports, on
    any carousel with at least one card (finite track, offset and bases).
    With no card [init] picks index 0 where the layout pass reports -1,
    and activating it changes nothing. *)
Theorem init_starts_on_nearest st :
  (forall track offset xs,
      TRACK st = Fin track -> SCROLL_X st = Fin offset ->
      items st = map Fin xs -> xs <> [] ->
      init_closestIdx st = closestIdx st)
  /\ (items st = [] ->
      init_closestIdx st = 0%Z /\ closestIdx st = (-1)%Z
      /\ setActiveGradient (init_closestIdx st) st = st).
Proof.
  split.
  - intros track offset xs HT HS Hitems Hne.
    unfold init_closestIdx, closestIdx.
    destruct (init_loop_wrap_loop (div (TRACK st) (Fin 2)) (TRACK st)
                (SCROLL_X st) (items st) 0 0 (-1) PosInf) as [[_ H] | H];
      [| exact H].
    exfalso.
    assert (Hhalf : div (TRACK st) (Fin 2) = Fin (track / 2))
      by (rewrite HT; apply div_Fin; lra).
    destruct (wrapped_all_finite (track / 2) track offset xs) as (ps & Hps & _).
    pose proof (wrap_loop_scan (Fin (track / 2)) (Fin track) (Fin offset)
                  (map Fin xs) ps Hps [] (-1)%Z PosInf
                  (or_introl (conj eq_refl (conj eq_refl eq_refl)))) as Hscan.
    cbv zeta in Hscan. cbn [length Z.of_nat app] in Hscan.
    rewrite Hhalf, HT, HS, Hitems in H.
    destruct (wrap_loop _ _ _ _ _ _ _) as [qs [cI cD]]. cbn [fst snd] in *.
    subst cI.
    destruct Hscan as [(-> & _) | (k & d & Hk & _)]; [| lia].
    destruct xs; [congruence | discriminate].
  - intros Hnil. unfold init_closestIdx, closestIdx, setActiveGradient.
    rewrite Hnil. cbn [init_loop wrap_loop fst snd length Z.of_nat].
    split; [reflexivity |]. split; [reflexivity |].
    replace (0 >=? 0)%Z with true by reflexivity.
    rewrite orb_true_r. reflexivity.
Qed.

Lemma init_starts_on_nearest_witness :
  init_closestIdx (at_rest [Fin 0; Fin 328; Fin 656] (Fin 984) (Fin 164) (Fin 600))
  = closestIdx (at_rest [Fin 0; Fin 328; Fin 656] (Fin 984) (Fin 164) (Fin 600)).
Proof.
  apply (proj1 (init_starts_on_nearest
                  (at_rest [Fin 0; Fin 328; Fin 656] (Fin 984) (Fin 164) (Fin 600)))
           984 164 [0; 328; 656]); try reflexivity. discriminate.
Defined.

(** X18: whatever [window.devicePixelRatio] is, a number, 0, an infinity
    or [NaN], the scale of the background canvas is a real number between
    1 and 2. *)
Theorem canvas_dpr_clamped (devicePixelRatio : num) :
  within 1 2 (canvas_dpr devicePixelRatio).
Proof.
  unfold canvas_dpr, or_else, truthy.
  destruct devicePixelRatio as [| | | r].
  - cbv [Math_min Math_max lt within]. repeat num_case; lra.
  - cbv [Math_min Math_max lt within]. repeat num_case; lra.
  - cbv [Math_min Math_max lt within]. repeat num_case; lra.
  - destruct (Req_dec_T r 0); cbv [Math_min Math_max lt within];
      repeat num_case; lra.
Qed.

End StartUp.

(** * Further properties of the colour extraction *)

(** The constant quotients of the script, as fractions. *)
Ltac fractions :=
  change (1 / 6)%Q with (1 # 6)%Q in *;
  change (1 / 2)%Q with (1 # 2)%Q in *;
  change (1 / 3)%Q with (1 # 3)%Q in *;
  change (2 / 3)%Q with (2 # 3)%Q in *;
  change (/ 360)%Q with (1 # 360)%Q in *;
  change (/ 255)%Q with (1 # 255)%Q in *.

Section ColourRanges.

Import Palette Swatches.
Local Open Scope Q_scope.

(** [n % m] for a positive [m]: the sign of [n], less than [m] in
    magnitude. *)
Lemma rem_bounds (n m : Q) :
  0 < m ->
  (0 <= n -> 0 <= rem n m < m) /\ (n < 0 -> - m < rem n m <= 0).
Proof.
  intros Hm. unfold rem.
  assert (Hq : m * (n / m) == n) by (apply Qmult_div_r; Lqa.lra).
  assert (Hinv : 0 < / m) by (apply Qinv_lt_0_compat; exact Hm).
  split; intros Hn.
  - assert (H0 : 0 <= n / m) by (unfold Qdiv; Lqa.nra).
    rewrite (proj2 (Qle_bool_iff 0 (n / m)) H0).
    pose proof (Qfloor_le (n / m)) as Hlo.
    pose proof (Qlt_floor (n / m)) as Hhi.
    rewrite inject_Z_plus in Hhi. change (inject_Z 1) with 1 in Hhi.
    clear H0 Hinv. revert Hq Hlo Hhi.
    generalize (inject_Z (Qfloor (n / m))) as t. generalize (n / m) as q.
    intros q t Hq Hlo Hhi.
    assert (Hd : n - m * t == m * (q - t)) by (rewrite <- Hq; ring).
    assert (H1 : 0 <= m * (q - t)) by (apply Qmult_le_0_compat; Lqa.lra).
    assert (H2 : m * (q - t) < m * 1) by (apply Qmult_lt_l; Lqa.lra).
    split; Lqa.lra.
  - assert (H0 : n / m < 0) by (unfold Qdiv; Lqa.nra).
    assert (Hb : Qle_bool 0 (n / m) = false).
    { destruct (Qle_bool 0 (n / m)) eqn:E; [| reflexivity].
      apply Qle_bool_iff in E. Lqa.lra. }
    rewrite Hb.
    pose proof (Qle_ceiling (n / m)) as Hhi.
    pose proof (Qceiling_lt (n / m)) as Hlo.
    unfold Z.sub in Hlo. rewrite inject_Z_plus in Hlo.
    clear H0 Hb Hinv. revert Hq Hlo Hhi.
    generalize (inject_Z (Qceiling (n / m))) as t. generalize (n / m) as q.
    intros q t Hq Hlo' Hhi.
    assert (Hlo : t - 1 < q) by exact Hlo'.
    assert (Hd : n - m * t == - (m * (t - q))) by (rewrite <- Hq; ring).
    assert (H1 : 0 <= m * (t - q)) by (apply Qmult_le_0_compat; Lqa.lra).
    assert (H2 : m * (t - q) < m * 1) by (apply Qmult_lt_l; Lqa.lra).
    split; Lqa.lra.
Qed.

(** The hue [hslToRgb] works with is in [0, 360). *)
Lemma hue_normalised (h : Q) : 0 <= rem (rem h 360 + 360) 360 < 360.
Proof.
  destruct (rem_bounds h 360 ltac:(reflexivity)) as [Hp Hn].
  assert (H : 0 <= rem h 360 + 360).
  { destruct (Qlt_le_dec h 0) as [Hneg | Hpos];
      [specialize (Hn Hneg) | specialize (Hp Hpos)]; Lqa.lra. }
  exact (proj1 (rem_bounds (rem h 360 + 360) 360 ltac:(reflexivity)) H).
Qed.

Lemma lerp_between (p q u : Q) :
  p <= q -> 0 <= u <= 1 -> p <= p + (q - p) * u <= q.
Proof.
  intros Hpq [H0 H1].
  assert (Ha : 0 <= (q - p) * u) by (apply Qmult_le_0_compat; Lqa.lra).
  assert (Hb : 0 <= (q - p) * (1 - u)) by (apply Qmult_le_0_compat; Lqa.lra).
  split; Lqa.lra.
Qed.

(** One channel of [hslToRgb], after the two adjustments of [t]. *)
Lemma hue2rgb_ramp (p q t : Q) :
  p <= q -> 0 <= t ->
  p <= (if ltb t (1 / 6) then p + (q - p) * 6 * t
        else if ltb t (1 / 2) then q
        else if ltb t (2 / 3) then p + (q - p) * (2 / 3 - t) * 6
        else p) <= q.
Proof.
  intros Hpq Ht. fractions.
  destruct (ltb t (1 # 6)) eqn:E2; [apply ltb_lt in E2 | apply ltb_ge in E2].
  - pose proof (lerp_between p q (6 * t) Hpq ltac:(split; Lqa.lra)). Lqa.lra.
  - destruct (ltb t (1 # 2)) eqn:E3; [split; Lqa.lra | apply ltb_ge in E3].
    destruct (ltb t (2 # 3)) eqn:E4; [apply ltb_lt in E4 | split; Lqa.lra].
    pose proof (lerp_between p q (((2 # 3) - t) * 6) Hpq ltac:(split; Lqa.lra)).
    Lqa.lra.
Qed.

Lemma hue2rgb_between (p q t : Q) :
  p <= q -> -1 < t -> p <= hue2rgb p q t <= q.
Proof.
  intros Hpq Ht. unfold hue2rgb.
  destruct (ltb t 0) eqn:E0; [apply ltb_lt in E0 | apply ltb_ge in E0].
  - destruct (gtb (t + 1) 1) eqn:E1; [apply gtb_gt in E1; Lqa.lra |].
    apply hue2rgb_ramp; [exact Hpq | Lqa.lra].
  - destruct (gtb t 1) eqn:E1; [apply gtb_gt in E1 | apply gtb_le in E1];
      (apply hue2rgb_ramp; [exact Hpq | Lqa.lra]).
Qed.

Lemma round_byte (x : Q) : 0 <= x <= 1 -> byte (Math_round (x * 255)).
Proof.
  intros [H0 H1]. unfold byte, Math_round.
  assert (Hlo : (Qfloor (1 # 2) <= Qfloor (x * 255 + (1 # 2)))%Z)
    by (apply Qfloor_resp_le; Lqa.lra).
  assert (Hhi : (Qfloor (x * 255 + (1 # 2)) <= Qfloor (255 + (1 # 2)))%Z)
    by (apply Qfloor_resp_le; Lqa.lra).
  change (Qfloor (1 # 2)) with 0%Z in Hlo.
  change (Qfloor (255 + (1 # 2))) with 255%Z in Hhi. lia.
Qed.

Lemma hslToRgb_valid (h s l : Q) :
  0 <= s <= 1 -> 0 <= l <= 1 -> valid_rgb (hslToRgb h s l).
Proof.
  intros Hs Hl. unfold hslToRgb.
  pose proof (hue_normalised h) as Hh.
  set (hn := rem (rem h 360 + 360) 360) in *.
  assert (Hh1 : 0 <= hn / 360 < 1) by (unfold Qdiv; fractions; split; Lqa.lra).
  destruct (Qeq_bool s 0).
  - cbn [valid_rgb]. repeat split; apply round_byte; exact Hl.
  - set (q := if ltb l 0.5 then l * (1 + s) else l + s - l * s).
    assert (Hq : 2 * l - q <= q /\ 0 <= 2 * l - q /\ q <= 1).
    { subst q. destruct (ltb l 0.5) eqn:E;
        [apply ltb_lt in E | apply ltb_ge in E]; repeat split; Lqa.nra. }
    destruct Hq as (Hpq & Hp0 & Hq1).
    cbn [valid_rgb].
    pose proof (hue2rgb_between (2 * l - q) q (hn / 360 + 1 / 3) Hpq
                  ltac:(fractions; Lqa.lra)).
    pose proof (hue2rgb_between (2 * l - q) q (hn / 360) Hpq ltac:(Lqa.lra)).
    pose proof (hue2rgb_between (2 * l - q) q (hn / 360 - 1 / 3) Hpq
                  ltac:(fractions; Lqa.lra)).
    repeat split; apply round_byte; Lqa.lra.
Qed.

Lemma boost_unit (f s : Q) : 0 <= boost f s <= 1.
Proof.
  unfold boost, Math_max, Math_min.
  destruct (ltb (s * f) 1) eqn:E1; [apply ltb_lt in E1 | apply ltb_ge in E1].
  - destruct (ltb 0.45 (s * f)) eqn:E2;
      [apply ltb_lt in E2 | apply ltb_ge in E2]; split; Lqa.lra.
  - destruct (ltb 0.45 1) eqn:E2; split; Lqa.lra.
Qed.

End ColourRanges.

Section PairsAreColours.

Import Palette Swatches.
Local Open Scope Q_scope.

Lemma fallback_valid (idx : Z) : valid_colors (fallbackFromIndex idx).
Proof.
  unfold fallbackFromIndex, valid_colors. cbn [c1 c2].
  split; apply hslToRgb_valid; split; Lqa.lra.
Qed.

Lemma colorsOfData_valid (data : list Z) (idx : Z) :
  valid_colors (colorsOfData data idx).
Proof.
  unfold colorsOfData.
  destruct (primary_loop _ _ _ _) as [pIdx pW].
  destruct ((pIdx <? 0)%Z || leb pW 0); [apply fallback_valid |].
  destruct (secondary_loop _ _ _ _ _) as [sIdx sW].
  destruct (avgRGB _ pIdx) as [[pr pg] pb].
  destruct (rgbToHsl (inject_Z pr) (inject_Z pg) (inject_Z pb)) as [[h1 s1] l1].
  unfold valid_colors. cbn [c1 c2]. split.
  - apply hslToRgb_valid; [apply boost_unit | split; Lqa.lra].
  - destruct ((sIdx >=? 0)%Z && geb sW (pW * 0.6)).
    + destruct (avgRGB _ sIdx) as [[sr sg] sb].
      destruct (rgbToHsl (inject_Z sr) (inject_Z sg) (inject_Z sb)) as [[h2 s2] l2].
      apply hslToRgb_valid; [apply boost_unit | split; Lqa.lra].
    + apply hslToRgb_valid; [apply boost_unit | split; Lqa.lra].
Qed.

Lemma extractColors_valid (img : option image) (idx : Z) :
  valid_colors (extractColors img idx).
Proof.
  unfold extractColors, extractColors_try.
  destruct img as [im |]; [| apply fallback_valid].
  destruct (thumb_size im) as [tw th].
  destruct (readBack im tw th); [apply colorsOfData_valid | apply fallback_valid].
Qed.

(** X19: for any hue, and a saturation and a lightness between 0 and 1,
    [hslToRgb] returns three integers between 0 and 255, as its
    documentation says. *)
Theorem hslToRgb_returns_bytes (h s l : Q) :
  0 <= s <= 1 -> 0 <= l <= 1 -> valid_rgb (hslToRgb h s l).
Proof. apply hslToRgb_valid. Qed.

Lemma hslToRgb_returns_bytes_witness :
  valid_rgb (hslToRgb (-725) 0.65 0.72).
Proof.
  apply (hslToRgb_returns_bytes (-725) 0.65 0.72); split; Lqa.lra.
Defined.

Lemma buildPalette_from_spec (imgs : list (option image)) :
  forall i,
    length (buildPalette_from imgs i) = length imgs
    /\ Forall valid_colors (buildPalette_from imgs i)
    /\ forall k img, nth_error imgs k = Some img ->
         nth_error (buildPalette_from imgs i) k
         = Some (extractColors img (i + Z.of_nat k)).
Proof.
  induction imgs as [| img rest IH]; intros i; cbn [buildPalette_from length].
  - split; [reflexivity |]. split; [constructor |].
    intros [| k] img H; discriminate.
  - destruct (IH (i + 1)%Z) as (Hlen & Hall & Hnth).
    split; [rewrite Hlen; reflexivity |].
    split; [constructor; [apply extractColors_valid | exact Hall] |].
    intros [| k] img' H; cbn [nth_error] in *.
    + injection H as <-. rewrite Z.add_0_r. reflexivity.
    + rewrite (Hnth k img' H). do 2 f_equal. lia.
Qed.

(** X20: [buildPalette] gives one pair per card, in order; the pair of
    card [k] is what [extractColors] returns for its image and the index
    [k], the fallback of index [k] for a card with no image or with an
    image that cannot be read back; and every channel of every pair is an
    integer between 0 and 255, whatever the images are. *)
Theorem palette_has_a_colour_pair_per_card (imgs : list (option image)) :
  length (buildPalette imgs) = length imgs
  /\ Forall valid_colors (buildPalette imgs)
  /\ (forall k img, nth_error imgs k = Some img ->
        nth_error (buildPalette imgs) k = Some (extractColors img (Z.of_nat k)))
  /\ (forall k img, nth_error imgs k = Some img ->
        extractColors_try img (Z.of_nat k) = Thrown ->
        nth_error (buildPalette imgs) k = Some (fallbackFromIndex (Z.of_nat k))).
Proof.
  unfold buildPalette.
  destruct (buildPalette_from_spec imgs 0) as (Hlen & Hall & Hnth).
  split; [exact Hlen |]. split; [exact Hall |]. split.
  - intros k img H. rewrite (Hnth k img H). reflexivity.
  - intros k img H Hthrow. rewrite (Hnth k img H). cbn [Z.add].
    unfold extractColors. rewrite Hthrow. reflexivity.
Qed.

Lemma palette_has_a_colour_pair_per_card_witness :
  nth_error (buildPalette [Some (image_of [200; 100; 100; 255]%Z); None;
                           Some tainted_image]) 2
  = Some (fallbackFromIndex 2).
Proof.
  apply (proj2 (proj2 (proj2 (palette_has_a_colour_pair_per_card
           [Some (image_of [200; 100; 100; 255]%Z); None; Some tainted_image])))
           2%nat (Some tainted_image)); reflexivity.
Defined.

End PairsAreColours.

Section KeptPixels.

Import Palette Swatches.
Local Open Scope Q_scope.

(** A pixel the loop keeps has a positive weight. *)
Lemma pixel_bin_weight (r g b a8 bidx : Z) (w : Q) :
  pixel_bin r g b a8 = Some (bidx, w) -> 0 < w /\ (13 <= a8)%Z.
Proof.
  unfold pixel_bin.
  destruct (ltb (inject_Z a8 / 255) 0.05) eqn:Ea; [discriminate |].
  apply ltb_ge in Ea.
  destruct (rgbToHsl _ _ _) as [[h s] l].
  destruct (ltb l 0.1 || gtb l 0.92 || ltb s 0.08) eqn:Ef; [discriminate |].
  apply orb_false_elim in Ef. destruct Ef as [Ef Es].
  apply orb_false_elim in Ef. destruct Ef as [El0 El1].
  apply ltb_ge in El0. apply gtb_le in El1. apply ltb_ge in Es.
  intros H. injection H as _ <-.
  split.
  - assert (Habs : Math_abs (l - 0.5) <= 0.42).
    { unfold Math_abs. apply Qabs_Qle_condition. split; Lqa.lra. }
    assert (Hs2 : 0 < s * s) by (apply Qmult_lt_0_compat; Lqa.lra).
    assert (Ha : 0 < inject_Z a8 / 255) by Lqa.lra.
    assert (Hl : 0 < 1 - Math_abs (l - 0.5) * 0.6) by Lqa.lra.
    apply Qmult_lt_0_compat; [apply Qmult_lt_0_compat |]; assumption.
  - destruct (Z_le_gt_dec 13 a8) as [Hge | Hlt]; [exact Hge | exfalso].
    assert (Hq : inject_Z a8 <= inject_Z 12) by (unfold Qle, inject_Z; cbn; lia).
    change (inject_Z 12) with 12 in Hq.
    unfold Qdiv in Ea. fractions. Lqa.lra.
Qed.

(** X21: a pixel the loop keeps has an alpha byte of at least 13, adds a
    positive weight, and falls in a cell between 0 and 179: the loop never
    writes outside its four arrays. *)
Theorem kept_pixel_lands_in_a_cell (r g b a8 bidx : Z) (w : Q) :
  pixel_bin r g b a8 = Some (bidx, w) ->
  (0 <= bidx < 180)%Z /\ 0 < w /\ (13 <= a8)%Z.
Proof.
  intros H. split; [exact (pixel_bin_range _ _ _ _ _ _ H) |].
  exact (pixel_bin_weight _ _ _ _ _ _ H).
Qed.

Lemma kept_pixel_lands_in_a_cell_witness :
  exists bidx w,
    pixel_bin 200 100 100 255 = Some (bidx, w)
    /\ (0 <= bidx < 180)%Z /\ 0 < w.
Proof.
  destruct (pixel_bin 200 100 100 255) as [[bidx w] |] eqn:E;
    [| vm_compute in E; discriminate].
  exists bidx, w. split; [reflexivity |].
  destruct (kept_pixel_lands_in_a_cell 200 100 100 255 bidx w E) as (Hb & Hw & _).
  split; assumption.
Defined.

Lemma bucket_sum_nonneg (k : Z) (data : list Z) : 0 <= bucket_sum ch_one k data.
Proof.
  induction data as [| | | | r g b a8 rest IH] using pixel_ind;
    try (cbn [bucket_sum]; Lqa.lra).
  cbn [bucket_sum].
  destruct (pixel_bin r g b a8) as [[bidx w] |] eqn:E; [| exact IH].
  destruct (pixel_bin_weight _ _ _ _ _ _ E) as [Hw _].
  destruct (bidx =? k)%Z; [| exact IH]. change (ch_one r g b) with 1. Lqa.lra.
Qed.

(** A kept pixel makes the sum of its cell positive. *)
Lemma some_kept_positive (data : list Z) :
  some_pixel kept data -> exists k, (0 <= k)%Z /\ 0 < bucket_sum ch_one k data.
Proof.
  induction data as [| | | | r g b a8 rest IH] using pixel_ind;
    try (cbn [some_pixel]; contradiction).
  cbn [some_pixel bucket_sum]. intros [Hk | Hrest].
  - unfold kept in Hk.
    destruct (pixel_bin r g b a8) as [[bidx w] |] eqn:E; [| congruence].
    destruct (pixel_bin_weight _ _ _ _ _ _ E) as [Hw _].
    pose proof (pixel_bin_range _ _ _ _ _ _ E) as Hb.
    exists bidx. split; [lia |]. rewrite Z.eqb_refl.
    pose proof (bucket_sum_nonneg bidx rest). change (ch_one r g b) with 1. Lqa.lra.
  - destruct (IH Hrest) as (k & Hk0 & Hk).
    exists k. split; [exact Hk0 |].
    destruct (pixel_bin r g b a8) as [[bidx w] |] eqn:E; [| exact Hk].
    destruct (pixel_bin_weight _ _ _ _ _ _ E) as [Hw _].
    destruct (bidx =? k)%Z; [| exact Hk]. change (ch_one r g b) with 1. Lqa.lra.
Qed.

Lemma kept_or_skipped (data : list Z) :
  some_pixel kept data
  \/ all_pixels (fun r g b a8 => pixel_bin r g b a8 = None) data.
Proof.
  induction data as [| | | | r g b a8 rest IH] using pixel_ind;
    try (right; exact I).
  cbn [some_pixel all_pixels].
  destruct (pixel_bin r g b a8) as [p |] eqn:E.
  - left. left. unfold kept. rewrite E. discriminate.
  - destruct IH as [Hs | Ha]; [left; right; exact Hs | right; split; [reflexivity | exact Ha]].
Qed.

Lemma skipped_not_kept (data : list Z) :
  all_pixels (fun r g b a8 => pixel_bin r g b a8 = None) data ->
  ~ some_pixel kept data.
Proof.
  induction data as [| | | | r g b a8 rest IH] using pixel_ind;
    try (intros _ H; exact H).
  cbn [some_pixel all_pixels]. intros [Hn Hrest] [Hk | Hs].
  - exact (Hk Hn).
  - exact (IH Hrest Hs).
Qed.

Lemma positive_cell_found (ws : list Q) (k : Z) :
  0 < cell ws k -> existsb (ltb 0) ws = true.
Proof.
  intros Hpos. unfold cell in Hpos. apply existsb_exists.
  destruct (nth_in_or_default (Z.to_nat k) ws 0) as [Hin | Hdef].
  - exists (nth (Z.to_nat k) ws 0). split; [exact Hin | apply ltb_lt; exact Hpos].
  - rewrite Hdef in Hpos. discriminate.
Qed.

(** X22: the extraction falls back on the index exactly when the loop
    keeps no pixel: a single kept pixel gives the histogram a cell of
    positive weight, and then the colours come from the image; with no
    kept pixel (an empty buffer, for one) the pair is the fallback pair. *)
Theorem fallback_only_without_kept_pixels (data : list Z) (idx : Z) :
  (has_positive_cell (accumulate data empty_hist) = true
   <-> some_pixel kept data)
  /\ (~ some_pixel kept data -> colorsOfData data idx = fallbackFromIndex idx)
  /\ colorsOfData [] idx = fallbackFromIndex idx.
Proof.
  assert (Hnone : all_pixels (fun r g b a8 => pixel_bin r g b a8 = None) data ->
                  Forall (fun w => w <= 0) (wSum (accumulate data empty_hist)))
    by (intros Ha; rewrite accumulate_skipped by exact Ha; apply zeros_nonpositive).
  split; [split |].
  - intros Hpos. destruct (kept_or_skipped data) as [Hs | Ha]; [exact Hs |].
    exfalso. apply has_positive_cell_Exists in Hpos.
    apply Exists_exists in Hpos. destruct Hpos as (w & Hin & Hw).
    pose proof (proj1 (Forall_forall _ _) (Hnone Ha) w Hin) as Hle.
    cbv beta in Hle. Lqa.lra.
  - intros Hs. destruct (some_kept_positive data Hs) as (k & Hk0 & Hk).
    unfold has_positive_cell. apply (positive_cell_found _ k).
    rewrite (proj1 (histogram_cells data k Hk0)). exact Hk.
  - split.
    + intros Hno. destruct (kept_or_skipped data) as [Hs | Ha]; [contradiction |].
      apply no_positive_cell_fallback. exact (Hnone Ha).
    + reflexivity.
Qed.

Lemma fallback_only_without_kept_pixels_witness :
  colorsOfData [10; 200; 30; 0; 128; 128; 128; 255]%Z 4 = fallbackFromIndex 4.
Proof.
  apply (proj1 (proj2 (fallback_only_without_kept_pixels
                         [10; 200; 30; 0; 128; 128; 128; 255]%Z 4))).
  apply skipped_not_kept. cbn [all_pixels].
  split; [apply faint_pixel_skipped; lia |].
  split; [apply grey_pixel_skipped | exact I].
Defined.

End KeptPixels.

Section HslRanges.

Import Palette Swatches.
Local Open Scope Q_scope.

Lemma quotient_bounds (x d : Q) :
  0 < d -> - d <= x <= d ->
  -1 <= x / d <= 1 /\ (x < 0 -> x / d < 0) /\ (0 <= x -> 0 <= x / d).
Proof.
  intros Hd [Hlo Hhi]. split; [split |]; [| | split].
  - apply Qle_shift_div_l; [exact Hd | Lqa.lra].
  - apply Qle_shift_div_r; [exact Hd | Lqa.lra].
  - intros Hx. apply Qlt_shift_div_r; [exact Hd | Lqa.lra].
  - intros Hx. apply Qle_shift_div_l; [exact Hd | Lqa.lra].
Qed.

Lemma Math_max_spec (a b : Q) :
  a <= Math_max a b /\ b <= Math_max a b
  /\ (Math_max a b = a \/ Math_max a b = b).
Proof.
  unfold Math_max. destruct (ltb a b) eqn:E;
    [apply ltb_lt in E | apply ltb_ge in E];
    (split; [Lqa.lra | split; [Lqa.lra | auto]]).
Qed.

Lemma Math_min_spec (a b : Q) :
  Math_min a b <= a /\ Math_min a b <= b
  /\ (Math_min a b = a \/ Math_min a b = b).
Proof.
  unfold Math_min. destruct (ltb b a) eqn:E;
    [apply ltb_lt in E | apply ltb_ge in E];
    (split; [Lqa.lra | split; [Lqa.lra | auto]]).
Qed.

(** The largest and the smallest of three channels. *)
Lemma extremes (x y z : Q) :
  let M := Math_max (Math_max x y) z in
  let m := Math_min (Math_min x y) z in
  (m <= x <= M /\ m <= y <= M /\ m <= z <= M)
  /\ (M = x \/ M = y \/ M = z) /\ (m = x \/ m = y \/ m = z).
Proof.
  cbv zeta.
  destruct (Math_max_spec x y) as (H1 & H2 & H3).
  destruct (Math_max_spec (Math_max x y) z) as (H4 & H5 & H6).
  destruct (Math_min_spec x y) as (K1 & K2 & K3).
  destruct (Math_min_spec (Math_min x y) z) as (K4 & K5 & K6).
  split; [repeat split; Lqa.lra |]. split.
  - destruct H6 as [-> | ->]; [destruct H3 as [-> | ->] |]; auto.
  - destruct K6 as [-> | ->]; [destruct K3 as [-> | ->] |]; auto.
Qed.

Lemma unit_quotient (a c : Q) : 0 < c -> 0 <= a <= c -> 0 <= a / c <= 1.
Proof.
  intros Hc [H0 H1]. split.
  - apply Qle_shift_div_l; [exact Hc | Lqa.lra].
  - apply Qle_shift_div_r; [exact Hc | Lqa.lra].
Qed.

Lemma rgbToHsl_ranges (r g b : Q) :
  0 <= r <= 255 -> 0 <= g <= 255 -> 0 <= b <= 255 ->
  exists h s l,
    rgbToHsl r g b = (h, s, l)
    /\ 0 <= h < 360 /\ 0 <= s <= 1 /\ 0 <= l <= 1.
Proof.
  intros Hr Hg Hb. unfold rgbToHsl.
  assert (HR : 0 <= r / 255 <= 1) by (unfold Qdiv; fractions; split; Lqa.lra).
  assert (HG : 0 <= g / 255 <= 1) by (unfold Qdiv; fractions; split; Lqa.lra).
  assert (HB : 0 <= b / 255 <= 1) by (unfold Qdiv; fractions; split; Lqa.lra).
  revert HR HG HB.
  generalize (r / 255) as x, (g / 255) as y, (b / 255) as z.
  intros x y z Hx Hy Hz.
  destruct (extremes x y z) as ((Ex & Ey & Ez) & HM & Hm). cbv zeta in *.
  revert Ex Ey Ez HM Hm.
  generalize (Math_max (Math_max x y) z) as M,
             (Math_min (Math_min x y) z) as m.
  intros M m Ex Ey Ez HM Hm.
  assert (HM1 : 0 <= M <= 1)
    by (destruct HM as [-> | [-> | ->]]; assumption).
  assert (Hm1 : 0 <= m <= 1)
    by (destruct Hm as [-> | [-> | ->]]; assumption).
  assert (Hl : 0 <= (M + m) / 2 <= 1).
  { unfold Qdiv. change (/ 2) with (1 # 2). split; Lqa.lra. }
  destruct (Qeq_bool M m) eqn:Eq.
  - do 3 eexists. split; [reflexivity |].
    split; [split; Lqa.lra |]. split; [split; Lqa.lra | exact Hl].
  - assert (Hne : ~ M == m).
    { intros H. apply Qeq_bool_iff in H. congruence. }
    assert (Hd : 0 < M - m).
    { destruct (Qlt_le_dec m M) as [H | H]; [Lqa.lra |].
      exfalso. apply Hne. Lqa.lra. }
    do 3 eexists. split; [reflexivity |]. split; [| split; [| exact Hl]].
    + assert (Hh6 : forall q, 0 <= q < 6 -> 0 <= q / 6 * 360 < 360).
      { intros q Hq. unfold Qdiv. change (/ 6) with (1 # 6). split; Lqa.lra. }
      apply Hh6.
      destruct (Qeq_bool M x) eqn:Emx.
      * destruct (quotient_bounds (y - z) (M - m) Hd ltac:(split; Lqa.lra))
          as (Hq & Hneg & Hpos).
        destruct (ltb y z) eqn:Eyz; [apply ltb_lt in Eyz | apply ltb_ge in Eyz].
        -- specialize (Hneg ltac:(Lqa.lra)). split; Lqa.lra.
        -- specialize (Hpos ltac:(Lqa.lra)). split; Lqa.lra.
      * destruct (Qeq_bool M y).
        -- destruct (quotient_bounds (z - x) (M - m) Hd ltac:(split; Lqa.lra))
             as (Hq & _). split; Lqa.lra.
        -- destruct (quotient_bounds (x - y) (M - m) Hd ltac:(split; Lqa.lra))
             as (Hq & _). split; Lqa.lra.
    + assert (Hl2 : (M + m) / 2 == (M + m) * (1 # 2)) by reflexivity.
      destruct (gtb ((M + m) / 2) 0.5) eqn:El;
        [apply gtb_gt in El | apply gtb_le in El]; rewrite Hl2 in El.
      * apply unit_quotient; [Lqa.lra | split; Lqa.lra].
      * apply unit_quotient; [Lqa.lra | split; Lqa.lra].
Qed.

(** X23: on three channel values between 0 and 255 [rgbToHsl] returns a
    hue in [0, 360), a saturation in [0, 1] and a lightness in [0, 1], as
    its documentation says. *)
Theorem rgbToHsl_returns_hsl (r g b : Q) :
  0 <= r <= 255 -> 0 <= g <= 255 -> 0 <= b <= 255 ->
  exists h s l,
    rgbToHsl r g b = (h, s, l)
    /\ 0 <= h < 360 /\ 0 <= s <= 1 /\ 0 <= l <= 1.
Proof. apply rgbToHsl_ranges. Qed.

Lemma rgbToHsl_returns_hsl_witness :
  exists h s l,
    rgbToHsl 100 100 200 = (h, s, l)
    /\ 0 <= h < 360 /\ 0 <= s <= 1 /\ 0 <= l <= 1.
Proof.
  apply (rgbToHsl_returns_hsl 100 100 200); split; Lqa.lra.
Defined.

End HslRanges.

Section Thumbnail.

Import Palette Swatches.
Local Open Scope Q_scope.

Lemma Math_round_le (x y : Q) : x <= y -> (Math_round x <= Math_round y)%Z.
Proof. intros H. unfold Math_round. apply Qfloor_resp_le. Lqa.lra. Qed.

Lemma Math_round_int (n : Z) : Math_round (inject_Z n) = n.
Proof.
  unfold Math_round.
  assert (Hlo : (Qfloor (inject_Z n) <= Qfloor (inject_Z n + (1 # 2)))%Z)
    by (apply Qfloor_resp_le; Lqa.lra).
  rewrite Qfloor_Z in Hlo.
  pose proof (Qfloor_le (inject_Z n + (1 # 2))) as Hle.
  assert (Hlt : inject_Z (Qfloor (inject_Z n + (1 # 2))) < inject_Z (n + 1)).
  { rewrite inject_Z_plus. change (inject_Z 1) with 1. Lqa.lra. }
  rewrite <- Zlt_Qlt in Hlt. lia.
Qed.

(** X24: whatever the natural size of the image, the canvas it is drawn
    on is between 16 and 48 pixels wide and high, and one of its sides is
    48: the cost of the pixel loop does not depend on the image.  An image
    with no natural size is drawn on 48 by 48, a landscape image keeps a
    width of 48 and a portrait image a height of 48. *)
Theorem thumbnail_is_bounded (im : image) :
  let tw := fst (thumb_size im) in
  let th := snd (thumb_size im) in
  (16 <= tw <= 48)%Z /\ (16 <= th <= 48)%Z /\ (tw = 48 \/ th = 48)%Z
  /\ ((naturalWidth im = 0 \/ naturalHeight im = 0)%Z -> tw = 48%Z /\ th = 48%Z)
  /\ ((0 < naturalHeight im <= naturalWidth im)%Z -> tw = 48%Z)
  /\ ((0 < naturalWidth im < naturalHeight im)%Z -> th = 48%Z).
Proof.
  cbv zeta. unfold thumb_size.
  set (ratio := if negb (naturalWidth im =? 0)%Z && negb (naturalHeight im =? 0)%Z
                then inject_Z (naturalWidth im) / inject_Z (naturalHeight im)
                else 1).
  assert (H48 : Math_round 48 = 48%Z) by reflexivity.
  assert (Hbounds :
    (16 <= (if geb ratio 1 then MAX
            else Z.max 16 (Math_round (inject_Z MAX * ratio))) <= 48)%Z
    /\ (16 <= (if geb ratio 1 then Z.max 16 (Math_round (inject_Z MAX / ratio))
               else MAX) <= 48)%Z).
  { change (inject_Z MAX) with 48. unfold MAX.
    destruct (geb ratio 1) eqn:E; [apply geb_ge in E | apply geb_lt in E].
    - split; [lia |].
      assert (Hq : 48 / ratio <= 48)
        by (apply Qle_shift_div_r; Lqa.lra).
      apply Math_round_le in Hq. rewrite H48 in Hq. lia.
    - split; [| lia].
      assert (Hq : 48 * ratio <= 48) by Lqa.lra.
      apply Math_round_le in Hq. rewrite H48 in Hq. lia. }
  cbn [fst snd]. destruct Hbounds as [Hw Hh].
  split; [exact Hw |]. split; [exact Hh |]. split; [| split; [| split]].
  - destruct (geb ratio 1); [left | right]; reflexivity.
  - intros Hzero.
    assert (Hr : ratio = 1).
    { subst ratio. destruct Hzero as [-> | ->]; cbn [Z.eqb negb andb];
        [reflexivity | rewrite andb_false_r; reflexivity]. }
    rewrite Hr. split; reflexivity.
  - intros [Hh0 Hwh].
    assert (Hr : 1 <= ratio).
    { subst ratio.
      replace (naturalWidth im =? 0)%Z with false by (symmetry; apply Z.eqb_neq; lia).
      replace (naturalHeight im =? 0)%Z with false by (symmetry; apply Z.eqb_neq; lia).
      cbn [negb andb]. apply Qle_shift_div_l.
      - change 0 with (inject_Z 0). rewrite <- Zlt_Qlt. lia.
      - rewrite Qmult_1_l, <- Zle_Qle. lia. }
    rewrite (proj2 (geb_ge ratio 1) Hr). reflexivity.
  - intros [Hw0 Hwh].
    assert (Hr : ratio < 1).
    { subst ratio.
      replace (naturalWidth im =? 0)%Z with false by (symmetry; apply Z.eqb_neq; lia).
      replace (naturalHeight im =? 0)%Z with false by (symmetry; apply Z.eqb_neq; lia).
      cbn [negb andb]. apply Qlt_shift_div_r.
      - change 0 with (inject_Z 0). rewrite <- Zlt_Qlt. lia.
      - rewrite Qmult_1_l, <- Zlt_Qlt. lia. }
    rewrite (proj2 (geb_lt ratio 1) Hr). reflexivity.
Qed.

Lemma thumbnail_is_bounded_witness :
  fst (thumb_size {| naturalWidth := 1920; naturalHeight := 1080;
                     readBack := fun _ _ => Thrown |}) = 48%Z.
Proof.
  apply (proj1 (proj2 (proj2 (proj2 (proj2 (thumbnail_is_bounded
           {| naturalWidth := 1920; naturalHeight := 1080;
              readBack := fun _ _ => Thrown |})))))).
  cbn [naturalWidth naturalHeight]. lia.
Defined.

End Thumbnail.

Section RoundTrip.

Import Palette Swatches.
Local Open Scope Q_scope.

Lemma Qfloor_unique (x : Q) (k : Z) :
  inject_Z k <= x -> x < inject_Z k + 1 -> Qfloor x = k.
Proof.
  intros Hlo Hhi.
  assert (H1 : (k <= Qfloor x)%Z).
  { rewrite <- (Qfloor_Z k). apply Qfloor_resp_le. exact Hlo. }
  assert (H2 : inject_Z (Qfloor x) < inject_Z (k + 1)).
  { rewrite inject_Z_plus. change (inject_Z 1) with 1.
    pose proof (Qfloor_le x). Lqa.lra. }
  rewrite <- Zlt_Qlt in H2. lia.
Qed.

(** A hue already in [0, 360) is the hue [hslToRgb] works with. *)
Lemma hue_already_normalised (h : Q) :
  0 <= h < 360 -> rem (rem h 360 + 360) 360 == h.
Proof.
  intros Hh.
  assert (H1 : rem h 360 == h).
  { unfold rem.
    assert (Hq : 0 <= h / 360 < 1) by (unfold Qdiv; fractions; split; Lqa.lra).
    rewrite (proj2 (Qle_bool_iff 0 (h / 360)) (proj1 Hq)).
    rewrite (Qfloor_unique (h / 360) 0) by (change (inject_Z 0) with 0; Lqa.lra).
    change (inject_Z 0) with 0. ring. }
  unfold rem at 1.
  assert (Hq : 1 <= (rem h 360 + 360) / 360 < 2)
    by (unfold Qdiv; fractions; split; Lqa.lra).
  rewrite (proj2 (Qle_bool_iff 0 ((rem h 360 + 360) / 360)) ltac:(Lqa.lra)).
  rewrite (Qfloor_unique ((rem h 360 + 360) / 360) 1)
    by (change (inject_Z 1) with 1; Lqa.lra).
  change (inject_Z 1) with 1. Lqa.lra.
Qed.

(** The quotient [u] of [n] by a positive [d] that bounds it, by sign and
    by whether a bound is reached. *)
Lemma quotient_cases (n d u : Q) :
  0 < d -> - d <= n <= d -> d * u == n ->
  (u == -1 /\ n == - d) \/ (-1 < u < 0 /\ - d < n < 0) \/ (u == 0 /\ n == 0)
  \/ (0 < u < 1 /\ 0 < n < d) \/ (u == 1 /\ n == d).
Proof.
  intros Hd Hn Hu.
  assert (Hlt : forall a b, a < b -> d * a < d * b)
    by (intros a b Hab; apply Qmult_lt_l; assumption).
  destruct (Q_dec u (-1)) as [[H | H] | H].
  - pose proof (Hlt _ _ H). exfalso. Lqa.lra.
  - destruct (Q_dec u 0) as [[H0 | H0] | H0].
    + right; left. pose proof (Hlt _ _ H). pose proof (Hlt _ _ H0).
      split; split; Lqa.lra.
    + destruct (Q_dec u 1) as [[H1 | H1] | H1].
      * right; right; right; left.
        pose proof (Hlt _ _ H0). pose proof (Hlt _ _ H1).
        split; split; Lqa.lra.
      * pose proof (Hlt _ _ H1). exfalso. Lqa.lra.
      * right; right; right; right. split; [exact H1 |].
        rewrite <- Hu, H1. ring.
    + right; right; left. split; [exact H0 |]. rewrite <- Hu, H0. ring.
  - left. split; [exact H |]. rewrite <- Hu, H. ring.
Qed.

(** Lightness, saturation and back: the two ends [p] and [q] of the
    channel ramp are the smallest and the largest channel. *)
Lemma chroma_ends (M m : Q) :
  0 <= m -> m < M -> M <= 1 ->
  let l := (M + m) / 2 in
  let s := if gtb l 0.5 then (M - m) / (2 - M - m) else (M - m) / (M + m) in
  let q := if ltb l 0.5 then l * (1 + s) else l + s - l * s in
  0 < s /\ q == M /\ 2 * l - q == m.
Proof.
  intros Hm0 HmM HM1. cbv zeta.
  assert (Hl : (M + m) / 2 == (M + m) * (1 # 2)) by reflexivity.
  destruct (gtb ((M + m) / 2) 0.5) eqn:Eg;
    [apply gtb_gt in Eg | apply gtb_le in Eg]; rewrite Hl in Eg.
  - assert (Hden : 0 < 2 - M - m) by Lqa.lra.
    assert (Hs : (2 - M - m) * ((M - m) / (2 - M - m)) == M - m)
      by (apply Qmult_div_r; Lqa.lra).
    assert (Hpos : 0 < (M - m) / (2 - M - m))
      by (apply Qlt_shift_div_l; Lqa.lra).
    revert Hs Hpos. generalize ((M - m) / (2 - M - m)) as s. intros s Hs Hpos.
    replace (ltb ((M + m) / 2) 0.5) with false
      by (symmetry; apply ltb_ge; rewrite Hl; Lqa.lra).
    split; [exact Hpos |]. rewrite Hl. split; Lqa.lra.
  - assert (Hden : 0 < M + m) by Lqa.lra.
    assert (Hs : (M + m) * ((M - m) / (M + m)) == M - m)
      by (apply Qmult_div_r; Lqa.lra).
    assert (Hpos : 0 < (M - m) / (M + m))
      by (apply Qlt_shift_div_l; Lqa.lra).
    revert Hs Hpos. generalize ((M - m) / (M + m)) as s. intros s Hs Hpos.
    split; [exact Hpos |].
    destruct (ltb ((M + m) / 2) 0.5) eqn:El;
      [apply ltb_lt in El | apply ltb_ge in El]; rewrite Hl in El; rewrite Hl.
    + split; Lqa.lra.
    + assert (Hsum : M + m == 1) by Lqa.lra.
      assert (Hs1 : (M + m) * s == 1 * s) by (rewrite Hsum; reflexivity).
      split; Lqa.lra.
Qed.

(** [hue2rgb] by cases: the fraction [t2] it works with after the two
    adjustments, and the piece of the ramp [t2] falls on. *)
Lemma hue2rgb_cases (p q t : Q) :
  exists t2,
    ((t < 0 /\ t + 1 <= 1 /\ t2 = t + 1)
     \/ (t < 0 /\ 1 < t + 1 /\ t2 = t + 1 - 1)
     \/ (0 <= t /\ 1 < t /\ t2 = t - 1)
     \/ (0 <= t /\ t <= 1 /\ t2 = t))
    /\ ((t2 < (1 # 6) /\ hue2rgb p q t = p + (q - p) * 6 * t2)
        \/ ((1 # 6) <= t2 /\ t2 < (1 # 2) /\ hue2rgb p q t = q)
        \/ ((1 # 2) <= t2 /\ t2 < (2 # 3)
            /\ hue2rgb p q t = p + (q - p) * ((2 # 3) - t2) * 6)
        \/ ((2 # 3) <= t2 /\ hue2rgb p q t = p)).
Proof.
  unfold hue2rgb. fractions.
  set (t1 := if ltb t 0 then t + 1 else t).
  set (t2 := if gtb t1 1 then t1 - 1 else t1).
  exists t2. split.
  - subst t2 t1.
    destruct (ltb t 0) eqn:E0; [apply ltb_lt in E0 | apply ltb_ge in E0].
    + destruct (gtb (t + 1) 1) eqn:E1;
        [apply gtb_gt in E1 | apply gtb_le in E1]; auto 10.
    + destruct (gtb t 1) eqn:E1;
        [apply gtb_gt in E1 | apply gtb_le in E1]; auto 10.
  - clearbody t2. clear t1.
    destruct (ltb t2 (1 # 6)) eqn:E2;
      [apply ltb_lt in E2; auto | apply ltb_ge in E2].
    destruct (ltb t2 (1 # 2)) eqn:E3;
      [apply ltb_lt in E3; auto | apply ltb_ge in E3].
    destruct (ltb t2 (2 # 3)) eqn:E4;
      [apply ltb_lt in E4; auto 10 | apply ltb_ge in E4; auto 10].
Qed.

(** One channel, once the facts about the hue are at hand. *)
Ltac channel p q t :=
  let t2 := fresh "t2" in
  let Hadj := fresh "Hadj" in
  let Hval := fresh "Hval" in
  destruct (hue2rgb_cases p q t) as (t2 & Hadj & Hval);
  destruct Hadj as [(? & ? & ->) | [(? & ? & ->) | [(? & ? & ->) | (? & ? & ->)]]];
  destruct Hval as [(? & ->) | [(? & ? & ->) | [(? & ? & ->) | (? & ->)]]];
  Lqa.lra.

(** The three channels [hslToRgb] reads off the ramp, for the hue
    [rgbToHsl] gives in each of its cases: [t] is the hue as a fraction of
    the circle, [u] the quotient of the case. *)
Lemma channels_from_hue (M m x y z p q t : Q) :
  m < M -> m <= x <= M -> m <= y <= M -> m <= z <= M ->
  (m == x \/ m == y \/ m == z) ->
  p == m -> q == M ->
  ((M == x /\ z <= y /\ exists u, (M - m) * u == y - z /\ t * 6 == u)
   \/ (M == x /\ y < z /\ exists u, (M - m) * u == y - z /\ t * 6 == u + 6)
   \/ (M == y /\ exists u, (M - m) * u == z - x /\ t * 6 == u + 2)
   \/ (M == z /\ exists u, (M - m) * u == x - y /\ t * 6 == u + 4)) ->
  hue2rgb p q (t + 1 / 3) == x /\ hue2rgb p q t == y
  /\ hue2rgb p q (t - 1 / 3) == z.
Proof.
  intros HmM Hx Hy Hz Hm Hp Hq Hsector.
  assert (P1 : (q - p) * t == (M - m) * t) by (rewrite Hp, Hq; reflexivity).
  assert (Hd : 0 < M - m) by Lqa.lra.
  fractions.
  destruct Hsector as [(HM & Hzy & u & Hu & Ht) | [(HM & Hyz & u & Hu & Ht)
                      | [(HM & u & Hu & Ht) | (HM & u & Hu & Ht)]]].
  - assert (P2 : (M - m) * (t * 6) == (M - m) * u) by (rewrite Ht; reflexivity).
    destruct (quotient_cases (y - z) (M - m) u Hd ltac:(split; Lqa.lra) Hu)
      as [[Hu1 Hn] | [[Hu1 Hn] | [[Hu1 Hn] | [[Hu1 Hn] | [Hu1 Hn]]]]];
      try (exfalso; Lqa.lra);
      destruct Hm as [Hm | [Hm | Hm]];
      (split; [channel p q (t + (1 # 3)) |
       split; [channel p q t | channel p q (t - (1 # 3))]]).
  - assert (P2 : (M - m) * (t * 6) == (M - m) * (u + 6)) by (rewrite Ht; reflexivity).
    destruct (quotient_cases (y - z) (M - m) u Hd ltac:(split; Lqa.lra) Hu)
      as [[Hu1 Hn] | [[Hu1 Hn] | [[Hu1 Hn] | [[Hu1 Hn] | [Hu1 Hn]]]]];
      try (exfalso; Lqa.lra);
      destruct Hm as [Hm | [Hm | Hm]];
      (split; [channel p q (t + (1 # 3)) |
       split; [channel p q t | channel p q (t - (1 # 3))]]).
  - assert (P2 : (M - m) * (t * 6) == (M - m) * (u + 2)) by (rewrite Ht; reflexivity).
    destruct (quotient_cases (z - x) (M - m) u Hd ltac:(split; Lqa.lra) Hu)
      as [[Hu1 Hn] | [[Hu1 Hn] | [[Hu1 Hn] | [[Hu1 Hn] | [Hu1 Hn]]]]];
      try (exfalso; Lqa.lra);
      destruct Hm as [Hm | [Hm | Hm]];
      (split; [channel p q (t + (1 # 3)) |
       split; [channel p q t | channel p q (t - (1 # 3))]]).
  - assert (P2 : (M - m) * (t * 6) == (M - m) * (u + 4)) by (rewrite Ht; reflexivity).
    destruct (quotient_cases (x - y) (M - m) u Hd ltac:(split; Lqa.lra) Hu)
      as [[Hu1 Hn] | [[Hu1 Hn] | [[Hu1 Hn] | [[Hu1 Hn] | [Hu1 Hn]]]]];
      try (exfalso; Lqa.lra);
      destruct Hm as [Hm | [Hm | Hm]];
      (split; [channel p q (t + (1 # 3)) |
       split; [channel p q t | channel p q (t - (1 # 3))]]).
Qed.

Lemma hslToRgb_chromatic (h s l : Q) :
  Qeq_bool s 0 = false ->
  let t := rem (rem h 360 + 360) 360 / 360 in
  let q := if ltb l 0.5 then l * (1 + s) else l + s - l * s in
  let p := 2 * l - q in
  hslToRgb h s l
  = (Math_round (hue2rgb p q (t + 1 / 3) * 255),
     Math_round (hue2rgb p q t * 255),
     Math_round (hue2rgb p q (t - 1 / 3) * 255)).
Proof. intros Hs. unfold hslToRgb. rewrite Hs. reflexivity. Qed.

Lemma round_channel (v x : Q) (n : Z) :
  v == x -> x * 255 == inject_Z n -> Math_round (v * 255) = n.
Proof.
  intros Hv Hx. rewrite <- (Math_round_int n). apply Math_round_comp.
  rewrite Hv. exact Hx.
Qed.

Lemma round_trip_channels (r g b : Z) (x y z : Q) :
  x * 255 == inject_Z r -> y * 255 == inject_Z g -> z * 255 == inject_Z b ->
  0 <= x <= 1 -> 0 <= y <= 1 -> 0 <= z <= 1 ->
  let max := Math_max (Math_max x y) z in
  let min := Math_min (Math_min x y) z in
  let l := (max + min) / 2 in
  exists h s,
    (if Qeq_bool max min then (0 * 360, 0, l)
     else
       let d := max - min in
       let s := if gtb l 0.5 then d / (2 - max - min) else d / (max + min) in
       let h :=
         if Qeq_bool max x then (y - z) / d + (if ltb y z then 6 else 0)
         else if Qeq_bool max y then (z - x) / d + 2
         else (x - y) / d + 4 in
       let h := h / 6 in
       (h * 360, s, l)) = (h, s, l)
    /\ hslToRgb h s l = (r, g, b).
Proof.
  intros Xr Yg Zb Hx Hy Hz. cbv zeta.
  destruct (extremes x y z) as ((Ex & Ey & Ez) & HM & Hm). cbv zeta in *.
  revert Ex Ey Ez HM Hm.
  generalize (Math_max (Math_max x y) z) as M,
             (Math_min (Math_min x y) z) as m.
  intros M m Ex Ey Ez HM Hm.
  assert (HM1 : 0 <= M <= 1) by (destruct HM as [-> | [-> | ->]]; assumption).
  assert (Hm1 : 0 <= m <= 1) by (destruct Hm as [-> | [-> | ->]]; assumption).
  assert (Hl : (M + m) / 2 == (M + m) * (1 # 2)) by reflexivity.
  destruct (Qeq_bool M m) eqn:Eq.
  - apply Qeq_bool_iff in Eq.
    do 2 eexists. split; [reflexivity |].
    unfold hslToRgb. change (Qeq_bool 0 0) with true. cbv iota.
    f_equal; [f_equal |];
      [apply (round_channel _ x) | apply (round_channel _ y)
       | apply (round_channel _ z)]; try assumption; rewrite Hl; Lqa.lra.
  - assert (Hne : ~ M == m) by (intros H; apply Qeq_bool_iff in H; congruence).
    assert (HmM : m < M).
    { destruct (Qlt_le_dec m M) as [H | H]; [exact H |].
      exfalso. apply Hne. Lqa.lra. }
    assert (Hd : 0 < M - m) by Lqa.lra.
    assert (Hm' : m == x \/ m == y \/ m == z)
      by (destruct Hm as [-> | [-> | ->]]; auto using Qeq_refl).
    destruct (chroma_ends M m (proj1 Hm1) HmM (proj2 HM1)) as (Hs & Hq & Hp).
    cbv zeta in Hs, Hq, Hp.
    do 2 eexists. split; [reflexivity |].
    rewrite hslToRgb_chromatic
      by (destruct (Qeq_bool _ 0) eqn:E; [| reflexivity];
          apply Qeq_bool_iff in E; rewrite E in Hs; discriminate).
    cbv zeta.
    match goal with
    | |- context [rem (rem ?h 360 + 360) 360] =>
        assert (Hh : exists h6, h == h6 * 60 /\ 0 <= h6 < 6
          /\ ((M == x /\ z <= y /\ exists u, (M - m) * u == y - z /\ h6 == u)
              \/ (M == x /\ y < z /\ exists u, (M - m) * u == y - z /\ h6 == u + 6)
              \/ (M == y /\ exists u, (M - m) * u == z - x /\ h6 == u + 2)
              \/ (M == z /\ exists u, (M - m) * u == x - y /\ h6 == u + 4)));
        [| destruct Hh as (h6 & Hh & Hrange & Hsector);
           pose proof (hue_already_normalised h ltac:(rewrite Hh; split; Lqa.lra)) as Hn;
           revert Hn; generalize (rem (rem h 360 + 360) 360) as hn; intros hn Hn ]
    end.
    + assert (Hq6 : forall a, a / 6 * 360 == a * 60)
        by (intros a; unfold Qdiv; change (/ 6) with (1 # 6); ring).
      destruct (Qeq_bool M x) eqn:Emx.
      * apply Qeq_bool_iff in Emx.
        assert (Hu : (M - m) * ((y - z) / (M - m)) == y - z)
          by (apply Qmult_div_r; Lqa.lra).
        destruct (quotient_bounds (y - z) (M - m) Hd ltac:(split; Lqa.lra))
          as (Hb & Hneg & Hpos).
        destruct (ltb y z) eqn:Eyz; [apply ltb_lt in Eyz | apply ltb_ge in Eyz].
        -- exists ((y - z) / (M - m) + 6). split; [apply Hq6 |].
           specialize (Hneg ltac:(Lqa.lra)). split; [split; Lqa.lra |].
           right; left. split; [exact Emx |]. split; [exact Eyz |].
           eexists. split; [exact Hu | reflexivity].
        -- exists ((y - z) / (M - m) + 0). split; [apply Hq6 |].
           specialize (Hpos ltac:(Lqa.lra)). split; [split; Lqa.lra |].
           left. split; [exact Emx |]. split; [exact Eyz |].
           eexists. split; [exact Hu | ring].
      * destruct (Qeq_bool M y) eqn:Emy.
        -- apply Qeq_bool_iff in Emy.
           assert (Hu : (M - m) * ((z - x) / (M - m)) == z - x)
             by (apply Qmult_div_r; Lqa.lra).
           destruct (quotient_bounds (z - x) (M - m) Hd ltac:(split; Lqa.lra))
             as (Hb & _).
           exists ((z - x) / (M - m) + 2). split; [apply Hq6 |].
           split; [split; Lqa.lra |].
           right; right; left. split; [exact Emy |].
           eexists. split; [exact Hu | reflexivity].
        -- assert (Emz : M == z).
           { destruct HM as [-> | [-> | ->]]; [| | reflexivity].
             - rewrite (proj2 (Qeq_bool_iff x x) (Qeq_refl x)) in Emx. discriminate.
             - rewrite (proj2 (Qeq_bool_iff y y) (Qeq_refl y)) in Emy. discriminate. }
           assert (Hu : (M - m) * ((x - y) / (M - m)) == x - y)
             by (apply Qmult_div_r; Lqa.lra).
           destruct (quotient_bounds (x - y) (M - m) Hd ltac:(split; Lqa.lra))
             as (Hb & _).
           exists ((x - y) / (M - m) + 4). split; [apply Hq6 |].
           split; [split; Lqa.lra |].
           right; right; right. split; [exact Emz |].
           eexists. split; [exact Hu | reflexivity].
    + assert (Ht : hn / 360 * 6 == h6).
      { rewrite Hn, Hh. unfold Qdiv. change (/ 360) with (1 # 360). ring. }
      revert Ht. generalize (hn / 360) as t. intros t Ht.
      destruct (channels_from_hue M m x y z _ _ t HmM Ex Ey Ez Hm' Hp Hq)
        as (Cx & Cy & Cz).
      { destruct Hsector as [(H1 & H2 & u & H3 & H4) | [(H1 & H2 & u & H3 & H4)
                            | [(H1 & u & H3 & H4) | (H1 & u & H3 & H4)]]].
        - left. split; [exact H1 |]. split; [exact H2 |].
          exists u. split; [exact H3 | rewrite Ht; exact H4].
        - right; left. split; [exact H1 |]. split; [exact H2 |].
          exists u. split; [exact H3 | rewrite Ht; exact H4].
        - right; right; left. split; [exact H1 |].
          exists u. split; [exact H3 | rewrite Ht; exact H4].
        - right; right; right. split; [exact H1 |].
          exists u. split; [exact H3 | rewrite Ht; exact H4]. }
      f_equal; [f_equal |];
        [apply (round_channel _ x) | apply (round_channel _ y)
         | apply (round_channel _ z)]; assumption.
Qed.

Lemma byte_channel (v : Z) :
  byte v ->
  inject_Z v / 255 * 255 == inject_Z v /\ 0 <= inject_Z v / 255 <= 1.
Proof.
  intros [H0 H1].
  assert (Hlo : inject_Z 0 <= inject_Z v) by (rewrite <- Zle_Qle; exact H0).
  assert (Hhi : inject_Z v <= inject_Z 255) by (rewrite <- Zle_Qle; exact H1).
  change (inject_Z 0) with 0 in Hlo. change (inject_Z 255) with 255 in Hhi.
  unfold Qdiv. change (/ 255) with (1 # 255). split; [ring | split; Lqa.lra].
Qed.

(** X25: the two conversions are exact inverses on colours: for channel
    values that are integers between 0 and 255, [hslToRgb] applied to what
    [rgbToHsl] returns gives the three values back. *)
Theorem rgb_hsl_round_trip (r g b : Z) :
  byte r -> byte g -> byte b ->
  exists h s l,
    rgbToHsl (inject_Z r) (inject_Z g) (inject_Z b) = (h, s, l)
    /\ hslToRgb h s l = (r, g, b).
Proof.
  intros Hr Hg Hb.
  destruct (byte_channel r Hr) as [Xr Hx], (byte_channel g Hg) as [Yg Hy],
           (byte_channel b Hb) as [Zb Hz].
  destruct (round_trip_channels r g b _ _ _ Xr Yg Zb Hx Hy Hz) as (h & s & Hhsl & Hrgb).
  cbv zeta in Hhsl.
  exists h, s, ((Math_max (Math_max (inject_Z r / 255) (inject_Z g / 255))
                  (inject_Z b / 255)
                + Math_min (Math_min (inject_Z r / 255) (inject_Z g / 255))
                    (inject_Z b / 255)) / 2).
  split; [exact Hhsl | exact Hrgb].
Qed.

Lemma rgb_hsl_round_trip_witness :
  exists h s l,
    rgbToHsl 200 100 100 = (h, s, l) /\ hslToRgb h s l = (200, 100, 100)%Z.
Proof.
  apply (rgb_hsl_round_trip 200 100 100); unfold byte; lia.
Defined.

End RoundTrip.

Section FrameAndTransform.

Import JS Carousel Stage.
Local Open Scope R_scope.

(* Case analysis on nested minima, maxima and absolute values, innermost
   comparison first. *)
Ltac clamp_cases :=
  unfold Rmax, Rmin, Rabs;
  repeat match goal with
         | |- context [Rle_dec ?u ?v] =>
             lazymatch v with
             | context [Rle_dec _ _] => fail
             | _ => destruct (Rle_dec u v)
             end
         | |- context [Rcase_abs ?u] =>
             lazymatch u with
             | context [Rle_dec _ _] => fail
             | _ => destruct (Rcase_abs u)
             end
         end;
  try lra.

(** X26: a frame after the first moves the offset by the velocity times
    the seconds since the last frame, wrapped into the track: the new
    offset is that sum up to whole turns, in [0, track); the track is kept
    and the timestamp recorded. *)
Theorem frame_advances_offset st t track offset v l :
  TRACK st = Fin track -> 0 < track -> SCROLL_X st = Fin offset ->
  vX st = Fin v -> lastTime st = Fin l -> l <> 0 ->
  exists r (k : Z),
    SCROLL_X (tick (Fin t) st) = Fin r
    /\ 0 <= r < track
    /\ r = offset + v * ((t - l) / 1000) + IZR k * track
    /\ TRACK (tick (Fin t) st) = Fin track
    /\ lastTime (tick (Fin t) st) = Fin t.
Proof.
  intros HT Ht HS Hv Hl Hl0.
  destruct (tick_real st t v l offset track Hv Hl HS HT)
    as (dt & _ & _ & Hdt & Hs' & _).
  specialize (Hdt Hl0). subst dt.
  destruct (mod_range (offset + v * ((t - l) / 1000)) track Ht)
    as (r & k & Hr & Hrange & Hk).
  exists r, k. rewrite Hs', Hr.
  destruct (tick_scroll_state (Fin t) st) as (_ & _ & Hlt & HT').
  cbv zeta in *. rewrite Hlt, HT', HT. repeat split; try assumption; apply Hrange.
Qed.

Lemma frame_advances_offset_witness :
  exists r (k : Z),
    SCROLL_X (tick (Fin 1016) (coasting 500)) = Fin r
    /\ 0 <= r < 656
    /\ r = 0 + 500 * ((1016 - 1000) / 1000) + IZR k * 656.
Proof.
  destruct (frame_advances_offset (coasting 500) 1016 656 0 500 1000
              eq_refl ltac:(lra) eq_refl eq_refl eq_refl ltac:(lra))
    as (r & k & Hr & Hrange & Hk & _).
  exists r, k. split; [exact Hr |]. split; [exact Hrange | exact Hk].
Defined.

(** The components on a viewport of positive half width, as reals. *)
Lemma components_real (w x : R) :
  0 < w ->
  let c := computeTransformComponents (Fin w) (Fin x) in
  let n := Rmax (-1) (Rmin 1 (x / w)) in
  norm c = Fin n /\ ry c = Fin (- n * 28)
  /\ tz c = Fin ((1 + - Rabs n) * 140)
  /\ scale c = Fin (0.92 + (1 + - Rabs n) * 0.1).
Proof.
  intros Hw. cbv zeta. unfold computeTransformComponents.
  cbn [norm ry tz scale]. rewrite div_Fin by lra.
  assert (Hn : Math_max (Fin (-1)) (Math_min (Fin 1) (Fin (x / w)))
               = Fin (Rmax (-1) (Rmin 1 (x / w)))).
  { cbv [Math_min Math_max lt]. unfold Rmax, Rmin.
    destruct (Rlt_dec (x / w) 1), (Rle_dec 1 (x / w)); try lra;
      match goal with
      | |- context [Rlt_dec (-1) ?a] =>
          destruct (Rlt_dec (-1) a), (Rle_dec (-1) a); try lra; f_equal; lra
      end. }
  rewrite Hn. repeat split; reflexivity.
Qed.

(** X27: on a viewport of positive half width, for a card at a finite
    position: mirror positions get the same depth and scale and opposite
    rotations; a card nearer to the centre is at least as deep and as
    large; the centre card has rotation 0, depth 140 and scale 1.02; and a
    card half a viewport or more away has depth 0, scale 0.92 and a
    rotation of 28 degrees, negative on the right and positive on the
    left. *)
Theorem transform_symmetric_and_peaked (w x x' : R) :
  0 < w ->
  let c := computeTransformComponents (Fin w) (Fin x) in
  let m := computeTransformComponents (Fin w) (Fin (- x)) in
  let c' := computeTransformComponents (Fin w) (Fin x') in
  exists r z s r' z' s',
    ry c = Fin r /\ tz c = Fin z /\ scale c = Fin s
    /\ ry c' = Fin r' /\ tz c' = Fin z' /\ scale c' = Fin s'
    /\ within (- r) (- r) (ry m) /\ within z z (tz m) /\ within s s (scale m)
    /\ (Rabs x <= Rabs x' -> z' <= z /\ s' <= s)
    /\ (x = 0 -> r = 0 /\ z = 140 /\ s = 1.02)
    /\ (w <= x -> r = -28 /\ z = 0 /\ s = 0.92)
    /\ (x <= - w -> r = 28 /\ z = 0 /\ s = 0.92).
Proof.
  intros Hw. cbv zeta.
  destruct (components_real w x Hw) as (_ & Hr & Hz & Hs).
  destruct (components_real w (- x) Hw) as (_ & Hrm & Hzm & Hsm).
  destruct (components_real w x' Hw) as (_ & Hr' & Hz' & Hs').
  cbv zeta in *. rewrite Hr, Hz, Hs, Hrm, Hzm, Hsm, Hr', Hz', Hs'.
  do 6 eexists.
  split; [reflexivity |]. split; [reflexivity |]. split; [reflexivity |].
  split; [reflexivity |]. split; [reflexivity |]. split; [reflexivity |].
  assert (Hq : - x / w = - (x / w)) by (field; lra).
  assert (Hinv : 0 < / w) by (apply Rinv_0_lt_compat; exact Hw).
  assert (Habs : forall a, Rabs (Rmax (-1) (Rmin 1 a)) = Rmin 1 (Rabs a)).
  { intros a. unfold Rabs at 2. destruct (Rcase_abs a); clamp_cases. }
  assert (Hneg : Rmax (-1) (Rmin 1 (- (x / w))) = - Rmax (-1) (Rmin 1 (x / w))).
  { clamp_cases. }
  cbn [within]. rewrite Hq, Hneg, Rabs_Ropp.
  split; [lra |]. split; [lra |]. split; [lra |].
  split; [| split; [| split]].
  - intros Hnear. rewrite !Habs.
    assert (Hqq : Rabs (x / w) <= Rabs (x' / w)).
    { unfold Rdiv. rewrite !Rabs_mult.
      apply Rmult_le_compat_r; [apply Rabs_pos | exact Hnear]. }
    assert (Hmin : Rmin 1 (Rabs (x / w)) <= Rmin 1 (Rabs (x' / w))).
    { revert Hqq. generalize (Rabs (x / w)) (Rabs (x' / w)).
      intros a b Hab. clamp_cases. }
    split; lra.
  - intros ->. unfold Rdiv. rewrite Rmult_0_l.
    assert (E : Rmax (-1) (Rmin 1 0) = 0).
    { clamp_cases. }
    rewrite E, Rabs_R0. repeat split; lra.
  - intros Hfar.
    assert (H1 : 1 <= x / w).
    { apply Rmult_le_reg_r with w; [exact Hw |].
      unfold Rdiv. rewrite Rmult_assoc, Rinv_l by lra. lra. }
    assert (E : Rmax (-1) (Rmin 1 (x / w)) = 1).
    { clamp_cases. }
    rewrite E, Rabs_R1. repeat split; lra.
  - intros Hfar.
    assert (H1 : x / w <= -1).
    { apply Rmult_le_reg_r with w; [exact Hw |].
      unfold Rdiv. rewrite Rmult_assoc, Rinv_l by lra. lra. }
    assert (E : Rmax (-1) (Rmin 1 (x / w)) = -1).
    { clamp_cases. }
    assert (E1 : Rabs (-1) = 1) by clamp_cases.
    rewrite E, E1. repeat split; lra.
Qed.

Lemma transform_symmetric_and_peaked_witness :
  exists r z s,
    ry (computeTransformComponents (Fin 600) (Fin 0)) = Fin r
    /\ tz (computeTransformComponents (Fin 600) (Fin 0)) = Fin z
    /\ scale (computeTransformComponents (Fin 600) (Fin 0)) = Fin s
    /\ r = 0 /\ z = 140 /\ s = 1.02.
Proof.
  destruct (transform_symmetric_and_peaked 600 0 328 ltac:(lra))
    as (r & z & s & _ & _ & _ & Hr & Hz & Hs & _ & _ & _ & _ & _ & _ & _ & H0 & _).
  exists r, z, s. split; [exact Hr |]. split; [exact Hz |]. split; [exact Hs |].
  apply H0. reflexivity.
Defined.

End FrameAndTransform.

Section HueBins.

Import Palette Swatches.
Local Open Scope Q_scope.

(* The hue test of the secondary scan on every pair of cells, against the
   distance of their hue bins. *)
Lemma hue_gap_table :
  forallb (fun j =>
    forallb (fun k =>
      Bool.eqb (geb (hue_gap (bin_hue (Z.of_nat j)) (bin_hue (Z.of_nat k))) 25)
               ((3 <=? Z.abs (Z.of_nat j / 5 - Z.of_nat k / 5))%Z
                && (Z.abs (Z.of_nat j / 5 - Z.of_nat k / 5) <=? 33)%Z))
      (seq 0 180))
    (seq 0 180) = true.
Proof. vm_compute. reflexivity. Qed.

(** X28: for two cells of the histogram, the hue test of the secondary
    scan (a gap of 25 degrees or more from the primary's bin hue) holds
    exactly when their hue bins are between 3 and 33 bins apart: bin hues
    are multiples of 10 degrees, so the test asks for 30 degrees or more,
    and never passes a cell of the primary's own hue bin or of a bin next
    to it or one further. *)
Theorem distant_hue_is_three_bins_away (j k : nat) :
  (j < 180)%nat -> (k < 180)%nat ->
  far_from (bin_hue (Z.of_nat k)) j
  <-> (3 <= Z.abs (Z.of_nat j / 5 - Z.of_nat k / 5) <= 33)%Z.
Proof.
  intros Hj Hk. unfold far_from.
  pose proof hue_gap_table as T.
  rewrite forallb_forall in T.
  specialize (T j ltac:(apply in_seq; lia)).
  rewrite forallb_forall in T.
  specialize (T k ltac:(apply in_seq; lia)).
  apply Bool.eqb_prop in T. rewrite T.
  rewrite andb_true_iff, !Z.leb_le. reflexivity.
Qed.

Lemma distant_hue_is_three_bins_away_witness :
  far_from (bin_hue 0) 14 <-> (3 <= Z.abs (14 / 5 - 0 / 5) <= 33)%Z.
Proof. apply (distant_hue_is_three_bins_away 14 0); lia. Defined.

End HueBins.

Section Averages.

Import Palette Swatches.
Local Open Scope Q_scope.

(** A channel with values from 0 to 255 sums, over a cell, to at most 255
    times the weight of the cell. *)
Lemma bucket_sum_bounded (ch : Z -> Z -> Z -> Q) (k : Z) (data : list Z) :
  all_pixels (fun r g b _ => 0 <= ch r g b <= 255) data ->
  0 <= bucket_sum ch k data <= 255 * bucket_sum ch_one k data.
Proof.
  induction data as [| | | | r g b a8 rest IH] using pixel_ind;
    try (intros _; cbn [bucket_sum]; Lqa.lra).
  cbn [all_pixels bucket_sum]. intros [[Hlo Hhi] Hrest].
  specialize (IH Hrest).
  destruct (pixel_bin r g b a8) as [[bidx w] |] eqn:E; [| exact IH].
  destruct (pixel_bin_weight _ _ _ _ _ _ E) as [Hw _].
  destruct (bidx =? k)%Z; [| exact IH].
  change (ch_one r g b) with 1.
  assert (H1 : 0 <= ch r g b * w)
    by (apply Qmult_le_0_compat; [exact Hlo | Lqa.lra]).
  assert (H2 : 0 <= (255 - ch r g b) * w)
    by (apply Qmult_le_0_compat; Lqa.lra).
  generalize dependent (ch r g b). intros c _ _ H1 H2.
  Lqa.lra.
Qed.

Lemma byte_bounds (v : Z) : byte v -> 0 <= inject_Z v <= 255.
Proof.
  intros [Hlo Hhi]. split.
  - change 0 with (inject_Z 0). rewrite <- Zle_Qle. exact Hlo.
  - change 255 with (inject_Z 255). rewrite <- Zle_Qle. exact Hhi.
Qed.

(** The rounded quotient of a bounded sum by its weight, and of an empty
    sum by the stand-in weight. *)
Lemma round_average (x w : Q) :
  0 <= w -> 0 <= x <= 255 * w ->
  byte (Math_round (x / (if Qeq_bool w 0 then 1e-6 else w)))
  /\ (w == 0 -> Math_round (x / (if Qeq_bool w 0 then 1e-6 else w)) = 0%Z).
Proof.
  intros Hw [Hlo Hhi].
  destruct (Qeq_bool w 0) eqn:E.
  - apply Qeq_bool_iff in E.
    assert (Hx : x == 0) by (rewrite E in Hhi; Lqa.lra).
    assert (R : Math_round (x / 1e-6) = 0%Z).
    { rewrite (Math_round_comp (x / 1e-6) (inject_Z 0));
        [apply Math_round_int | rewrite Hx; reflexivity]. }
    rewrite R. split; [unfold byte; lia | reflexivity].
  - assert (Hne : ~ w == 0)
      by (intros H; apply Qeq_bool_iff in H; congruence).
    assert (Hpos : 0 < w) by (apply Qle_lteq in Hw; destruct Hw as [H | H];
                              [exact H | symmetry in H; contradiction]).
    split; [| intros H; contradiction].
    assert (Hq0 : 0 <= x / w) by (apply Qle_shift_div_l; Lqa.lra).
    assert (Hq1 : x / w <= 255) by (apply Qle_shift_div_r; Lqa.lra).
    apply Math_round_le in Hq0, Hq1.
    change 0 with (inject_Z 0) in Hq0. change 255 with (inject_Z 255) in Hq1.
    rewrite Math_round_int in Hq0, Hq1. split; assumption.
Qed.

(** X29: when the red, green and blue values of the pixel buffer are
    bytes, the averaged colour of every cell of the histogram is a triple
    of bytes, and that of a cell no pixel fell in is black: the stand-in
    weight for an empty cell divides sums that are zero. *)
Theorem average_colour_is_a_byte_triple (data : list Z) (k : Z) :
  all_pixels (fun r g b _ => byte r /\ byte g /\ byte b) data ->
  (0 <= k)%Z ->
  let hs := accumulate data empty_hist in
  valid_rgb (avgRGB hs k)
  /\ (cell (wSum hs) k == 0 -> avgRGB hs k = (0, 0, 0)%Z).
Proof.
  intros Hall Hk hs. subst hs.
  destruct (histogram_cells data k Hk) as (Ew & Er & Eg & Eb). cbv zeta in *.
  pose proof (bucket_sum_nonneg k data) as Hw.
  assert (Hr : 0 <= bucket_sum ch_red k data <= 255 * bucket_sum ch_one k data).
  { apply bucket_sum_bounded. revert Hall. apply all_pixels_impl.
    intros r g b a8 (H & _ & _). apply byte_bounds. exact H. }
  assert (Hg : 0 <= bucket_sum ch_green k data <= 255 * bucket_sum ch_one k data).
  { apply bucket_sum_bounded. revert Hall. apply all_pixels_impl.
    intros r g b a8 (_ & H & _). apply byte_bounds. exact H. }
  assert (Hb : 0 <= bucket_sum ch_blue k data <= 255 * bucket_sum ch_one k data).
  { apply bucket_sum_bounded. revert Hall. apply all_pixels_impl.
    intros r g b a8 (_ & _ & H). apply byte_bounds. exact H. }
  rewrite <- Ew in Hw, Hr, Hg, Hb. rewrite <- Er in Hr.
  rewrite <- Eg in Hg. rewrite <- Eb in Hb.
  destruct (round_average _ _ Hw Hr) as [Br Zr].
  destruct (round_average _ _ Hw Hg) as [Bg Zg].
  destruct (round_average _ _ Hw Hb) as [Bb Zb].
  unfold avgRGB, valid_rgb. cbv zeta. split.
  - split; [exact Br |]. split; [exact Bg | exact Bb].
  - intros Hz. rewrite (Zr Hz), (Zg Hz), (Zb Hz). reflexivity.
Qed.

Lemma average_colour_is_a_byte_triple_witness :
  valid_rgb (avgRGB (accumulate (two_tone 2 1) empty_hist) 4)
  /\ (cell (wSum (accumulate (two_tone 2 1) empty_hist)) 4 == 0 ->
      avgRGB (accumulate (two_tone 2 1) empty_hist) 4 = (0, 0, 0)%Z).
Proof.
  apply (average_colour_is_a_byte_triple (two_tone 2 1) 4).
  - cbn. unfold byte. repeat split; lia.
  - lia.
Defined.

End Averages.
